(** * dynamic-gateway: a shallow embedding of the request core

    The development follows the Go packages of the gateway:
    - [Balancer]  internal/balancer/round_robin.go
    - [Pool]      internal/pool/connection_pool.go
    - [Router]    internal/router/http_handler.go, grpc_handler.go and
                  protocol_converter.go

    Go strings are byte sequences and are modelled by [string]; slices are
    lists; Go maps are stdpp finite maps; [uint32] arithmetic is written on
    [Z] with its wrap-around spelled out. *)

From Stdlib Require Import ZArith Lia Ascii String Floats.SpecFloat.
From stdpp Require Import base numbers option list strings gmap fin_maps pretty.

Set Warnings "-register-all".
Local Open Scope Z_scope.
Local Open Scope string_scope.

(** ** Outcomes of Go code that may panic *)

Inductive outcome (A : Type) : Type :=
| Returned (a : A)
| Panicked.
Arguments Returned {A} a.
Arguments Panicked {A}.

(** Go's slice indexing [s[i]] with an [int] index: a run-time panic unless
    [0 <= i < len(s)]. *)
Definition index_slice {A} (s : list A) (i : Z) : outcome A :=
  if decide (i < 0) then Panicked
  else match s !! Z.to_nat i with
       | Some a => Returned a
       | None => Panicked
       end.

(** ** internal/balancer/round_robin.go *)

Module Balancer.

Definition uint32_modulus : Z := 2 ^ 32.

(** Wrap-around of the [uint32] operations. *)
Definition uint32_wrap (z : Z) : Z := z mod uint32_modulus.

(** The conversion [int(x)] of a [uint32]; Go's [int] is taken at its
    64-bit width (two's complement), where every [uint32] is
    represented exactly. *)
Definition int_of_uint32 (x : Z) : Z :=
  (x + 2 ^ 63) mod 2 ^ 64 - 2 ^ 63.

(** [len(s)] as an [int]. *)
Definition len {A} (s : list A) : Z := Z.of_nat (length s).

(** The fields of [RoundRobinBalancer] that carry data; [mu] is the
    lock under which [Next] and [UpdateBackends] run (see [Locked]). *)
Record RoundRobinBalancer : Type := mkBalancer {
  backends : list string;
  counter : Z
}.

Definition NewRoundRobinBalancer (bs : list string) : RoundRobinBalancer :=
  {| backends := bs; counter := 0 |}.

(** [atomic.AddUint32(&b.counter, 1)]: the new value, and the balancer
    holding it. *)
Definition AddUint32 (b : RoundRobinBalancer) (delta : Z)
  : Z * RoundRobinBalancer :=
  let v := uint32_wrap (counter b + delta) in
  (v, {| backends := backends b; counter := v |}).

(** [Next]: Go's [%] on [int] is the truncated remainder, and panics on
    a zero divisor. *)
Definition Next (b : RoundRobinBalancer) : outcome string * RoundRobinBalancer :=
  if decide (len (backends b) = 0) then (Returned EmptyString, b)
  else
    let '(index, b') := AddUint32 b 1 in
    let i := int_of_uint32 (uint32_wrap (index - 1)) in
    if decide (len (backends b') = 0) then (Panicked, b')
    else (index_slice (backends b') (Z.rem i (len (backends b'))), b').

Definition UpdateBackends (b : RoundRobinBalancer) (bs : list string)
  : RoundRobinBalancer :=
  {| backends := bs; counter := 0 |}.

Definition GetBackends (b : RoundRobinBalancer) : list string :=
  [] ++ backends b.

(** [M] successive calls of [Next], oldest result first. *)
Fixpoint calls (M : nat) (b : RoundRobinBalancer)
  : list (outcome string) * RoundRobinBalancer :=
  match M with
  | O => ([], b)
  | S M' => let '(r, b') := Next b in
            let '(rs, b'') := calls M' b' in
            (r :: rs, b'')
  end.

(** The counter is a [uint32]. *)
Definition wf (b : RoundRobinBalancer) : Prop :=
  0 <= counter b < uint32_modulus.

(** The sequence the specification gives for [M] calls: the [i]-th call,
    counted from zero, returns [backends[i mod N]]. *)
Definition round_robin_sequence (bs : list string) (M : nat)
  : list (outcome string) :=
  (λ i : nat, index_slice bs (Z.of_nat i mod len bs)) <$> seq 0 M.

(** The same with the 32 bits of the counter taken into account. *)
Definition wrapped_sequence (bs : list string) (M : nat)
  : list (outcome string) :=
  (λ i : nat, index_slice bs ((Z.of_nat i mod uint32_modulus) mod len bs))
    <$> seq 0 M.

End Balancer.

(** ** The parts of Go's [strings] package the gateway calls *)

Module Strings.

Fixpoint HasPrefix (s prefix : string) {struct prefix} : bool :=
  match prefix, s with
  | EmptyString, _ => true
  | String a prefix', String b s' =>
      if Ascii.eqb a b then HasPrefix s' prefix' else false
  | String _ _, EmptyString => false
  end.

Definition strlen (s : string) : nat := String.length s.

(** [s[i:]] *)
Definition slice_from (i : nat) (s : string) : string :=
  String.substring i (strlen s - i) s.

(** [s[:i]] *)
Definition slice_to (i : nat) (s : string) : string :=
  String.substring 0 i s.

Definition HasSuffix (s suffix : string) : bool :=
  bool_decide (strlen suffix ≤ strlen s)%nat &&
  String.eqb (slice_from (strlen s - strlen suffix) s) suffix.

Definition TrimSuffix (s suffix : string) : string :=
  if HasSuffix s suffix then slice_to (strlen s - strlen suffix) s else s.

(** Membership of a byte in a cutset of ASCII bytes. *)
Fixpoint in_cutset (c : ascii) (cutset : string) : bool :=
  match cutset with
  | EmptyString => false
  | String a cutset' => Ascii.eqb a c || in_cutset c cutset'
  end.

Fixpoint TrimLeft (s cutset : string) : string :=
  match s with
  | EmptyString => EmptyString
  | String a s' => if in_cutset a cutset then TrimLeft s' cutset else s
  end.

Fixpoint TrimRight (s cutset : string) : string :=
  match s with
  | EmptyString => EmptyString
  | String a s' =>
      match TrimRight s' cutset with
      | EmptyString => if in_cutset a cutset then EmptyString
                       else String a EmptyString
      | r => String a r
      end
  end.

Definition Trim (s cutset : string) : string :=
  TrimRight (TrimLeft s cutset) cutset.

(** [Split s sep] for a non-empty separator: the pieces of [s] between
    the successive non-overlapping occurrences of [sep], so one piece
    more than there are occurrences.  [skip] counts the bytes of an
    occurrence still to be passed over. *)
Fixpoint split_go (sep s : string) (skip : nat) : list string :=
  match s with
  | EmptyString => [EmptyString]
  | String a s' =>
      match skip with
      | S k => split_go sep s' k
      | O =>
          if HasPrefix s sep
          then EmptyString :: split_go sep s' (strlen sep - 1)
          else match split_go sep s' 0 with
               | piece :: rest => String a piece :: rest
               | [] => [String a EmptyString]
               end
      end
  end.

Definition Split (s sep : string) : list string := split_go sep s 0.

Definition is_upper (c : ascii) : bool :=
  (65 <=? N_of_ascii c)%N && (N_of_ascii c <=? 90)%N.

Definition is_lower (c : ascii) : bool :=
  (97 <=? N_of_ascii c)%N && (N_of_ascii c <=? 122)%N.

Definition lower_byte (c : ascii) : ascii :=
  if is_upper c then ascii_of_N (N_of_ascii c + 32) else c.

Definition upper_byte (c : ascii) : ascii :=
  if is_lower c then ascii_of_N (N_of_ascii c - 32) else c.

(** [ToLower] on ASCII text, the only text a header name holds; bytes
    outside ASCII are left as they are. *)
Fixpoint ToLower (s : string) : string :=
  match s with
  | EmptyString => EmptyString
  | String a s' => String (lower_byte a) (ToLower s')
  end.

End Strings.

(** ** Go errors and gRPC status codes *)

Module Codes.

Inductive Code : Type :=
| OK | Canceled | Unknown | InvalidArgument | DeadlineExceeded | NotFound
| AlreadyExists | PermissionDenied | ResourceExhausted | FailedPrecondition
| Aborted | OutOfRange | Unimplemented | Internal | Unavailable | DataLoss
| Unauthenticated.

Definition String (c : Code) : string :=
  match c with
  | OK => "OK" | Canceled => "Canceled" | Unknown => "Unknown"
  | InvalidArgument => "InvalidArgument"
  | DeadlineExceeded => "DeadlineExceeded" | NotFound => "NotFound"
  | AlreadyExists => "AlreadyExists"
  | PermissionDenied => "PermissionDenied"
  | ResourceExhausted => "ResourceExhausted"
  | FailedPrecondition => "FailedPrecondition" | Aborted => "Aborted"
  | OutOfRange => "OutOfRange" | Unimplemented => "Unimplemented"
  | Internal => "Internal" | Unavailable => "Unavailable"
  | DataLoss => "DataLoss" | Unauthenticated => "Unauthenticated"
  end.

#[global] Instance Code_eq_dec : EqDecision Code.
Proof. solve_decision. Defined.

End Codes.

(** A Go [error] value: a plain message, a [fmt.Errorf] with [%w] (its
    formatted text and the error it wraps), or a gRPC status error. *)
Inductive error : Type :=
| ErrorString (msg : string)
| WrapError (msg : string) (inner : error)
| StatusError (code : Codes.Code) (msg : string).

(** The [Error()] method. *)
Definition Error (e : error) : string :=
  match e with
  | ErrorString msg => msg
  | WrapError msg _ => msg
  | StatusError c msg =>
      "rpc error: code = " ++ Codes.String c ++ " desc = " ++ msg
  end.

(** [fmt.Errorf(prefix + "%w", err)] *)
Definition Errorf_w (prefix : string) (err : error) : error :=
  WrapError (prefix ++ Error err) err.

(** [status.Errorf(c, prefix + "%v", err)] *)
Definition status_Errorf_v (c : Codes.Code) (prefix : string) (err : error)
  : error :=
  StatusError c (prefix ++ Error err).

(** The result of a Go function returning [(T, error)]. *)
Inductive result (A : Type) : Type :=
| Ok (a : A)
| Err (e : error).
Arguments Ok {A} a.
Arguments Err {A} e.

#[global] Instance error_eq_dec : EqDecision error.
Proof. solve_decision. Defined.


(** ** internal/pool/connection_pool.go *)

Module Connectivity.

Inductive State : Type :=
| Idle | Connecting | Ready | TransientFailure | Shutdown.

Definition String (s : State) : string :=
  match s with
  | Idle => "IDLE" | Connecting => "CONNECTING" | Ready => "READY"
  | TransientFailure => "TRANSIENT_FAILURE" | Shutdown => "SHUTDOWN"
  end.

#[global] Instance State_eq_dec : EqDecision State.
Proof. solve_decision. Defined.

End Connectivity.

Module Pool.

(** A [*grpc.ClientConn] is known by its identity: the n-th connection the
    runtime dialed. *)
Definition ClientConn : Type := nat.

Inductive Credentials : Type :=
| TLSCredentials (InsecureSkipVerify : bool)
| InsecureCredentials.

Record DialOptions : Type := mkDialOptions {
  MaxCallRecvMsgSize : Z;
  MaxCallSendMsgSize : Z;
  KeepaliveTime : Z;            (* seconds *)
  KeepaliveTimeout : Z;         (* seconds *)
  PermitWithoutStream : bool;
  TransportCredentials : Credentials
}.

(** The gRPC runtime as the pool sees it: which targets [DialContext]
    refuses, the connections dialed so far with their options, and the
    connectivity state each one reports.  A theorem about every runtime
    covers every way the states may have moved between two calls. *)
Record Runtime : Type := mkRuntime {
  dial_error : string → option error;
  dialed : list (string * DialOptions);
  conn_state : gmap ClientConn Connectivity.State
}.

Definition GetState (rt : Runtime) (c : ClientConn) : Connectivity.State :=
  default Connectivity.Shutdown (conn_state rt !! c).

Definition Close (rt : Runtime) (c : ClientConn) : Runtime :=
  {| dial_error := dial_error rt;
     dialed := dialed rt;
     conn_state := <[c := Connectivity.Shutdown]> (conn_state rt) |}.

(** [grpc.DialContext] without [WithBlock]: the new connection starts
    idle. *)
Definition DialContext (rt : Runtime) (target : string) (opts : DialOptions)
  : result ClientConn * Runtime :=
  match dial_error rt target with
  | Some e => (Err e, rt)
  | None =>
      let c := length (dialed rt) in
      (Ok c, {| dial_error := dial_error rt;
                dialed := dialed rt ++ [(target, opts)];
                conn_state := <[c := Connectivity.Idle]> (conn_state rt) |})
  end.

Record ConnectionPool : Type := mkPool {
  connections : gmap string ClientConn;
  maxMsgSize : Z
}.

Definition NewConnectionPool (maxMsgSize : Z) : ConnectionPool :=
  {| connections := ∅; maxMsgSize := maxMsgSize |}.

(** The three [sync.Map] operations the pool uses; each is atomic. *)
Definition Load (p : ConnectionPool) (address : string) : option ClientConn :=
  connections p !! address.

Definition Delete (p : ConnectionPool) (address : string) : ConnectionPool :=
  {| connections := delete address (connections p);
     maxMsgSize := maxMsgSize p |}.

Definition Store (p : ConnectionPool) (address : string) (c : ClientConn)
  : ConnectionPool :=
  {| connections := <[address := c]> (connections p);
     maxMsgSize := maxMsgSize p |}.

Definition createConnection (p : ConnectionPool) (rt : Runtime)
    (address : string) (useTLS skipVerify : bool)
  : result ClientConn * Runtime :=
  let opts :=
    {| MaxCallRecvMsgSize := maxMsgSize p;
       MaxCallSendMsgSize := maxMsgSize p;
       KeepaliveTime := 10;
       KeepaliveTimeout := 3;
       PermitWithoutStream := true;
       TransportCredentials :=
         if useTLS then TLSCredentials skipVerify else InsecureCredentials |} in
  match DialContext rt address opts with
  | (Err err, rt') =>
      (Err (Errorf_w ("failed to dial " ++ address ++ ": ") err), rt')
  | (Ok conn, rt') => (Ok conn, rt')
  end.

(** The states in which [GetConnection] reuses a cached connection. *)
Definition reusable (s : Connectivity.State) : bool :=
  match s with
  | Connectivity.Ready | Connectivity.Connecting | Connectivity.Idle => true
  | _ => false
  end.

(** The tail of [GetConnection], from the comment "Create new connection". *)
Definition create_and_store (p : ConnectionPool) (rt : Runtime)
    (address : string) (useTLS skipVerify : bool)
  : result ClientConn * ConnectionPool * Runtime :=
  match createConnection p rt address useTLS skipVerify with
  | (Err err, rt') => (Err err, p, rt')
  | (Ok conn, rt') => (Ok conn, Store p address conn, rt')
  end.

Definition GetConnection (p : ConnectionPool) (rt : Runtime)
    (address : string) (useTLS skipVerify : bool)
  : result ClientConn * ConnectionPool * Runtime :=
  match Load p address with
  | Some clientConn =>
      let state := GetState rt clientConn in
      if reusable state then (Ok clientConn, p, rt)
      else
        let rt1 := Close rt clientConn in
        let p1 := Delete p address in
        create_and_store p1 rt1 address useTLS skipVerify
  | None => create_and_store p rt address useTLS skipVerify
  end.

(** Every cached connection is one the runtime dialed. *)
Definition wf (p : ConnectionPool) (rt : Runtime) : Prop :=
  ∀ a c, connections p !! a = Some c → (c < length (dialed rt))%nat.

(** [CloseAll]: [Range] visits every entry; each is closed and deleted. *)
Definition CloseAll (p : ConnectionPool) (rt : Runtime)
  : ConnectionPool * Runtime :=
  map_fold (λ key conn '(p', rt'), (Delete p' key, Close rt' conn))
           (p, rt) (connections p).

Definition HealthCheck (p : ConnectionPool) (rt : Runtime) : gmap string string :=
  (λ conn, Connectivity.String (GetState rt conn)) <$> connections p.

(** *** [GetConnection] as concurrent callers run it

    No lock is taken in [GetConnection] (the field [mu] of the pool is
    never used), so between two [sync.Map] operations of one caller any
    other caller may run.  A caller is a program counter over the
    operations of [GetConnection], in source order. *)
Inductive pc : Type :=
| AtLoad                         (* p.connections.Load(address) *)
| AtGetState (c : ClientConn)    (* clientConn.GetState() and the test *)
| AtClose (c : ClientConn)       (* clientConn.Close() *)
| AtDelete                       (* p.connections.Delete(address) *)
| AtCreate                       (* p.createConnection(...) *)
| AtStore (c : ClientConn)       (* p.connections.Store(address, conn) *)
| Finished (r : result ClientConn).

Record caller : Type := mkCaller {
  address : string;
  useTLS : bool;
  skipVerify : bool;
  at_pc : pc
}.

Definition goto (t : caller) (l : pc) : caller :=
  {| address := address t; useTLS := useTLS t; skipVerify := skipVerify t;
     at_pc := l |}.

Definition begin (address : string) (useTLS skipVerify : bool) : caller :=
  {| address := address; useTLS := useTLS; skipVerify := skipVerify;
     at_pc := AtLoad |}.

(** One operation of one caller. *)
Definition step (t : caller) (p : ConnectionPool) (rt : Runtime)
  : caller * ConnectionPool * Runtime :=
  match at_pc t with
  | AtLoad =>
      match Load p (address t) with
      | Some c => (goto t (AtGetState c), p, rt)
      | None => (goto t AtCreate, p, rt)
      end
  | AtGetState c =>
      if reusable (GetState rt c) then (goto t (Finished (Ok c)), p, rt)
      else (goto t (AtClose c), p, rt)
  | AtClose c => (goto t AtDelete, p, Close rt c)
  | AtDelete => (goto t AtCreate, Delete p (address t), rt)
  | AtCreate =>
      match createConnection p rt (address t) (useTLS t) (skipVerify t) with
      | (Err err, rt') => (goto t (Finished (Err err)), p, rt')
      | (Ok conn, rt') => (goto t (AtStore conn), p, rt')
      end
  | AtStore c => (goto t (Finished (Ok c)), Store p (address t) c, rt)
  | Finished r => (t, p, rt)
  end.

(** A schedule names, operation by operation, the caller that runs. *)
Fixpoint exec (schedule : list nat) (ts : list caller)
    (p : ConnectionPool) (rt : Runtime)
  : list caller * ConnectionPool * Runtime :=
  match schedule with
  | [] => (ts, p, rt)
  | i :: schedule' =>
      match ts !! i with
      | Some t =>
          let '(t', p', rt') := step t p rt in
          exec schedule' (<[i := t']> ts) p' rt'
      | None => exec schedule' ts p rt
      end
  end.

(** The connections that are open but that no address of the pool leads
    to any more: nothing will ever close them. *)
Definition held (p : ConnectionPool) : list ClientConn :=
  (map_to_list (connections p)).*2.

Definition leaked (p : ConnectionPool) (rt : Runtime) : list ClientConn :=
  filter (λ c, GetState rt c ≠ Connectivity.Shutdown ∧ c ∉ held p)
         (seq 0 (length (dialed rt))).

End Pool.


(** ** The balancer under its lock

    [Next] runs between [b.mu.RLock()] and the deferred [RUnlock];
    [UpdateBackends] between [b.mu.Lock()] and the deferred [Unlock].
    Callers are program counters over the loads and stores of the two
    methods, so that a schedule may interleave them wherever the lock
    lets it. *)

Module Locked.
Import Balancer.

Record RWMutex : Type := mkRWMutex {
  writer : bool;
  readers : nat
}.

Record shared : Type := mkShared {
  bal : RoundRobinBalancer;
  mu : RWMutex
}.

Definition fresh (bs : list string) : shared :=
  {| bal := NewRoundRobinBalancer bs;
     mu := {| writer := false; readers := 0 |} |}.

Inductive next_pc : Type :=
| NRLock                                    (* b.mu.RLock() *)
| NLen                                      (* len(b.backends) == 0 *)
| NAdd                                      (* atomic.AddUint32(&b.counter, 1) *)
| NSlice (index : Z)                        (* the operand b.backends *)
| NIndex (index : Z) (s : list string)      (* [int(index-1)%len(b.backends)] *)
| NRUnlock (r : outcome string)             (* deferred b.mu.RUnlock() *)
| NDone (r : outcome string).

Inductive upd_pc : Type :=
| ULock                                     (* b.mu.Lock() *)
| UAssign                                   (* b.backends = backends *)
| UStore                                    (* atomic.StoreUint32(&b.counter, 0) *)
| UUnlock                                   (* deferred b.mu.Unlock() *)
| UDone.

(** A caller of [Next] also remembers, for the statement of the theorems
    only, each value of [b.backends] it loaded. *)
Inductive thread : Type :=
| NextCall (l : next_pc) (seen : list (list string))
| UpdateCall (bs : list string) (l : upd_pc).

Definition set_bal (sh : shared) (b : RoundRobinBalancer) : shared :=
  {| bal := b; mu := mu sh |}.

Definition set_mu (sh : shared) (m : RWMutex) : shared :=
  {| bal := bal sh; mu := m |}.

(** One operation of one caller; [None] when it is blocked on the lock or
    has returned. *)
Definition step (t : thread) (sh : shared) : option (thread * shared) :=
  match t with
  | NextCall NRLock seen =>
      if writer (mu sh) then None
      else Some (NextCall NLen seen,
                 set_mu sh {| writer := false; readers := S (readers (mu sh)) |})
  | NextCall NLen seen =>
      let s := backends (bal sh) in
      if decide (len s = 0)
      then Some (NextCall (NRUnlock (Returned EmptyString)) (seen ++ [s]), sh)
      else Some (NextCall NAdd (seen ++ [s]), sh)
  | NextCall NAdd seen =>
      let '(index, b') := AddUint32 (bal sh) 1 in
      Some (NextCall (NSlice index) seen, set_bal sh b')
  | NextCall (NSlice index) seen =>
      let s := backends (bal sh) in
      Some (NextCall (NIndex index s) (seen ++ [s]), sh)
  | NextCall (NIndex index s) seen =>
      let s' := backends (bal sh) in
      let i := int_of_uint32 (uint32_wrap (index - 1)) in
      let r := if decide (len s' = 0) then Panicked
               else index_slice s (Z.rem i (len s')) in
      Some (NextCall (NRUnlock r) (seen ++ [s']), sh)
  | NextCall (NRUnlock r) seen =>
      Some (NextCall (NDone r) seen,
            set_mu sh {| writer := writer (mu sh);
                         readers := pred (readers (mu sh)) |})
  | NextCall (NDone _) _ => None
  | UpdateCall bs ULock =>
      if writer (mu sh) then None
      else match readers (mu sh) with
           | O => Some (UpdateCall bs UAssign,
                        set_mu sh {| writer := true; readers := O |})
           | S _ => None
           end
  | UpdateCall bs UAssign =>
      Some (UpdateCall bs UStore,
            set_bal sh {| backends := bs; counter := counter (bal sh) |})
  | UpdateCall bs UStore =>
      Some (UpdateCall bs UUnlock,
            set_bal sh {| backends := backends (bal sh); counter := 0 |})
  | UpdateCall bs UUnlock =>
      Some (UpdateCall bs UDone,
            set_mu sh {| writer := false; readers := readers (mu sh) |})
  | UpdateCall _ UDone => None
  end.

Fixpoint exec (schedule : list nat) (ts : list thread) (sh : shared)
  : list thread * shared :=
  match schedule with
  | [] => (ts, sh)
  | i :: schedule' =>
      match ts !! i with
      | Some t =>
          match step t sh with
          | Some (t', sh') => exec schedule' (<[i := t']> ts) sh'
          | None => exec schedule' ts sh
          end
      | None => exec schedule' ts sh
      end
  end.

(** A caller that has not started yet. *)
Definition at_entry (t : thread) : Prop :=
  match t with
  | NextCall NRLock [] => True
  | UpdateCall _ ULock => True
  | _ => False
  end.

(** The lists that some caller passes to [UpdateBackends]. *)
Definition installs (ts : list thread) : list (list string) :=
  omap (λ t, match t with UpdateCall bs _ => Some bs | _ => None end) ts.

(** Callers between [RLock] and [RUnlock], and between [Lock] and
    [Unlock]. *)
Definition reading (t : thread) : bool :=
  match t with
  | NextCall (NLen | NAdd | NSlice _ | NIndex _ _ | NRUnlock _) _ => true
  | _ => false
  end.

Definition writing (t : thread) : bool :=
  match t with
  | UpdateCall _ (UAssign | UStore | UUnlock) => true
  | _ => false
  end.

Fixpoint count (f : thread → bool) (ts : list thread) : nat :=
  match ts with
  | [] => 0%nat
  | t :: ts' => ((if f t then 1 else 0) + count f ts')%nat
  end.

(** What holds of one caller while the list of the balancer is [cur] and
    the lists it may ever hold are [allowed]. *)
Definition thread_inv (allowed : list (list string)) (cur : list string)
    (t : thread) : Prop :=
  match t with
  | NextCall NRLock seen => seen = []
  | NextCall NLen seen => seen = []
  | NextCall NAdd seen => Forall (eq cur) seen ∧ cur ≠ []
  | NextCall (NSlice _) seen => Forall (eq cur) seen ∧ cur ≠ []
  | NextCall (NIndex _ s) seen => Forall (eq cur) seen ∧ s = cur ∧ cur ≠ []
  | NextCall (NRUnlock r) seen => Forall (eq cur) seen ∧ r ≠ Panicked
  | NextCall (NDone r) seen =>
      (∃ L, L ∈ allowed ∧ Forall (eq L) seen) ∧ r ≠ Panicked
  | UpdateCall bs _ => bs ∈ allowed
  end.

Record inv (allowed : list (list string)) (ts : list thread) (sh : shared)
  : Prop := mkInv {
  inv_readers : readers (mu sh) = count reading ts;
  inv_writers : count writing ts = if writer (mu sh) then 1%nat else 0%nat;
  inv_excl : writer (mu sh) = true → readers (mu sh) = 0%nat;
  inv_cur : backends (bal sh) ∈ allowed;
  inv_threads : Forall (thread_inv allowed (backends (bal sh))) ts
}.

End Locked.


(** ** Library values the router handles

    The gateway's own code is in [Router] below.  What it calls in
    net/textproto, net/http, grpc/metadata, unicode/utf8 and structpb is
    written here after the documented behaviour of those packages. *)

Module Textproto.
Import Strings.

(** The bytes of an HTTP token. *)
Definition validHeaderFieldByte (c : ascii) : bool :=
  let n := N_of_ascii c in
  ((48 <=? n) && (n <=? 57))%N || is_upper c || is_lower c ||
  in_cutset c "!#$%&'*+-.^_`|~".

Fixpoint all_bytes (f : ascii → bool) (s : string) : bool :=
  match s with
  | EmptyString => true
  | String a s' => f a && all_bytes f s'
  end.

(** First letter and every letter after a dash in upper case, the other
    letters in lower case. *)
Fixpoint canonicalize (upper : bool) (s : string) : string :=
  match s with
  | EmptyString => EmptyString
  | String c s' =>
      let c' := if upper then upper_byte c else lower_byte c in
      String c' (canonicalize (Ascii.eqb c' "-"%char) s')
  end.

(** A key holding a byte that no header name may hold is returned as it
    is. *)
Definition CanonicalMIMEHeaderKey (s : string) : string :=
  if all_bytes validHeaderFieldByte s then canonicalize true s else s.

(** A header name as net/http stores it: a token in canonical form. *)
Definition canonical_name (s : string) : Prop :=
  all_bytes validHeaderFieldByte s = true ∧ canonicalize true s = s.

End Textproto.

Module Http.

(** [http.Header], a [map[string][]string]. *)
Abbreviation Header := (gmap string (list string)).

Definition Add (h : Header) (key value : string) : Header :=
  let k := Textproto.CanonicalMIMEHeaderKey key in
  <[k := (default [] (h !! k) ++ [value])%list]> h.

Definition Set_ (h : Header) (key value : string) : Header :=
  <[Textproto.CanonicalMIMEHeaderKey key := [value]]> h.

Definition Del (h : Header) (key : string) : Header :=
  delete (Textproto.CanonicalMIMEHeaderKey key) h.

(** The values, in the order of [entries], of the entries whose key is
    [k] once normalised by [norm]. *)
Definition gathered (norm : string → string) (k : string)
    (entries : list (string * list string)) : list string :=
  concat ((λ e : string * list string,
             if decide (norm e.1 = k) then e.2 else []) <$> entries).

(** Appending values to what a key holds, if it holds anything. *)
Definition extended (old : option (list string)) (values : list string)
  : option (list string) :=
  match values with
  | [] => old
  | _ => Some (default [] old ++ values)%list
  end.

(** The loop
    [for key, values := range src { for _, value := range values {
       dst.Add(key, value) } }]
    when [range] visits the entries of [src] in the order [entries]. *)
Definition AddAll (entries : list (string * list string)) (dst : Header)
  : Header :=
  foldl (λ h '(key, values), foldl (λ h' value, Add h' key value) h values)
        dst entries.

Definition StatusOK : Z := 200.
Definition StatusNoContent : Z := 204.
Definition StatusBadRequest : Z := 400.
Definition StatusNotFound : Z := 404.
Definition StatusInternalServerError : Z := 500.
Definition StatusBadGateway : Z := 502.
Definition StatusServiceUnavailable : Z := 503.

(** An inbound request; [Body] is what [io.ReadAll(r.Body)] gives. *)
Record Request : Type := mkRequest {
  Method : string;
  Path : string;
  RawQuery : string;
  ReqHeader : Header;
  Body : result string
}.

(** What has been written to a [ResponseWriter] when the handler
    returns. *)
Record Response : Type := mkResponse {
  StatusCode : Z;
  RespHeader : Header;
  RespBody : string
}.

(** [http.Error(w, msg, code)] on a writer whose header map is [h]. *)
Definition Error (h : Header) (msg : string) (code : Z) : Response :=
  let h1 := Del h "Content-Length" in
  let h2 := Set_ h1 "Content-Type" "text/plain; charset=utf-8" in
  let h3 := Set_ h2 "X-Content-Type-Options" "nosniff" in
  {| StatusCode := code; RespHeader := h3;
     RespBody := msg ++ String "010"%char EmptyString |}.

End Http.

Module Metadata.

(** [metadata.MD], a [map[string][]string] with lower-case keys. *)
Abbreviation MD := (gmap string (list string)).

(** [md.Append(k, vals...)]: nothing is stored for no values. *)
Definition Append (md : MD) (k : string) (vals : list string) : MD :=
  match vals with
  | [] => md
  | _ => let k' := Strings.ToLower k in
         <[k' := (default [] (md !! k') ++ vals)%list]> md
  end.

(** The loop [for key, values := range h { md.Append(key, values...) }]
    when [range] visits the entries of [h] in the order [entries]. *)
Definition AppendAll (entries : list (string * list string)) (md : MD) : MD :=
  foldl (λ md' '(key, values), Append md' key values) md entries.

End Metadata.

Module Utf8.

Definition cont (b : N) : bool := ((0x80 <=? b) && (b <=? 0xBF))%N.

Definition between (lo hi b : N) : bool := ((lo <=? b) && (b <=? hi))%N.

(** The well-formed byte sequences of RFC 3629. *)
Fixpoint valid (l : list N) : bool :=
  match l with
  | [] => true
  | b0 :: l1 =>
      if (b0 <? 0x80)%N then valid l1
      else
        match l1 with
        | [] => false
        | b1 :: l2 =>
            if between 0xC2 0xDF b0 then cont b1 && valid l2
            else
              match l2 with
              | [] => false
              | b2 :: l3 =>
                  if between 0xE0 0xEF b0 then
                    (if (b0 =? 0xE0)%N then between 0xA0 0xBF b1
                     else if (b0 =? 0xED)%N then between 0x80 0x9F b1
                     else cont b1)
                    && cont b2 && valid l3
                  else
                    match l3 with
                    | [] => false
                    | b3 :: l4 =>
                        between 0xF0 0xF4 b0
                        && (if (b0 =? 0xF0)%N then between 0x90 0xBF b1
                            else if (b0 =? 0xF4)%N then between 0x80 0x8F b1
                            else cont b1)
                        && cont b2 && cont b3 && valid l4
                    end
              end
        end
  end.

Fixpoint bytes (s : string) : list N :=
  match s with
  | EmptyString => []
  | String a s' => N_of_ascii a :: bytes s'
  end.

Definition ValidString (s : string) : bool := valid (bytes s).

End Utf8.


Module Structpb.

(** An IEEE 754 binary64 value; the gateway carries numbers and never
    computes with them. *)
Definition float64 : Type := spec_float.

(** A Go [interface{}] as encoding/json decodes into it: [nil], [bool],
    [float64], [string], [[]interface{}] or [map[string]interface{}]. *)
Inductive Value : Type :=
| VNil
| VBool (b : bool)
| VFloat64 (f : float64)
| VString (s : string)
| VSlice (l : list Value)
| VMap (m : gmap string Value).

(** The kinds of a [structpb.Value]. *)
Inductive PbValue : Type :=
| NullValue
| NumberValue (f : float64)
| StringValue (s : string)
| BoolValue (b : bool)
| StructValue (fields : gmap string PbValue)
| ListValue (values : list PbValue).

(** A [structpb.Struct] is its [Fields]. *)
Abbreviation Struct := (gmap string PbValue).

Definition all_some {A} (m : gmap string (option A)) : option (gmap string A) :=
  if decide (map_Forall (λ _ o, is_Some o) m) then Some (omap id m) else None.

(** [NewValue]; [None] stands for its one error on these kinds,
    "invalid UTF-8 in string". *)
Fixpoint NewValue (v : Value) : option PbValue :=
  match v with
  | VNil => Some NullValue
  | VBool b => Some (BoolValue b)
  | VFloat64 f => Some (NumberValue f)
  | VString s => if Utf8.ValidString s then Some (StringValue s) else None
  | VSlice l => ListValue <$> mapM NewValue l
  | VMap m =>
      if decide (map_Forall (λ k _, Utf8.ValidString k = true) m)
      then StructValue <$> all_some (NewValue <$> m)
      else None
  end.

Definition invalid_utf8 : error := ErrorString "proto: invalid UTF-8 in string".

Definition NewStruct (v : gmap string Value) : result Struct :=
  if decide (map_Forall (λ k _, Utf8.ValidString k = true) v)
  then match all_some (NewValue <$> v) with
       | Some fields => Ok fields
       | None => Err invalid_utf8
       end
  else Err invalid_utf8.

Fixpoint AsInterface (x : PbValue) : Value :=
  match x with
  | NullValue => VNil
  | NumberValue f => VFloat64 f
  | StringValue s => VString s
  | BoolValue b => VBool b
  | StructValue fields => VMap (AsInterface <$> fields)
  | ListValue values => VSlice (AsInterface <$> values)
  end.

Definition AsMap (x : Struct) : gmap string Value := AsInterface <$> x.

(** Strings and field names of a document are well-formed UTF-8, as they
    are in everything encoding/json decodes. *)
Fixpoint utf8_clean (v : Value) : bool :=
  match v with
  | VString s => Utf8.ValidString s
  | VSlice l => forallb utf8_clean l
  | VMap m => bool_decide (map_Forall (λ k _, Utf8.ValidString k = true) m)
              && map_fold (λ _ v acc, utf8_clean v && acc) true m
  | _ => true
  end.

Fixpoint Value_size (v : Value) : nat :=
  match v with
  | VSlice l => S (foldr (λ v n, Value_size v + n)%nat 0%nat l)
  | VMap m => S (map_fold (λ _ v n, Value_size v + n)%nat 0%nat m)
  | _ => 1%nat
  end.

(** A protobuf message reaching the gRPC side. *)
Inductive Message : Type :=
| StructMessage (x : Struct)
| DynamicMessage (fields : gmap string Value)
| OtherMessage.

End Structpb.

Module Config.

Record Backend : Type := mkBackend {
  Address : string;
  Weight : Z;
  TLS : bool;
  TLSServerName : string;
  TLSSkipVerify : bool;
  HealthCheckPath : string;
  MaxConnections : Z
}.

Record GRPCService : Type := mkGRPCService {
  ServiceName : string;
  IsGRPC : bool;
  SvcMaxCallRecvMsgSize : Z;
  SvcMaxCallSendMsgSize : Z;
  SvcBackends : list Backend;
  SvcTimeout : string;
  RetryAttempts : Z
}.

Record HTTPRoute : Type := mkHTTPRoute {
  Path : string;
  Methods : list string;
  TargetProtocol : string;
  StripPath : bool;
  Backends : list Backend;
  Timeout : string
}.

(** The fields of [Config] the handlers read. *)
Record Config : Type := mkConfig {
  GRPCServices : list GRPCService;
  HTTPRoutes : list HTTPRoute
}.

End Config.


(** ** internal/router *)

Module Router.
Import Structpb Config.

(** A request the gateway sends with [http.Client]. *)
Record OutRequest : Type := mkOutRequest {
  OutMethod : string;
  OutURL : string;
  OutHeader : Http.Header;
  OutBody : string
}.

(** What [client.Do] and then [io.ReadAll(resp.Body)] give. *)
Record InResponse : Type := mkInResponse {
  InStatusCode : Z;
  InHeader : Http.Header;
  InBody : result string
}.

(** Everything outside the repository that a call goes through:
    encoding/json on both sides, the backend behind a gRPC connection and
    the backend behind an HTTP URL. *)
Record Env : Type := mkEnv {
  json_parse : string → result Value;
  json_Marshal : gmap string Value → result string;
  Invoke : Pool.ClientConn → string → Message → Metadata.MD → result Struct;
  NewRequest_error : string → string → option error;
  Do : OutRequest → result InResponse
}.

Definition kind_name (v : Value) : string :=
  match v with
  | VNil => "null" | VBool _ => "bool" | VFloat64 _ => "number"
  | VString _ => "string" | VSlice _ => "array" | VMap _ => "object"
  end.

(** [json.Unmarshal(data, &m)] for [m] a nil [map[string]interface{}]:
    a syntax error, or an object, or [null] (which leaves [m] as it is),
    or a value of another kind, which a map cannot take. *)
Definition Unmarshal_map (env : Env) (data : string) : result (gmap string Value) :=
  match json_parse env data with
  | Err e => Err e
  | Ok (VMap m) => Ok m
  | Ok VNil => Ok ∅
  | Ok v => Err (ErrorString ("json: cannot unmarshal " ++ kind_name v ++
                              " into Go value of type map[string]interface {}"))
  end.

(** *** protocol_converter.go *)

(** [HTTPToGRPC], "Parse JSON to map" and "Convert to protobuf Struct". *)
Definition request_struct (env : Env) (bodyBytes : string) : result Struct :=
  match (if decide (0 < String.length bodyBytes)%nat
         then Unmarshal_map env bodyBytes else Ok ∅) with
  | Err err => Err (Errorf_w "failed to unmarshal request: " err)
  | Ok requestData =>
      match NewStruct requestData with
      | Err err => Err (Errorf_w "failed to create struct: " err)
      | Ok requestStruct => Ok requestStruct
      end
  end.

(** [HTTPToGRPC], "Prepare metadata from HTTP headers", the entries of
    the header map being visited in the order [entries]. *)
Definition outgoing_metadata (entries : list (string * list string)) : Metadata.MD :=
  Metadata.AppendAll entries ∅.

Definition HTTPToGRPC (env : Env) (p : Pool.ConnectionPool) (rt : Pool.Runtime)
    (serviceName methodName : string) (httpReq : Http.Request)
    (backendAddr : string)
  : result string * Pool.ConnectionPool * Pool.Runtime :=
  match Http.Body httpReq with
  | Err err => (Err (Errorf_w "failed to read request body: " err), p, rt)
  | Ok bodyBytes =>
      match request_struct env bodyBytes with
      | Err err => (Err err, p, rt)
      | Ok requestStruct =>
          match Pool.GetConnection p rt backendAddr false false with
          | (Err err, p', rt') =>
              (Err (Errorf_w "failed to get connection: " err), p', rt')
          | (Ok conn, p', rt') =>
              let md := outgoing_metadata (map_to_list (Http.ReqHeader httpReq)) in
              let fullMethod := "/" ++ serviceName ++ "/" ++ methodName in
              match Invoke env conn fullMethod (StructMessage requestStruct) md with
              | Err err => (Err (Errorf_w "gRPC invocation failed: " err), p', rt')
              | Ok responseStruct =>
                  match json_Marshal env (AsMap responseStruct) with
                  | Err err =>
                      (Err (Errorf_w "failed to marshal response: " err), p', rt')
                  | Ok responseJSON => (Ok responseJSON, p', rt')
                  end
              end
          end
      end
  end.

(** [protoToMap]; the values of a dynamic message are taken as already
    converted by [Interface()]. *)
Definition protoToMap (fields : gmap string Value) : gmap string Value := fields.

(** [GRPCToHTTP], "Convert protobuf to JSON". *)
Definition request_json (env : Env) (grpcReq : Message) : result string :=
  match (match grpcReq with
         | DynamicMessage dynMsg => Ok (protoToMap dynMsg)
         | StructMessage structMsg => Ok (AsMap structMsg)
         | OtherMessage => Err (ErrorString "unsupported message type")
         end) with
  | Err err => Err err
  | Ok requestData =>
      match json_Marshal env requestData with
      | Err err => Err (Errorf_w "failed to marshal request: " err)
      | Ok requestJSON => Ok requestJSON
      end
  end.

(** [GRPCToHTTP], "Add headers from gRPC metadata" and the content type
    set after it; [incoming] is what [metadata.FromIncomingContext] finds,
    its entries in the order [range] visits them. *)
Definition request_headers (incoming : option (list (string * list string)))
  : Http.Header :=
  let h := match incoming with
           | Some entries => Http.AddAll entries ∅
           | None => ∅
           end in
  Http.Set_ h "Content-Type" "application/json".

Definition GRPCToHTTP (env : Env) (incoming : option Metadata.MD)
    (serviceName methodName : string) (grpcReq : Message) (backendURL : string)
  : result string :=
  match request_json env grpcReq with
  | Err err => Err err
  | Ok requestJSON =>
      let httpURL := backendURL ++ "/" ++ serviceName ++ "/" ++ methodName in
      match NewRequest_error env "POST" httpURL with
      | Some err => Err (Errorf_w "failed to create HTTP request: " err)
      | None =>
          let httpReq :=
            {| OutMethod := "POST"; OutURL := httpURL;
               OutHeader := request_headers (map_to_list <$> incoming);
               OutBody := requestJSON |} in
          match Do env httpReq with
          | Err err => Err (Errorf_w "HTTP request failed: " err)
          | Ok resp =>
              match InBody resp with
              | Err err => Err (Errorf_w "failed to read response: " err)
              | Ok responseBytes =>
                  if decide (InStatusCode resp ≠ Http.StatusOK)
                  then Err (ErrorString
                              ("HTTP request failed with status " ++
                               pretty (InStatusCode resp) ++ ": " ++
                               responseBytes))
                  else Ok responseBytes
              end
          end
      end
  end.

(** *** The state the handlers share *)

Record state : Type := mkState {
  balancers : gmap string Balancer.RoundRobinBalancer;
  connectionPool : Pool.ConnectionPool;
  runtime : Pool.Runtime
}.

Definition set_balancer (st : state) (key : string)
    (b : Balancer.RoundRobinBalancer) : state :=
  {| balancers := <[key := b]> (balancers st);
     connectionPool := connectionPool st;
     runtime := runtime st |}.

Definition set_pool (st : state) (p : Pool.ConnectionPool) (rt : Pool.Runtime)
  : state :=
  {| balancers := balancers st; connectionPool := p; runtime := rt |}.

(** *** http_handler.go *)

Definition routeKey (i : nat) : string := "route_" ++ pretty i.

(** The balancers [NewHTTPHandler] builds, one per route. *)
Definition NewHTTPHandler_balancers (cfg : Config)
  : gmap string Balancer.RoundRobinBalancer :=
  foldl (λ m '(i, route),
           <[routeKey i := Balancer.NewRoundRobinBalancer (Address <$> Backends route)]> m)
        ∅ (imap pair (HTTPRoutes cfg)).

Definition pathMatches (requestPath routePath : string) : bool :=
  if Strings.HasSuffix routePath "*" then
    let prefix := Strings.TrimSuffix routePath "*" in
    Strings.HasPrefix requestPath prefix
  else Strings.HasPrefix requestPath routePath.

(** The inner loop of [findRoute]. *)
Fixpoint method_in (method : string) (ms : list string) : bool :=
  match ms with
  | [] => false
  | m :: ms' => if String.eqb m method then true else method_in method ms'
  end.

(** The body of the loop of [findRoute]: does it reach the [return]? *)
Definition route_matches (path method : string) (route : HTTPRoute) : bool :=
  if negb (pathMatches path (Path route)) then false
  else if decide (0 < length (Methods route))%nat
       then method_in method (Methods route)
       else true.

(** The loop of [findRoute] from index [i] on. *)
Fixpoint findRoute_from (i : nat) (routes : list HTTPRoute) (path method : string)
  : option (HTTPRoute * string) :=
  match routes with
  | [] => None
  | route :: routes' =>
      if route_matches path method route then Some (route, routeKey i)
      else findRoute_from (S i) routes' path method
  end.

Definition findRoute (cfg : Config) (path method : string)
  : option (HTTPRoute * string) :=
  findRoute_from 0 (HTTPRoutes cfg) path method.

Definition routeHTTPToHTTP (env : Env) (r : Http.Request) (route : HTTPRoute)
    (backendAddr : string) : Http.Response :=
  let targetURL := backendAddr ++ Http.Path r in
  let targetURL := if String.eqb (Http.RawQuery r) "" then targetURL
                   else targetURL ++ "?" ++ Http.RawQuery r in
  match Http.Body r with
  | Err _ => Http.Error ∅ "failed to read request body" Http.StatusBadRequest
  | Ok bodyBytes =>
      match NewRequest_error env (Http.Method r) targetURL with
      | Some _ => Http.Error ∅ "failed to create proxy request"
                             Http.StatusInternalServerError
      | None =>
          let proxyReq :=
            {| OutMethod := Http.Method r; OutURL := targetURL;
               OutHeader := Http.AddAll (map_to_list (Http.ReqHeader r)) ∅;
               OutBody := bodyBytes |} in
          match Do env proxyReq with
          | Err _ => Http.Error ∅ "backend request failed" Http.StatusBadGateway
          | Ok resp =>
              {| Http.StatusCode := InStatusCode resp;
                 Http.RespHeader := Http.AddAll (map_to_list (InHeader resp)) ∅;
                 Http.RespBody := match InBody resp with
                                  | Ok body => body
                                  | Err _ => ""
                                  end |}
          end
      end
  end.

(** The answer of [routeHTTPToGRPC] to a path with too few segments. *)
Definition invalid_path_response : Http.Response :=
  Http.Error ∅ "invalid path format, expected /grpc/{service}/{method}"
             Http.StatusBadRequest.

(** [routeHTTPToGRPC] from "Convert HTTP to gRPC" to its end. *)
Definition converted (env : Env) (st : state) (r : Http.Request)
    (serviceName methodName backendAddr : string) : Http.Response * state :=
  match HTTPToGRPC env (connectionPool st) (runtime st)
                   serviceName methodName r backendAddr with
  | (Err err, p', rt') =>
      (Http.Error ∅ ("protocol conversion failed: " ++ Error err)
                  Http.StatusInternalServerError,
       set_pool st p' rt')
  | (Ok responseBytes, p', rt') =>
      ({| Http.StatusCode := Http.StatusOK;
          Http.RespHeader := Http.Set_ ∅ "Content-Type" "application/json";
          Http.RespBody := responseBytes |},
       set_pool st p' rt')
  end.

Definition routeHTTPToGRPC (env : Env) (st : state) (r : Http.Request)
    (route : HTTPRoute) (backendAddr : string)
  : outcome Http.Response * state :=
  let pathParts := Strings.Split (Strings.Trim (Http.Path r) "/") "/" in
  if decide (length pathParts < 3)%nat then (Returned invalid_path_response, st)
  else
    match index_slice pathParts 1, index_slice pathParts 2 with
    | Returned serviceName, Returned methodName =>
        let '(resp, st') := converted env st r serviceName methodName backendAddr in
        (Returned resp, st')
    | _, _ => (Panicked, st)
    end.

Definition ServeHTTP (env : Env) (cfg : Config) (st : state) (r : Http.Request)
  : outcome Http.Response * state :=
  match findRoute cfg (Http.Path r) (Http.Method r) with
  | None =>
      (Returned (Http.Error ∅ "route not found" Http.StatusNotFound), st)
  | Some (route, routeKey) =>
      match balancers st !! routeKey with
      | None =>
          (Returned (Http.Error ∅ "no balancer configured"
                                Http.StatusInternalServerError), st)
      | Some balancer =>
          match Balancer.Next balancer with
          | (Panicked, balancer') => (Panicked, set_balancer st routeKey balancer')
          | (Returned backendAddr, balancer') =>
              let st' := set_balancer st routeKey balancer' in
              if String.eqb backendAddr "" then
                (Returned (Http.Error ∅ "no backends available"
                                      Http.StatusServiceUnavailable), st')
              else if String.eqb (TargetProtocol route) "grpc" then
                routeHTTPToGRPC env st' r route backendAddr
              else
                (Returned (routeHTTPToHTTP env r route backendAddr), st')
          end
      end
  end.

(** *** grpc_handler.go *)

Definition NewGRPCHandler_balancers (cfg : Config)
  : gmap string Balancer.RoundRobinBalancer :=
  foldl (λ m svc,
           <[ServiceName svc :=
               Balancer.NewRoundRobinBalancer (Address <$> SvcBackends svc)]> m)
        ∅ (GRPCServices cfg).

Fixpoint find_service (services : list GRPCService) (serviceName : string)
  : option GRPCService :=
  match services with
  | [] => None
  | svc :: services' =>
      if String.eqb (ServiceName svc) serviceName then Some svc
      else find_service services' serviceName
  end.

Definition routeGRPCToGRPC (env : Env) (st : state) (incoming : option Metadata.MD)
    (serviceName methodName : string) (req : Message) (backendAddr : string)
    (svcConfig : GRPCService)
  : result Message * state :=
  match Pool.GetConnection (connectionPool st) (runtime st) backendAddr false false with
  | (Err err, p', rt') =>
      (Err (status_Errorf_v Codes.Unavailable "failed to connect to backend: " err),
       set_pool st p' rt')
  | (Ok conn, p', rt') =>
      let md := default ∅ incoming in
      let fullMethod := "/" ++ serviceName ++ "/" ++ methodName in
      match Invoke env conn fullMethod req md with
      | Err err => (Err err, set_pool st p' rt')
      | Ok resp => (Ok (StructMessage resp), set_pool st p' rt')
      end
  end.

Definition routeGRPCToHTTP (env : Env) (incoming : option Metadata.MD)
    (serviceName methodName : string) (req : Message) (backendURL : string)
  : result Message :=
  match GRPCToHTTP env incoming serviceName methodName req backendURL with
  | Err err => Err (status_Errorf_v Codes.Internal "protocol conversion failed: " err)
  | Ok responseBytes =>
      match Unmarshal_map env responseBytes with
      | Err err =>
          Err (status_Errorf_v Codes.Internal "failed to unmarshal response: " err)
      | Ok responseData =>
          match NewStruct responseData with
          | Err err =>
              Err (status_Errorf_v Codes.Internal
                                   "failed to create response struct: " err)
          | Ok responseStruct => Ok (StructMessage responseStruct)
          end
      end
  end.

Definition HandleGRPCRequest (env : Env) (cfg : Config) (st : state)
    (incoming : option Metadata.MD) (serviceName methodName : string)
    (req : Message)
  : outcome (result Message) * state :=
  match find_service (GRPCServices cfg) serviceName with
  | None =>
      (Returned (Err (StatusError Codes.NotFound
                        ("service " ++ serviceName ++ " not found"))), st)
  | Some serviceConfig =>
      match balancers st !! serviceName with
      | None =>
          (Returned (Err (StatusError Codes.Internal
                            ("no balancer for service " ++ serviceName))), st)
      | Some balancer =>
          match Balancer.Next balancer with
          | (Panicked, balancer') => (Panicked, set_balancer st serviceName balancer')
          | (Returned backendAddr, balancer') =>
              let st' := set_balancer st serviceName balancer' in
              if String.eqb backendAddr "" then
                (Returned (Err (StatusError Codes.Unavailable
                                  ("no backends available for service " ++
                                   serviceName))), st')
              else if IsGRPC serviceConfig then
                let '(r, st'') := routeGRPCToGRPC env st' incoming serviceName
                                    methodName req backendAddr serviceConfig in
                (Returned r, st'')
              else
                (Returned (routeGRPCToHTTP env incoming serviceName methodName
                                           req backendAddr), st')
          end
      end
  end.

End Router.

(** ** A small deployment, for the examples *)

Module Fixture.
Import Structpb Config Router.

(** A stand-in for the decoder that knows three documents. *)
Definition json_parse (data : string) : result Value :=
  if String.eqb data "{}" then Ok (VMap ∅)
  else if String.eqb data "null" then Ok VNil
  else if String.eqb data "[]" then Ok (VSlice [])
  else Err (ErrorString "invalid character looking for beginning of value").

Definition json_Marshal (m : gmap string Value) : result string :=
  if decide (size m = 0)%nat then Ok "{}"
  else Err (ErrorString "json: unsupported value").

(** A gRPC backend that refuses two methods with different codes, and an
    HTTP backend that answers two URLs with different failures. *)
Definition Invoke (conn : Pool.ClientConn) (fullMethod : string)
    (req : Message) (md : Metadata.MD) : result Struct :=
  if String.eqb fullMethod "/billing/Charge"
  then Err (StatusError Codes.NotFound "no such account")
  else if String.eqb fullMethod "/billing/Refund"
  then Err (StatusError Codes.PermissionDenied "no such account")
  else Ok ∅.

Definition Do (req : OutRequest) : result InResponse :=
  if String.eqb (OutURL req) "http://legacy:8080/billing/Charge"
  then Ok {| InStatusCode := 404; InHeader := ∅; InBody := Ok "missing" |}
  else Ok {| InStatusCode := 503; InHeader := ∅; InBody := Ok "missing" |}.

Definition env : Env :=
  {| Router.json_parse := json_parse;
     Router.json_Marshal := json_Marshal;
     Router.Invoke := Invoke;
     NewRequest_error := λ _ _, None;
     Router.Do := Do |}.

Definition backend (address : string) : Backend :=
  {| Address := address; Weight := 1; TLS := false; TLSServerName := "";
     TLSSkipVerify := false; HealthCheckPath := ""; MaxConnections := 0 |}.

Definition grpc_route : HTTPRoute :=
  {| Path := "/grpc"; Methods := []; TargetProtocol := "grpc";
     StripPath := false;
     Backends := [backend "b1:50051"; backend "b2:50051"];
     Timeout := "" |}.

Definition cfg : Config :=
  {| GRPCServices := []; HTTPRoutes := [grpc_route] |}.

Definition started : state :=
  {| balancers := NewHTTPHandler_balancers cfg;
     connectionPool := Pool.NewConnectionPool 4194304;
     runtime := {| Pool.dial_error := λ _, None;
                   Pool.dialed := [];
                   Pool.conn_state := ∅ |} |}.

Definition post (path : string) : Http.Request :=
  {| Http.Method := "POST"; Http.Path := path; Http.RawQuery := "";
     Http.ReqHeader := ∅; Http.Body := Ok "{}" |}.

End Fixture.


(** ** internal/config: [Validate] *)

Module Validation.
Import Config.

(** The fields of [Config] that [Validate] reads beside the services and
    the routes. *)
Record Servers : Type := mkServers {
  HTTPPort : Z;
  TLSPort : Z;
  RunTLSServer : bool;
  RunHTTPServer : bool
}.

(** The loop over the backends of the service [name], from index [j]. *)
Fixpoint validate_backends (name : string) (j : nat) (bs : list Backend)
  : option error :=
  match bs with
  | [] => None
  | backend :: bs' =>
      if String.eqb (Address backend) ""
      then Some (ErrorString ("address is required for service " ++ name ++
                              ", backend[" ++ pretty j ++ "]"))
      else validate_backends name (S j) bs'
  end.

(** The loop over the gRPC services, from index [i]. *)
Fixpoint validate_services (i : nat) (svcs : list GRPCService) : option error :=
  match svcs with
  | [] => None
  | svc :: svcs' =>
      if String.eqb (ServiceName svc) ""
      then Some (ErrorString ("service_name is required for grpc_services[" ++
                              pretty i ++ "]"))
      else if decide (length (SvcBackends svc) = 0)%nat
      then Some (ErrorString ("at least one backend is required for service " ++
                              ServiceName svc))
      else match validate_backends (ServiceName svc) 0 (SvcBackends svc) with
           | Some err => Some err
           | None => validate_services (S i) svcs'
           end
  end.

(** The loop over the HTTP routes, from index [i]. *)
Fixpoint validate_routes (i : nat) (routes : list HTTPRoute) : option error :=
  match routes with
  | [] => None
  | route :: routes' =>
      if String.eqb (Path route) ""
      then Some (ErrorString ("path is required for http_routes[" ++
                              pretty i ++ "]"))
      else if decide (length (Backends route) = 0)%nat
      then Some (ErrorString ("at least one backend is required for route " ++
                              Path route))
      else validate_routes (S i) routes'
  end.

(** [Validate]; [None] is the [nil] error. *)
Definition Validate (s : Servers) (c : Config) : option error :=
  if Z.eqb (HTTPPort s) 0 && Z.eqb (TLSPort s) 0
  then Some (ErrorString
               "at least one port (http_port or tls_port) must be specified")
  else if negb (RunHTTPServer s) && negb (RunTLSServer s)
  then Some (ErrorString "at least one server (http or tls) must be enabled")
  else match validate_services 0 (GRPCServices c) with
       | Some err => Some err
       | None => validate_routes 0 (HTTPRoutes c)
       end.

End Validation.

(** ** internal/middleware: [CORS] *)

Module Middleware.

(** [strings.Join]. *)
Fixpoint Join (elems : list string) (sep : string) : string :=
  match elems with
  | [] => ""
  | [e] => e
  | e :: elems' => e ++ sep ++ Join elems' sep
  end.

(** [h.Get(key)]: the first value under the canonical key, or the empty
    string. *)
Definition Get (h : Http.Header) (key : string) : string :=
  match h !! Textproto.CanonicalMIMEHeaderKey key with
  | Some (v :: _) => v
  | _ => ""
  end.

(** The fields of [Config] that [CORS] reads. *)
Record Origins : Type := mkOrigins {
  AllowAllOrigin : bool;
  AllowedOrigins : list string;
  AllowedHeaders : list string
}.

(** An [http.Handler] over a state [S]: from the header map of the writer
    as it stands, the request and the state, what has been written when
    it returns. *)
Definition Handler (S : Type) : Type :=
  Http.Header → Http.Request → S → outcome Http.Response * S.

(** The loop over [cfg.AllowedOrigins], left at the first match. *)
Fixpoint allow_listed (h : Http.Header) (origin : string) (allowed : list string)
  : Http.Header :=
  match allowed with
  | [] => h
  | a :: allowed' =>
      if String.eqb origin a
      then Http.Set_ h "Access-Control-Allow-Origin" origin
      else allow_listed h origin allowed'
  end.

(** The header map when [CORS] has set its headers. *)
Definition cors_headers (cfg : Origins) (h : Http.Header) (r : Http.Request)
  : Http.Header :=
  let origin := Get (Http.ReqHeader r) "Origin" in
  let h1 := if AllowAllOrigin cfg
            then Http.Set_ h "Access-Control-Allow-Origin" "*"
            else if decide (0 < length (AllowedOrigins cfg))%nat
            then allow_listed h origin (AllowedOrigins cfg)
            else h in
  let h2 := Http.Set_ h1 "Access-Control-Allow-Methods"
                      "GET, POST, PUT, DELETE, OPTIONS" in
  let h3 := if decide (0 < length (AllowedHeaders cfg))%nat
            then Http.Set_ h2 "Access-Control-Allow-Headers"
                           (Join (AllowedHeaders cfg) ", ")
            else Http.Set_ h2 "Access-Control-Allow-Headers"
                           "Content-Type, Authorization" in
  Http.Set_ h3 "Access-Control-Max-Age" "3600".

Definition CORS {S} (cfg : Origins) (next : Handler S) : Handler S :=
  λ h r st,
    let h' := cors_headers cfg h r in
    if String.eqb (Http.Method r) "OPTIONS"
    then (Returned {| Http.StatusCode := Http.StatusNoContent;
                      Http.RespHeader := h';
                      Http.RespBody := "" |}, st)
    else next h' r st.

End Middleware.


(** ** Callers that have returned *)

Module Progress.
Import Locked.

Definition finished (t : thread) : bool :=
  match t with
  | NextCall (NDone _) _ => true
  | UpdateCall _ UDone => true
  | _ => false
  end.

(** The result of a caller of [Next] that has returned. *)
Definition result_of (t : thread) : option (outcome string) :=
  match t with
  | NextCall (NDone r) _ => Some r
  | _ => None
  end.

Definition is_next (t : thread) : bool :=
  match t with
  | NextCall _ _ => true
  | UpdateCall _ _ => false
  end.

(** A caller of [Next] with the turn it drew from the counter, once it
    has drawn one: what its program counter holds is determined by the
    turn. *)
Definition turn_ok (bs : list string) (p : thread * option nat) : Prop :=
  match p with
  | (NextCall (NRLock | NLen | NAdd) _, None) => True
  | (NextCall (NSlice index) _, Some n) => index = Z.of_nat n + 1
  | (NextCall (NIndex index s) _, Some n) => index = Z.of_nat n + 1 ∧ s = bs
  | (NextCall (NRUnlock r) _, Some n) | (NextCall (NDone r) _, Some n) =>
      r = index_slice bs (Z.of_nat n mod Balancer.len bs)
  | _ => False
  end.

(** The turns drawn so far are the first [c] ones, [c] being the
    counter. *)
Record turns_inv (bs : list string) (K : nat)
    (gts : list (thread * option nat)) (sh : shared) : Prop := mkTurnsInv {
  turns_backends : Balancer.backends (bal sh) = bs;
  turns_length : length gts = K;
  turns_ok : Forall (turn_ok bs) gts;
  turns_drawn : ∃ c : nat, Balancer.counter (bal sh) = Z.of_nat c
                           ∧ omap snd gts ≡ₚ seq 0 c
}.

End Progress.


(** ** Counting and a second deployment, for the examples *)

Module Shape.
Import Config Router.

(** The number of occurrences of the byte [c] in [s]. *)
Fixpoint count_byte (c : ascii) (s : string) : nat :=
  match s with
  | EmptyString => 0%nat
  | String a s' => ((if Ascii.eqb c a then 1 else 0) + count_byte c s')%nat
  end.

(** The balancers hold, route by route, the addresses of the
    configuration. *)
Definition serves (cfg : Config) (st : state) : Prop :=
  ∀ i route, HTTPRoutes cfg !! i = Some route →
    ∃ b, balancers st !! routeKey i = Some b
         ∧ Balancer.backends b = Address <$> Backends route.

(** The same for the services, name by name. *)
Definition serves_grpc (cfg : Config) (st : state) : Prop :=
  ∀ name, Balancer.backends <$> balancers st !! name
          = Balancer.backends <$> NewGRPCHandler_balancers cfg !! name.

Definition http_route : HTTPRoute :=
  {| Path := "/api"; Methods := ["GET"; "POST"]; TargetProtocol := "http";
     StripPath := false;
     Backends := [Fixture.backend "http://b1:8081"; Fixture.backend "http://b2:8081"];
     Timeout := "" |}.

Definition relay_cfg : Config :=
  {| GRPCServices :=
       [ {| ServiceName := "billing"; IsGRPC := false;
            SvcMaxCallRecvMsgSize := 0; SvcMaxCallSendMsgSize := 0;
            SvcBackends := [Fixture.backend "http://legacy:8080"];
            SvcTimeout := ""; RetryAttempts := 0 |} ];
     HTTPRoutes := [http_route] |}.

Definition relay_started : state :=
  {| balancers := NewHTTPHandler_balancers relay_cfg;
     connectionPool := Pool.NewConnectionPool 4194304;
     runtime := {| Pool.dial_error := λ _, None;
                   Pool.dialed := [];
                   Pool.conn_state := ∅ |} |}.

Definition grpc_started : state :=
  {| balancers := NewGRPCHandler_balancers relay_cfg;
     connectionPool := Pool.NewConnectionPool 4194304;
     runtime := {| Pool.dial_error := λ _, None;
                   Pool.dialed := [];
                   Pool.conn_state := ∅ |} |}.

Definition get (path : string) : Http.Request :=
  {| Http.Method := "GET"; Http.Path := path; Http.RawQuery := "page=2";
     Http.ReqHeader := {[ "Accept" := ["text/html"] ]}; Http.Body := Ok "" |}.

End Shape.


(** * Theorems *)

(** ** The balancer *)

Section BalancerFacts.
Import Balancer.

Lemma uint32_modulus_eq : uint32_modulus = 4294967296.
Proof. reflexivity. Qed.

Lemma int_of_uint32_exact x :
  0 <= x < uint32_modulus → int_of_uint32 x = x.
Proof.
  rewrite uint32_modulus_eq. intros Hx. unfold int_of_uint32.
  rewrite Z.mod_small; lia.
Qed.

Lemma uint32_wrap_range z : 0 <= uint32_wrap z < uint32_modulus.
Proof. unfold uint32_wrap. apply Z.mod_pos_bound. rewrite uint32_modulus_eq. lia. Qed.

(** Incrementing and then stepping back gives the old counter, also
    across the wrap from [2^32 - 1] to [0]. *)
Lemma wrap_pred_succ c :
  0 <= c < uint32_modulus → uint32_wrap (uint32_wrap (c + 1) - 1) = c.
Proof.
  rewrite uint32_modulus_eq. intros Hc. unfold uint32_wrap.
  rewrite uint32_modulus_eq.
  destruct (decide (c + 1 < 4294967296)) as [Hlt|Hge].
  - rewrite (Z.mod_small (c + 1)) by lia. rewrite Z.mod_small; lia.
  - assert (c = 4294967295) as -> by lia. reflexivity.
Qed.

Lemma len_pos {A} (l : list A) : l ≠ [] → 0 < len l.
Proof. destruct l; [done|]. unfold len. simpl. lia. Qed.

Lemma len_nil_iff {A} (l : list A) : len l = 0 ↔ l = [].
Proof. unfold len. destruct l; simpl; split; intros; try done; lia. Qed.

(** An index reduced modulo the length never leaves the slice. *)
Lemma index_slice_mod (bs : list string) (i : Z) :
  bs ≠ [] → 0 <= i →
  ∃ s, bs !! Z.to_nat (i mod len bs) = Some s ∧
       index_slice bs (i mod len bs) = Returned s.
Proof.
  intros Hne Hi. pose proof (len_pos bs Hne) as Hlen.
  pose proof (Z.mod_pos_bound i (len bs) Hlen) as Hb.
  destruct (lookup_lt_is_Some_2 bs (Z.to_nat (i mod len bs))) as [s Hs].
  { unfold len in *. lia. }
  exists s. split; [done|]. unfold index_slice.
  rewrite decide_False by lia. by rewrite Hs.
Qed.

(** What one call does to a balancer with backends. *)
Lemma Next_step (b : RoundRobinBalancer) :
  backends b ≠ [] → wf b →
  Next b = (index_slice (backends b) (counter b mod len (backends b)),
            {| backends := backends b; counter := uint32_wrap (counter b + 1) |}).
Proof.
  intros Hne Hwf. unfold Next, AddUint32. simpl.
  pose proof (len_pos _ Hne) as Hlen.
  rewrite !decide_False by lia.
  rewrite wrap_pred_succ by done.
  rewrite int_of_uint32_exact by done.
  rewrite Z.rem_mod_nonneg by (unfold wf in Hwf; lia). done.
Qed.

Lemma Next_empty (b : RoundRobinBalancer) :
  backends b = [] → Next b = (Returned EmptyString, b).
Proof. intros Hb. unfold Next. rewrite Hb. reflexivity. Qed.

(** [M] calls from counter [c]. *)
Lemma calls_from (bs : list string) (M : nat) (c : Z) :
  bs ≠ [] → 0 <= c < uint32_modulus →
  calls M {| backends := bs; counter := c |} =
  ((λ i : nat, index_slice bs (uint32_wrap (c + Z.of_nat i) mod len bs)) <$> seq 0 M,
   {| backends := bs; counter := uint32_wrap (c + Z.of_nat M) |}).
Proof.
  intros Hne. revert c. induction M as [|M IH]; intros c Hc.
  - change (Z.of_nat 0) with 0. simpl. unfold uint32_wrap.
    rewrite Z.add_0_r, Z.mod_small by done. done.
  - cbn [calls]. rewrite Next_step by done. cbn [backends counter].
    rewrite IH by apply uint32_wrap_range.
    assert (∀ k : nat, uint32_wrap (uint32_wrap (c + 1) + Z.of_nat k)
                       = uint32_wrap (c + Z.of_nat (S k))) as Hshift.
    { intros k. unfold uint32_wrap. rewrite Zplus_mod_idemp_l. f_equal. lia. }
    rewrite Hshift. f_equal.
    cbn [seq fmap list_fmap]. rewrite <- fmap_S_seq, <- list_fmap_compose.
    f_equal.
    + change (Z.of_nat 0) with 0. unfold uint32_wrap.
      rewrite Z.add_0_r, (Z.mod_small c uint32_modulus) by done. done.
    + apply list_fmap_ext. intros _ k _. simpl. by rewrite Hshift.
Qed.

Lemma calls_fresh (bs : list string) (M : nat) :
  bs ≠ [] → (calls M (NewRoundRobinBalancer bs)).1 = wrapped_sequence bs M.
Proof.
  intros Hne. unfold NewRoundRobinBalancer.
  rewrite calls_from by (rewrite ?uint32_modulus_eq; done || lia).
  reflexivity.
Qed.

Lemma wrapped_sequence_lookup (bs : list string) (M i : nat) :
  (i < M)%nat →
  wrapped_sequence bs M !! i =
  Some (index_slice bs ((Z.of_nat i mod uint32_modulus) mod len bs)).
Proof.
  intros Hi. unfold wrapped_sequence.
  rewrite list_lookup_fmap, lookup_seq_lt by done. reflexivity.
Qed.

Lemma round_robin_sequence_lookup (bs : list string) (M i : nat) :
  (i < M)%nat →
  round_robin_sequence bs M !! i = Some (index_slice bs (Z.of_nat i mod len bs)).
Proof.
  intros Hi. unfold round_robin_sequence.
  rewrite list_lookup_fmap, lookup_seq_lt by done. reflexivity.
Qed.

End BalancerFacts.

Section RoundRobin.
Import Balancer.

(** C1 (as the code has it).  From a fresh balancer over [N >= 1]
    backends, every call increments the 32-bit counter and returns
    [backends[(counter-1) mod N]], the subtraction wrapping like the
    counter; so call number [i] returns
    [backends[(i mod 2^32) mod N]], none of the calls panics, and for
    [M <= 2^32] calls the sequence is [backends[i mod N]], [i = 0..M-1]. *)
Theorem round_robin_up_to_wrap (bs : list string) (M : nat) :
  bs ≠ [] →
  (∀ b, backends b = bs → wf b →
        Next b = (index_slice bs (uint32_wrap ((Next b).2.(counter) - 1) mod len bs),
                  {| backends := bs; counter := uint32_wrap (counter b + 1) |}))
  ∧ (calls M (NewRoundRobinBalancer bs)).1 = wrapped_sequence bs M
  ∧ Forall (λ r, ∃ s, r = Returned s ∧ s ∈ bs) (calls M (NewRoundRobinBalancer bs)).1
  ∧ (Z.of_nat M <= uint32_modulus →
     (calls M (NewRoundRobinBalancer bs)).1 = round_robin_sequence bs M).
Proof.
  intros Hne. split; [|split; [|split]].
  - intros b <- Hwf. rewrite Next_step by done. cbn [snd counter].
    by rewrite wrap_pred_succ.
  - by apply calls_fresh.
  - rewrite calls_fresh by done. unfold wrapped_sequence.
    apply Forall_fmap, Forall_forall. intros i _. simpl.
    destruct (index_slice_mod bs (Z.of_nat i mod uint32_modulus) Hne)
      as (s & Hs & ->).
    { apply Z.mod_pos_bound. rewrite uint32_modulus_eq. lia. }
    exists s. split; [done|]. by eapply list_elem_of_lookup_2.
  - intros HM. rewrite calls_fresh by done.
    unfold wrapped_sequence, round_robin_sequence.
    apply list_fmap_ext. intros k i Hi. simpl.
    apply lookup_seq in Hi as [-> Hk].
    rewrite (Z.mod_small (Z.of_nat (0 + k))) by lia. done.
Qed.

Lemma round_robin_up_to_wrap_witness :
  (calls 5 (NewRoundRobinBalancer ["b1"; "b2"])).1 =
  [Returned "b1"; Returned "b2"; Returned "b1"; Returned "b2"; Returned "b1"].
Proof.
  destruct (round_robin_up_to_wrap ["b1"; "b2"] 5) as (_ & _ & _ & H).
  - discriminate.
  - rewrite H.
    + reflexivity.
    + rewrite uint32_modulus_eq. lia.
Defined.

(** C1 as the specification words it fails once the counter has gone
    round: with three backends, call number [2^32] returns the first
    backend again, where [backends[2^32 mod 3]] is the second. *)
Lemma round_robin_breaks_at_wrap :
  (calls (Z.to_nat (2 ^ 32 + 1)) (NewRoundRobinBalancer ["a"; "b"; "c"])).1
  ≠ round_robin_sequence ["a"; "b"; "c"] (Z.to_nat (2 ^ 32 + 1)).
Proof.
  intros Heq.
  apply (f_equal (λ l, l !! Z.to_nat (2 ^ 32))) in Heq.
  rewrite calls_fresh in Heq by discriminate.
  rewrite wrapped_sequence_lookup, round_robin_sequence_lookup in Heq by lia.
  rewrite Z2Nat.id in Heq by lia.
  vm_compute in Heq. discriminate.
Qed.

(** C6.  On an empty backend list [Next] returns the empty string and
    leaves the balancer as it was, whatever the counter; so does every
    call of a series; and under the lock a caller starting with the lock
    free goes through [RLock], the length test and [RUnlock] and is done,
    without any index or division having been evaluated. *)
Theorem Next_on_empty_backends (c : Z) (M : nat) :
  let b := {| backends := []; counter := c |} in
  Next b = (Returned EmptyString, b)
  ∧ calls M b = (replicate M (Returned EmptyString), b)
  ∧ ∀ seen,
      Locked.exec [0; 0; 0]%nat [Locked.NextCall Locked.NRLock seen]
        {| Locked.bal := b;
           Locked.mu := {| Locked.writer := false; Locked.readers := 0 |} |}
      = ([Locked.NextCall (Locked.NDone (Returned EmptyString)) (seen ++ [[]])%list],
         {| Locked.bal := b;
            Locked.mu := {| Locked.writer := false; Locked.readers := 0 |} |}).
Proof.
  intros b. split; [|split].
  - reflexivity.
  - induction M as [|M IH]; [reflexivity|].
    cbn [calls]. change (Next b) with (Returned EmptyString, b).
    cbn beta iota. rewrite IH. reflexivity.
  - intros seen. reflexivity.
Qed.

End RoundRobin.

(** ** The balancer under its lock *)

Section LockedFacts.
Import Balancer Locked.

Lemma count_insert (f : thread → bool) (ts : list thread) (i : nat) (t t' : thread) :
  ts !! i = Some t →
  (count f (<[i := t']> ts) + (if f t then 1 else 0) =
   count f ts + (if f t' then 1 else 0))%nat.
Proof.
  revert i. induction ts as [|a ts IH]; intros [|i] Hi; try done.
  - simpl in Hi. injection Hi as ->.
    change (<[0%nat := t']> (t :: ts)) with (t' :: ts). cbn [count].
    destruct (f t), (f t'); lia.
  - simpl in Hi. specialize (IH _ Hi).
    change (<[S i := t']> (a :: ts)) with (a :: <[i := t']> ts). cbn [count].
    destruct (f a), (f t), (f t'); lia.
Qed.

Lemma count_lookup (f : thread → bool) (ts : list thread) (i : nat) (t : thread) :
  ts !! i = Some t → f t = true → (1 ≤ count f ts)%nat.
Proof.
  revert i. induction ts as [|a ts IH]; intros [|i] Hi Hf; try done.
  - simpl in Hi. injection Hi as ->. cbn [count]. rewrite Hf. lia.
  - simpl in Hi. specialize (IH _ Hi Hf). cbn [count]. lia.
Qed.

Lemma count_zero (f : thread → bool) (ts : list thread) :
  count f ts = 0%nat → Forall (λ t, f t = false) ts.
Proof.
  induction ts as [|a ts IH]; cbn [count]; intros H; [constructor|].
  destruct (f a) eqn:Hfa; [lia|]. constructor; [done|]. apply IH. lia.
Qed.

(** A caller outside the read section is indifferent to the current
    list. *)
Lemma thread_inv_outside allowed cur cur' t :
  reading t = false → thread_inv allowed cur t → thread_inv allowed cur' t.
Proof. destruct t as [[] ?|? ?]; simpl; try done. Qed.

Lemma thread_inv_entry allowed cur t :
  at_entry t → (∀ bs, t = UpdateCall bs ULock → bs ∈ allowed) →
  thread_inv allowed cur t.
Proof.
  destruct t as [[] [|??]|bs []]; simpl; try done. intros _ H. by apply H.
Qed.

Lemma index_slice_rem_ok (s : list string) (index : Z) :
  s ≠ [] →
  index_slice s (Z.rem (int_of_uint32 (uint32_wrap (index - 1))) (len s))
  ≠ Panicked.
Proof.
  intros Hne. pose proof (uint32_wrap_range (index - 1)) as Hr.
  rewrite int_of_uint32_exact by done.
  rewrite Z.rem_mod_nonneg by (pose proof (len_pos s Hne); lia).
  destruct (index_slice_mod s (uint32_wrap (index - 1)) Hne) as (x & _ & ->);
    [lia|done].
Qed.

Lemma step_inv allowed ts sh i t t' sh' :
  inv allowed ts sh → ts !! i = Some t → step t sh = Some (t', sh') →
  inv allowed (<[i := t']> ts) sh'.
Proof.
  intros [Hr Hw Hx Hc Ht] Hi Hstep.
  pose proof (count_insert reading ts i t t' Hi) as Cr.
  pose proof (count_insert writing ts i t t' Hi) as Cw.
  pose proof (proj1 (Forall_lookup _ _) Ht i t Hi) as Hti.
  destruct sh as [b [w r]]. simpl in *.
  destruct t as [l seen|bs l]; [destruct l|destruct l];
    simpl in Hstep, Hti, Cr, Cw.
  - (* RLock *)
    destruct w; [done|]. injection Hstep as <- <-. simpl in *.
    split; simpl; try lia; try done. by apply Forall_insert.
  - (* the length test *)
    subst seen.
    destruct (decide (len (backends b) = 0)) as [H0|H0];
      injection Hstep as <- <-; simpl in *.
    + split; simpl; try lia; try done. apply Forall_insert; [done|].
      simpl. split; [|done]. by repeat constructor.
    + split; simpl; try lia; try done. apply Forall_insert; [done|].
      simpl. split; [by repeat constructor|]. by rewrite <- len_nil_iff.
  - (* the increment *)
    injection Hstep as <- <-. simpl in *.
    split; simpl; try lia; try done. apply Forall_insert; done.
  - (* loading the slice *)
    injection Hstep as <- <-. simpl in *. destruct Hti as [Hs Hne].
    split; simpl; try lia; try done. apply Forall_insert; [done|]. simpl.
    split; [|done]. apply Forall_app. split; [done|]. by repeat constructor.
  - (* the index *)
    injection Hstep as <- <-. simpl in *. destruct Hti as (Hs & -> & Hne).
    split; simpl; try lia; try done. apply Forall_insert; [done|]. simpl.
    split; [apply Forall_app; split; [done|by repeat constructor]|].
    rewrite decide_False by (by rewrite len_nil_iff).
    by apply index_slice_rem_ok.
  - (* RUnlock *)
    injection Hstep as <- <-. simpl in *. destruct Hti as [Hs Hp].
    split; simpl; try lia; try done.
    + intros ->. specialize (Hx eq_refl). lia.
    + apply Forall_insert; [done|]. simpl. split; [|done].
      exists (backends b). done.
  - done.
  - (* Lock *)
    destruct w; [done|]. destruct r; [|done].
    injection Hstep as <- <-. simpl in *.
    split; simpl; try lia; try done. by apply Forall_insert.
  - (* the assignment *)
    injection Hstep as <- <-. simpl in *.
    pose proof (count_lookup writing ts i _ Hi eq_refl) as Hge.
    assert (w = true) as -> by (destruct w; [done|lia]).
    specialize (Hx eq_refl). rewrite Hx in Hr |- *.
    split; simpl; try lia; try done.
    apply Forall_insert; [|done].
    symmetry in Hr. apply count_zero in Hr.
    apply Forall_forall. intros t Hin.
    apply (thread_inv_outside allowed (backends b)).
    + by apply (proj1 (Forall_forall _ _) Hr).
    + by apply (proj1 (Forall_forall _ _) Ht).
  - (* the counter *)
    injection Hstep as <- <-. simpl in *.
    split; simpl; try lia; try done. by apply Forall_insert.
  - (* Unlock *)
    injection Hstep as <- <-. simpl in *.
    split; simpl; try lia; try done.
    + destruct w; lia.
    + by apply Forall_insert.
  - done.
Qed.

Lemma exec_inv allowed schedule ts sh :
  inv allowed ts sh →
  inv allowed (exec schedule ts sh).1 (exec schedule ts sh).2.
Proof.
  revert ts sh. induction schedule as [|i schedule IH]; intros ts sh Hinv;
    [done|].
  cbn [exec]. destruct (ts !! i) as [t|] eqn:Hi; [|by apply IH].
  destruct (step t sh) as [[t' sh']|] eqn:Hstep; [|by apply IH].
  apply IH. by eapply step_inv.
Qed.

Lemma installs_elem ts bs l i :
  ts !! i = Some (UpdateCall bs l) → bs ∈ installs ts.
Proof.
  intros Hi. unfold installs. apply list_elem_of_omap.
  exists (UpdateCall bs l). split; [|done]. by eapply list_elem_of_lookup_2.
Qed.

Lemma count_entry f ts :
  (∀ t, at_entry t → f t = false) → Forall at_entry ts → count f ts = 0%nat.
Proof.
  intros Hf. induction 1 as [|t ts Ht _ IH]; [done|].
  cbn [count]. rewrite (Hf t Ht). done.
Qed.

Lemma inv_initial b ts :
  Forall at_entry ts →
  inv (backends b :: installs ts) ts
      {| bal := b; mu := {| writer := false; readers := 0 |} |}.
Proof.
  intros Hts. split; simpl.
  - symmetry. apply count_entry; [|done]. by intros [[] [|??]|? []].
  - apply count_entry; [|done]. by intros [[] [|??]|? []].
  - done.
  - left.
  - apply Forall_lookup. intros i t Hi.
    apply thread_inv_entry.
    + by eapply (proj1 (Forall_lookup _ _) Hts).
    + intros bs ->. right. by eapply installs_elem.
Qed.

(** A caller of [Next] running with no other caller in between, the lock
    being free, does what [Next] does and leaves the lock free. *)
Lemma next_alone (b : RoundRobinBalancer) :
  ∃ seen,
    exec (replicate 6 0%nat) [NextCall NRLock []]
         {| bal := b; mu := {| writer := false; readers := 0 |} |}
    = ([NextCall (NDone (Next b).1) seen],
       {| bal := (Next b).2; mu := {| writer := false; readers := 0 |} |}).
Proof.
  unfold Next. cbn [replicate exec lookup list_lookup step mu writer bal].
  destruct (decide (len (backends b) = 0)) as [H0|H0].
  - exists [backends b]. cbn. rewrite decide_True by done. reflexivity.
  - exists [backends b; backends b; backends b].
    cbn. rewrite !decide_False by done. cbn. rewrite decide_False by done.
    reflexivity.
Qed.

End LockedFacts.

Section UpdateBackendsFacts.
Import Balancer Locked.

(** C7.  [UpdateBackends] leaves a balancer holding exactly the new list
    and a zero counter, whatever it held; the next [Next] on a non-empty
    new list returns its first element; run alone under the lock it does
    the same in four operations.  Under any schedule of any callers that
    start with the lock free: no caller of [Next] is inside its read
    section while an updater is inside its write section; the list of the
    balancer is at every moment the initial list or a list passed whole to
    [UpdateBackends]; every load of [b.backends] made by one call of
    [Next] saw one and the same such list; and no call of [Next] that
    returned has panicked. *)
Theorem UpdateBackends_swaps_whole_list (b : RoundRobinBalancer) (bs : list string) :
  UpdateBackends b bs = {| backends := bs; counter := 0 |}
  ∧ (∀ s rest, bs = s :: rest →
       Next (UpdateBackends b bs) = (Returned s, {| backends := bs; counter := 1 |}))
  ∧ exec [0; 0; 0; 0]%nat [UpdateCall bs ULock]
         {| bal := b; mu := {| writer := false; readers := 0 |} |}
    = ([UpdateCall bs UDone],
       {| bal := UpdateBackends b bs;
          mu := {| writer := false; readers := 0 |} |})
  ∧ ∀ ts schedule,
      Forall at_entry ts →
      let final := exec schedule ts
                     {| bal := b; mu := {| writer := false; readers := 0 |} |} in
      ((1 ≤ count writing final.1)%nat → count reading final.1 = 0%nat)
      ∧ (backends (bal final.2) = backends b ∨ backends (bal final.2) ∈ installs ts)
      ∧ ∀ i l seen,
          final.1 !! i = Some (NextCall l seen) →
          (∃ L, (L = backends b ∨ L ∈ installs ts) ∧ Forall (eq L) seen)
          ∧ ∀ r, l = NDone r → r ≠ Panicked.
Proof.
  split; [reflexivity|]. split; [|split; [reflexivity|]].
  - intros s rest ->. unfold UpdateBackends. rewrite Next_step; [done|done|].
    unfold wf. simpl. rewrite uint32_modulus_eq. lia.
  - intros ts schedule Hts final.
    pose proof (exec_inv _ schedule _ _ (inv_initial b ts Hts)) as Hinv.
    fold final in Hinv. destruct Hinv as [Hr Hw Hx Hc Hth].
    split; [|split].
    + intros Hge. rewrite <- Hr. apply Hx.
      destruct (writer (mu final.2)); [done|lia].
    + by apply elem_of_cons in Hc.
    + intros i l seen Hi.
      pose proof (proj1 (Forall_lookup _ _) Hth i _ Hi) as Hti.
      assert (∀ L, L ∈ backends b :: installs ts →
                   L = backends b ∨ L ∈ installs ts) as Hsplit.
      { intros L HL. by apply elem_of_cons in HL. }
      destruct l; simpl in Hti.
      * subst seen. split; [|done]. exists (backends b). split; [by left|done].
      * subst seen. split; [|done]. exists (backends b). split; [by left|done].
      * destruct Hti as [Hs _]. split; [|done]. eauto.
      * destruct Hti as [Hs _]. split; [|done]. eauto.
      * destruct Hti as (Hs & _ & _). split; [|done]. eauto.
      * destruct Hti as [Hs _]. split; [|done]. eauto.
      * destruct Hti as [(L & HL & Hs) Hp]. split; [eauto|].
        intros r' [= <-]. done.
Qed.

(** A caller of [Next] overtaken by an update between its [RLock] and its
    return: the updater waits, and the caller's three loads agree. *)
Lemma UpdateBackends_swaps_whole_list_witness :
  let ts := [NextCall NRLock []; UpdateCall ["x"; "y"] ULock] in
  let final := exec [0; 0; 1; 0; 0; 1; 0; 0; 1; 1; 1; 1]%nat ts (fresh ["a"; "b"]) in
  final.1 = [NextCall (NDone (Returned "a")) [["a"; "b"]; ["a"; "b"]; ["a"; "b"]];
             UpdateCall ["x"; "y"] UDone]
  ∧ backends (bal final.2) = ["x"; "y"]
  ∧ ∃ L, (L = ["a"; "b"] ∨ L ∈ [["x"; "y"]])
         ∧ Forall (eq L) [["a"; "b"]; ["a"; "b"]; ["a"; "b"]].
Proof.
  intros ts final.
  destruct (UpdateBackends_swaps_whole_list (NewRoundRobinBalancer ["a"; "b"]) [])
    as (_ & _ & _ & H).
  destruct (H ts [0; 0; 1; 0; 0; 1; 0; 0; 1; 1; 1; 1]%nat) as (_ & _ & Hseen).
  - repeat constructor.
  - split; [reflexivity|]. split; [reflexivity|].
    destruct (Hseen 0%nat (NDone (Returned "a"))
                [["a"; "b"]; ["a"; "b"]; ["a"; "b"]]) as [HL _];
      [reflexivity|].
    exact HL.
Defined.

End UpdateBackendsFacts.

(** ** The connection pool *)

Section PoolFacts.
Import Pool.

Lemma GetState_Close rt c : GetState (Close rt c) c = Connectivity.Shutdown.
Proof. unfold GetState, Close. simpl. by rewrite lookup_insert_eq. Qed.

Lemma createConnection_ok p rt a tls sv :
  dial_error rt a = None →
  ∃ opts, createConnection p rt a tls sv =
          (Ok (length (dialed rt)),
           {| dial_error := dial_error rt;
              dialed := (dialed rt ++ [(a, opts)])%list;
              conn_state := <[length (dialed rt) := Connectivity.Idle]> (conn_state rt) |})
          ∧ TransportCredentials opts =
            (if tls then TLSCredentials sv else InsecureCredentials)
          ∧ KeepaliveTime opts = 10 ∧ KeepaliveTimeout opts = 3
          ∧ PermitWithoutStream opts = true.
Proof.
  intros Hd. unfold createConnection, DialContext. rewrite Hd.
  eexists. split; [reflexivity|]. simpl. done.
Qed.

Lemma createConnection_err p rt a tls sv e :
  dial_error rt a = Some e →
  createConnection p rt a tls sv =
  (Err (Errorf_w ("failed to dial " ++ a ++ ": ") e), rt).
Proof. intros Hd. unfold createConnection, DialContext. by rewrite Hd. Qed.

(** A caller running with no other caller in between does what
    [GetConnection] does: six operations are enough on every path. *)
Lemma caller_alone p rt a tls sv :
  exec (replicate 6 0%nat) [begin a tls sv] p rt =
  let '(r, p', rt') := GetConnection p rt a tls sv in
  ([goto (begin a tls sv) (Finished r)], p', rt').
Proof.
  unfold GetConnection, create_and_store.
  destruct (Load p a) as [c|] eqn:HL.
  - destruct (reusable (GetState rt c)) eqn:Hre.
    + repeat (unfold step, goto, begin; simpl; rewrite ?HL, ?Hre). reflexivity.
    + destruct (createConnection (Delete p a) (Close rt c) a tls sv)
        as [[conn|err] rt'] eqn:Hc;
        repeat (unfold step, goto, begin; simpl; rewrite ?HL, ?Hre, ?Hc);
        reflexivity.
  - destruct (createConnection p rt a tls sv) as [[conn|err] rt'] eqn:Hc;
      repeat (unfold step, goto, begin; simpl; rewrite ?HL, ?Hc);
      reflexivity.
Qed.

End PoolFacts.

Section GetConnectionFacts.
Import Pool.

Lemma create_and_store_cases p rt a tls sv :
  match dial_error rt a with
  | None =>
      ∃ opts,
        create_and_store p rt a tls sv =
        (Ok (length (dialed rt)), Store p a (length (dialed rt)),
         {| dial_error := dial_error rt;
            dialed := (dialed rt ++ [(a, opts)])%list;
            conn_state := <[length (dialed rt) := Connectivity.Idle]> (conn_state rt) |})
  | Some e =>
      create_and_store p rt a tls sv =
      (Err (Errorf_w ("failed to dial " ++ a ++ ": ") e), p, rt)
  end.
Proof.
  unfold create_and_store. destruct (dial_error rt a) as [e|] eqn:Hd.
  - by rewrite (createConnection_err _ _ _ _ _ e Hd).
  - destruct (createConnection_ok p rt a tls sv Hd) as (opts & -> & _).
    by exists opts.
Qed.

Lemma create_and_store_wf p rt a tls sv :
  wf p rt →
  wf (create_and_store p rt a tls sv).1.2 (create_and_store p rt a tls sv).2.
Proof.
  intros Hwf. pose proof (create_and_store_cases p rt a tls sv) as H.
  destruct (dial_error rt a) as [e|].
  - by rewrite H.
  - destruct H as [opts ->]. simpl. intros a' c'. simpl.
    rewrite length_app. simpl.
    destruct (decide (a = a')) as [->|Hne].
    + rewrite lookup_insert_eq. intros [= <-]. lia.
    + rewrite lookup_insert_ne by done. intros Hc. specialize (Hwf _ _ Hc). lia.
Qed.

Lemma wf_Delete_Close p rt a c : wf p rt → wf (Delete p a) (Close rt c).
Proof.
  intros Hwf a' c'. simpl. intros Hl.
  apply lookup_delete_Some in Hl as [_ Hl]. by apply (Hwf a').
Qed.

(** C3.  [GetConnection], case by case.  A cached connection whose state
    is ready, idle or connecting is returned with the pool and the runtime
    untouched, so nothing is dialed.  A cached connection in any other
    state is closed and deleted, and the call goes on to create, store and
    return: the connection it returns is never the stale one, which is
    shut down whatever the dial gives.  With nothing cached the call
    creates, stores and returns.  Creating dials the address once; the new
    connection is stored under the address and returned, or the dial
    error is returned and nothing is stored. *)
Theorem GetConnection_reuses_or_replaces p rt address useTLS skipVerify :
  wf p rt →
  let out := GetConnection p rt address useTLS skipVerify in
  wf out.1.2 out.2
  ∧ (∀ s, reusable s = true ↔
          s = Connectivity.Ready ∨ s = Connectivity.Idle ∨ s = Connectivity.Connecting)
  ∧ match Load p address with
    | Some c =>
        if reusable (GetState rt c) then out = (Ok c, p, rt)
        else
          out = create_and_store (Delete p address) (Close rt c)
                                 address useTLS skipVerify
          ∧ GetState out.2 c = Connectivity.Shutdown
          ∧ out.1.1 ≠ Ok c
          ∧ connections out.1.2 !! address ≠ Some c
    | None => out = create_and_store p rt address useTLS skipVerify
    end
  ∧ (∀ p1 rt1,
       match dial_error rt1 address with
       | None =>
           let c' := length (dialed rt1) in
           ∃ opts,
             create_and_store p1 rt1 address useTLS skipVerify =
             (Ok c',
              {| connections := <[address := c']> (connections p1);
                 maxMsgSize := maxMsgSize p1 |},
              {| dial_error := dial_error rt1;
                 dialed := (dialed rt1 ++ [(address, opts)])%list;
                 conn_state := <[c' := Connectivity.Idle]> (conn_state rt1) |})
       | Some e =>
           create_and_store p1 rt1 address useTLS skipVerify =
           (Err (Errorf_w ("failed to dial " ++ address ++ ": ") e), p1, rt1)
       end).
Proof.
  intros Hwf out. split; [|split; [|split]].
  - subst out. unfold GetConnection.
    destruct (Load p address) as [c|]; [|by apply create_and_store_wf].
    destruct (reusable (GetState rt c)); [done|].
    by apply create_and_store_wf, wf_Delete_Close.
  - intros []; simpl; split; intros H; try discriminate;
      try (destruct H as [H|[H|H]]; discriminate); auto.
  - subst out. unfold GetConnection.
    destruct (Load p address) as [c|] eqn:HL; [|done].
    destruct (reusable (GetState rt c)) eqn:Hre; [done|].
    split; [done|].
    pose proof (Hwf _ _ HL) as Hc.
    pose proof (create_and_store_cases (Delete p address) (Close rt c)
                  address useTLS skipVerify) as H.
    simpl in H. destruct (dial_error rt address) as [e|].
    + rewrite H. simpl. split; [apply GetState_Close|]. split; [done|].
      by rewrite lookup_delete_eq.
    + destruct H as [opts ->]. simpl. split; [|split].
      * unfold GetState. simpl. rewrite lookup_insert_ne by lia.
        by rewrite lookup_insert_eq.
      * intros [= Heq]. lia.
      * rewrite lookup_insert_eq. intros [= Heq]. lia.
  - intros p1 rt1. apply create_and_store_cases.
Qed.

(** A pool caching a connection that reports transient failure: the next
    acquire shuts it down and returns a new one. *)
Lemma GetConnection_reuses_or_replaces_witness :
  let rt := {| dial_error := λ _, None;
               dialed := [("b:1", mkDialOptions 4 4 10 3 true InsecureCredentials)];
               conn_state := {[ 0%nat := Connectivity.TransientFailure ]} |} in
  let p := {| connections := {[ "b:1" := 0%nat ]}; maxMsgSize := 4 |} in
  let out := GetConnection p rt "b:1" false false in
  out.1.1 = Ok 1%nat ∧ GetState out.2 0%nat = Connectivity.Shutdown
  ∧ out.1.1 ≠ Ok 0%nat.
Proof.
  intros rt p out.
  destruct (GetConnection_reuses_or_replaces p rt "b:1" false false)
    as (_ & _ & H & _).
  - intros a c Hl. subst p rt. simpl in *.
    apply lookup_singleton_Some in Hl as [_ <-]. lia.
  - change (Load p "b:1") with (Some 0%nat) in H.
    change (reusable (GetState rt 0%nat)) with false in H.
    destruct H as (_ & Hs & Hn & _).
    split; [reflexivity|]. split; [exact Hs|exact Hn].
Defined.

(** C4 fails on the code.  Two callers asking for the same address of an
    empty pool, taking turns operation by operation: both miss in [Load],
    both dial, both store.  Two connections exist; the pool keeps the
    second; the first is open and nothing will close it.  Run one after
    the other, the same callers dial once. *)
Theorem concurrent_GetConnection_dials_twice :
  let rt := {| dial_error := λ _, None; dialed := []; conn_state := ∅ |} in
  let p := NewConnectionPool 4194304 in
  let ts := [begin "backend:50051" false false; begin "backend:50051" false false] in
  let racy := exec [0; 1; 0; 1; 0; 1]%nat ts p rt in
  let serial := exec [0; 0; 0; 1; 1]%nat ts p rt in
  at_pc <$> racy.1.1 = [Finished (Ok 0%nat); Finished (Ok 1%nat)]
  ∧ length (dialed racy.2) = 2%nat
  ∧ connections racy.1.2 = {[ "backend:50051" := 1%nat ]}
  ∧ leaked racy.1.2 racy.2 = [0%nat]
  ∧ at_pc <$> serial.1.1 = [Finished (Ok 0%nat); Finished (Ok 0%nat)]
  ∧ length (dialed serial.2) = 1%nat
  ∧ leaked serial.1.2 serial.2 = [].
Proof.
  intros rt p ts racy serial.
  repeat split; vm_compute; reflexivity.
Qed.

End GetConnectionFacts.

(** ** Strings *)

Section StringFacts.
Import Strings.

Lemma HasPrefix_app (p rest : string) : HasPrefix (p ++ rest) p = true.
Proof. induction p as [|a p IH]; simpl; [done|]. by rewrite Ascii.eqb_refl. Qed.

Lemma HasPrefix_spec (s p : string) :
  HasPrefix s p = true ↔ ∃ rest, s = p ++ rest.
Proof.
  split.
  - revert s. induction p as [|a p IH]; intros s H; simpl in *.
    + by exists s.
    + destruct s as [|b s]; [done|].
      destruct (Ascii.eqb a b) eqn:Hab; [|done].
      apply Ascii.eqb_eq in Hab as ->.
      destruct (IH _ H) as [rest ->]. by exists rest.
  - intros [rest ->]. apply HasPrefix_app.
Qed.

Lemma strlen_app (a b : string) : strlen (a ++ b) = (strlen a + strlen b)%nat.
Proof. unfold strlen. induction a as [|c a IH]; simpl; [done|]. by rewrite IH. Qed.

Lemma substring_all (s : string) : String.substring 0 (strlen s) s = s.
Proof. unfold strlen. induction s as [|c s IH]; simpl; [done|]. by rewrite IH. Qed.

Lemma substring_app_l (a b : string) : String.substring 0 (strlen a) (a ++ b) = a.
Proof.
  unfold strlen. induction a as [|c a IH]; simpl.
  - by destruct b.
  - by rewrite IH.
Qed.

Lemma substring_app_r (a b : string) :
  String.substring (strlen a) (strlen b) (a ++ b) = b.
Proof.
  induction a as [|c a IH]; simpl; [apply substring_all|]. exact IH.
Qed.

Lemma substring_split (s : string) (k : nat) :
  (k ≤ strlen s)%nat →
  s = String.substring 0 k s ++ String.substring k (strlen s - k) s.
Proof.
  unfold strlen. revert k. induction s as [|c s IH]; intros k Hk; simpl in *.
  - by destruct k.
  - destruct k as [|k]; simpl.
    + pose proof (substring_all s) as Hall. unfold strlen in Hall.
      by rewrite Hall.
    + change (String c s = String c (String.substring 0 k s ++
                                     String.substring k (String.length s - k) s)).
      f_equal. apply IH. lia.
Qed.

Lemma HasSuffix_app (a b : string) : HasSuffix (a ++ b) b = true.
Proof.
  unfold HasSuffix, slice_from. rewrite strlen_app.
  rewrite bool_decide_eq_true_2 by lia. simpl.
  replace (strlen a + strlen b - strlen b)%nat with (strlen a) by lia.
  replace (strlen a + strlen b - strlen a)%nat with (strlen b) by lia.
  rewrite substring_app_r. apply String.eqb_refl.
Qed.

Lemma HasSuffix_inv (s b : string) :
  HasSuffix s b = true → ∃ a, s = a ++ b.
Proof.
  unfold HasSuffix, slice_from. intros H.
  apply andb_prop in H as [Hle Heq]. apply bool_decide_eq_true in Hle.
  apply String.eqb_eq in Heq.
  exists (String.substring 0 (strlen s - strlen b) s).
  rewrite <- Heq at 2. apply substring_split. lia.
Qed.

Lemma TrimSuffix_app (a b : string) : TrimSuffix (a ++ b) b = a.
Proof.
  unfold TrimSuffix, slice_to. rewrite HasSuffix_app, strlen_app.
  replace (strlen a + strlen b - strlen b)%nat with (strlen a) by lia.
  apply substring_app_l.
Qed.

(** [Split] and [Trim] on the paths the handler meets. *)
Example Split_three : Split "grpc/billing/Charge" "/" = ["grpc"; "billing"; "Charge"].
Proof. reflexivity. Qed.

Example Split_empty : Split "" "/" = [""].
Proof. reflexivity. Qed.

Example Split_keeps_empty_pieces : Split "grpc//Charge" "/" = ["grpc"; ""; "Charge"].
Proof. reflexivity. Qed.

Example Split_long_separator : Split "a, b, c" ", " = ["a"; "b"; "c"].
Proof. reflexivity. Qed.

Example Trim_slashes : Trim "//grpc/billing/Charge/" "/" = "grpc/billing/Charge".
Proof. reflexivity. Qed.

Example Trim_only_slashes : Trim "///" "/" = "".
Proof. reflexivity. Qed.

Example TrimSuffix_one_star : TrimSuffix "/api**" "*" = "/api*".
Proof. reflexivity. Qed.

Example Canonical_key :
  Textproto.CanonicalMIMEHeaderKey "x-request-ID" = "X-Request-Id".
Proof. reflexivity. Qed.

Example Canonical_key_with_space :
  Textproto.CanonicalMIMEHeaderKey "x request" = "x request".
Proof. reflexivity. Qed.

End StringFacts.

(** ** Route matching *)

Section RouteFacts.
Import Config Router.

Lemma method_in_spec (method : string) (ms : list string) :
  method_in method ms = true ↔ method ∈ ms.
Proof.
  induction ms as [|m ms IH]; simpl.
  - split; [done|]. by intros ?%elem_of_nil.
  - destruct (String.eqb m method) eqn:Hm.
    + apply String.eqb_eq in Hm as ->. split; [|done]. intros _. left.
    + apply String.eqb_neq in Hm. rewrite IH. split.
      * intros H. by right.
      * intros [?|H]%elem_of_cons; [congruence|done].
Qed.

Lemma findRoute_from_spec (i : nat) (routes : list HTTPRoute) (path method : string) :
  match findRoute_from i routes path method with
  | Some (route, key) =>
      ∃ k, routes !! k = Some route ∧ key = routeKey (i + k)
           ∧ route_matches path method route = true
           ∧ ∀ j r, (j < k)%nat → routes !! j = Some r →
                    route_matches path method r = false
  | None => ∀ r, r ∈ routes → route_matches path method r = false
  end.
Proof.
  revert i. induction routes as [|route routes IH]; intros i; simpl.
  - by intros r ?%elem_of_nil.
  - destruct (route_matches path method route) eqn:Hm.
    + exists 0%nat. rewrite Nat.add_0_r. repeat split; try done. lia.
    + specialize (IH (S i)).
      destruct (findRoute_from (S i) routes path method) as [[r key]|].
      * destruct IH as (k & Hk & -> & Hr & Hbefore).
        exists (S k). split; [done|]. split; [f_equal; lia|]. split; [done|].
        intros [|j] r' Hj Hl; simpl in Hl; [congruence|].
        eapply Hbefore; [|done]. lia.
      * intros r [->|Hr]%elem_of_cons; [done|by apply IH].
Qed.

(** C5.  A pattern ending in a star matches the paths that begin with the
    pattern less its star, any other pattern the paths that begin with the
    pattern; a route matches when its pattern does and its method list is
    empty or holds the method; [findRoute] returns the first route, in
    the order of the configuration, that matches, under the key of its
    position, and none when no route matches.  With the patterns
    [/api*] and [/api/special] in that order, [/api/special] goes to
    [/api*]. *)
Theorem findRoute_first_match_wins (cfg : Config) (path method : string) :
  (∀ p, pathMatches path (p ++ "*") = true ↔ ∃ rest, path = p ++ rest)
  ∧ (∀ pattern, (∀ p, pattern ≠ p ++ "*") →
       pathMatches path pattern = true ↔ ∃ rest, path = pattern ++ rest)
  ∧ (∀ route, route_matches path method route = true ↔
       pathMatches path (Path route) = true
       ∧ (Methods route = [] ∨ method ∈ Methods route))
  ∧ match findRoute cfg path method with
    | Some (route, key) =>
        ∃ i, HTTPRoutes cfg !! i = Some route ∧ key = routeKey i
             ∧ route_matches path method route = true
             ∧ ∀ j r, (j < i)%nat → HTTPRoutes cfg !! j = Some r →
                      route_matches path method r = false
    | None => ∀ r, r ∈ HTTPRoutes cfg → route_matches path method r = false
    end
  ∧ (∀ services first second,
       Path first = "/api*" → Methods first = [] →
       Path second = "/api/special" →
       findRoute {| GRPCServices := services; HTTPRoutes := [first; second] |}
                 "/api/special" method
       = Some (first, "route_0")).
Proof.
  split; [|split; [|split; [|split]]].
  - intros p. unfold pathMatches.
    rewrite HasSuffix_app, TrimSuffix_app. apply HasPrefix_spec.
  - intros pattern Hstar. unfold pathMatches.
    destruct (Strings.HasSuffix pattern "*") eqn:Hs.
    + apply HasSuffix_inv in Hs as [p ->]. by destruct (Hstar p).
    + apply HasPrefix_spec.
  - intros route. unfold route_matches.
    destruct (pathMatches path (Path route)); simpl;
      [|split; [discriminate|by intros [? _]]].
    destruct (Methods route) as [|m ms] eqn:Hms; simpl.
    + split; [by auto|done].
    + change (if String.eqb m method then true else method_in method ms)
        with (method_in method (m :: ms)).
      rewrite method_in_spec. split; [by auto|].
      intros [_ [?|?]]; [discriminate|done].
  - apply (findRoute_from_spec 0).
  - intros services first second Hp Hm _. unfold findRoute. simpl.
    unfold route_matches. rewrite Hp, Hm. reflexivity.
Qed.

End RouteFacts.

(** ** The HTTP handler on gRPC routes *)

Section HTTPToGRPCFacts.
Import Config Router.

Lemma routeHTTPToGRPC_short env st r route backendAddr :
  (length (Strings.Split (Strings.Trim (Http.Path r) "/") "/") < 3)%nat →
  routeHTTPToGRPC env st r route backendAddr = (Returned invalid_path_response, st).
Proof. intros H. unfold routeHTTPToGRPC. by rewrite decide_True. Qed.

Lemma routeHTTPToGRPC_long env st r route backendAddr :
  (3 ≤ length (Strings.Split (Strings.Trim (Http.Path r) "/") "/"))%nat →
  ∃ first serviceName methodName further,
    Strings.Split (Strings.Trim (Http.Path r) "/") "/"
    = first :: serviceName :: methodName :: further
    ∧ routeHTTPToGRPC env st r route backendAddr
      = let '(resp, st') := converted env st r serviceName methodName backendAddr in
        (Returned resp, st').
Proof.
  intros H. unfold routeHTTPToGRPC.
  destruct (Strings.Split (Strings.Trim (Http.Path r) "/") "/")
    as [|first [|serviceName [|methodName further]]] eqn:Hparts;
    simpl in H; try lia.
  exists first, serviceName, methodName, further. split; [done|].
  rewrite decide_False by (simpl; lia).
  change (index_slice (first :: serviceName :: methodName :: further) 1)
    with (Returned serviceName).
  change (index_slice (first :: serviceName :: methodName :: further) 2)
    with (Returned methodName).
  reflexivity.
Qed.

(** C10 (as the code has it).  On a request matched to a gRPC route,
    [ServeHTTP] first takes a backend from the balancer of the route; then,
    when the path trimmed of slashes splits into fewer than three
    segments, it answers 400 with the invalid-path message, leaving the
    pool and the runtime as they were (no connection, no translation) and
    the balancer one call further; otherwise it does not panic, and
    converts with the second segment as service and the third as method,
    whatever follows them. *)
Theorem gRPC_route_path_is_checked_after_selection
    (env : Env) (cfg : Config) (st : state) (r : Http.Request)
    (route : HTTPRoute) (key backendAddr : string)
    (b b' : Balancer.RoundRobinBalancer) :
  findRoute cfg (Http.Path r) (Http.Method r) = Some (route, key) →
  TargetProtocol route = "grpc" →
  balancers st !! key = Some b →
  Balancer.Next b = (Returned backendAddr, b') →
  backendAddr ≠ "" →
  let pathParts := Strings.Split (Strings.Trim (Http.Path r) "/") "/" in
  let selected := set_balancer st key b' in
  ((length pathParts < 3)%nat →
     ServeHTTP env cfg st r = (Returned invalid_path_response, selected)
     ∧ connectionPool selected = connectionPool st
     ∧ runtime selected = runtime st)
  ∧ ((3 ≤ length pathParts)%nat →
     ∃ first serviceName methodName further,
       pathParts = first :: serviceName :: methodName :: further
       ∧ ServeHTTP env cfg st r
         = let '(resp, st') := converted env selected r serviceName methodName
                                         backendAddr in
           (Returned resp, st')).
Proof.
  intros Hroute Hproto Hbal Hnext Haddr pathParts selected.
  assert (ServeHTTP env cfg st r = routeHTTPToGRPC env selected r route backendAddr)
    as Hserve.
  { unfold ServeHTTP. rewrite Hroute, Hbal, Hnext.
    apply String.eqb_neq in Haddr. rewrite Haddr.
    rewrite Hproto. reflexivity. }
  split.
  - intros Hshort. rewrite Hserve.
    by rewrite routeHTTPToGRPC_short.
  - intros Hlong. rewrite Hserve.
    by apply routeHTTPToGRPC_long.
Qed.

End HTTPToGRPCFacts.

(** ** Header names *)

Section HeaderNameFacts.
Import Strings Textproto.

Lemma upper_lower_byte c : upper_byte (lower_byte c) = upper_byte c.
Proof. destruct c as [[] [] [] [] [] [] [] []]; reflexivity. Qed.

Lemma lower_lower_byte c : lower_byte (lower_byte c) = lower_byte c.
Proof. destruct c as [[] [] [] [] [] [] [] []]; reflexivity. Qed.

Lemma valid_lower_byte c :
  validHeaderFieldByte c = true → validHeaderFieldByte (lower_byte c) = true.
Proof. destruct c as [[] [] [] [] [] [] [] []]; vm_compute; done. Qed.

Lemma canonicalize_ToLower (upper : bool) (s : string) :
  canonicalize upper (ToLower s) = canonicalize upper s.
Proof.
  revert upper. induction s as [|c s IH]; intros upper; simpl; [done|].
  destruct upper; rewrite ?upper_lower_byte, ?lower_lower_byte, IH; done.
Qed.

Lemma all_bytes_ToLower (s : string) :
  all_bytes validHeaderFieldByte s = true →
  all_bytes validHeaderFieldByte (ToLower s) = true.
Proof.
  induction s as [|c s IH]; simpl; [done|].
  intros [Hc Hs]%andb_prop. by rewrite valid_lower_byte, IH.
Qed.

(** A canonical name survives lower-casing and re-canonicalising. *)
Lemma Canonical_ToLower (s : string) :
  canonical_name s → CanonicalMIMEHeaderKey (ToLower s) = s.
Proof.
  intros [Hv Hc]. unfold CanonicalMIMEHeaderKey.
  by rewrite all_bytes_ToLower, canonicalize_ToLower.
Qed.


Lemma ToLower_inj_canonical (s1 s2 : string) :
  canonical_name s1 → canonical_name s2 → ToLower s1 = ToLower s2 → s1 = s2.
Proof.
  intros H1 H2 Heq. rewrite <- (Canonical_ToLower s1), <- (Canonical_ToLower s2);
    [by rewrite Heq|done|done].
Qed.

End HeaderNameFacts.

(** ** Headers and metadata *)

Section HeaderLoopFacts.
Import Http.

Lemma extended_assoc old (v1 v2 : list string) :
  extended (extended old v1) v2 = extended old (v1 ++ v2).
Proof.
  destruct v1 as [|a v1], v2 as [|b v2]; simpl; try done.
  - by rewrite app_nil_r.
  - by rewrite <- app_assoc.
Qed.

Lemma gathered_cons norm k key values entries :
  gathered norm k ((key, values) :: entries) =
  ((if decide (norm key = k) then values else []) ++ gathered norm k entries)%list.
Proof. reflexivity. Qed.

(** What [md.Append] does to each key. *)
Lemma Append_lookup (md : Metadata.MD) key values k :
  Metadata.Append md key values !! k =
  if decide (Strings.ToLower key = k) then extended (md !! k) values else md !! k.
Proof.
  unfold Metadata.Append. destruct values as [|v values].
  - by destruct (decide _).
  - destruct (decide (Strings.ToLower key = k)) as [<-|Hne].
    + by rewrite lookup_insert_eq.
    + by rewrite lookup_insert_ne.
Qed.

(** What the loop over a header map leaves under each metadata key. *)
Lemma AppendAll_lookup entries (md : Metadata.MD) k :
  Metadata.AppendAll entries md !! k =
  extended (md !! k) (gathered Strings.ToLower k entries).
Proof.
  revert md. induction entries as [|[key values] entries IH]; intros md.
  - done.
  - unfold Metadata.AppendAll in *. cbn [foldl]. rewrite IH, Append_lookup.
    rewrite gathered_cons. destruct (decide _).
    + apply extended_assoc.
    + done.
Qed.

Lemma Add_lookup (h : Header) key value k :
  Add h key value !! k =
  if decide (Textproto.CanonicalMIMEHeaderKey key = k)
  then extended (h !! k) [value] else h !! k.
Proof.
  unfold Add. destruct (decide _) as [<-|Hne].
  - by rewrite lookup_insert_eq.
  - by rewrite lookup_insert_ne.
Qed.

Lemma Add_values_lookup (h : Header) key values k :
  foldl (λ h' value, Add h' key value) h values !! k =
  if decide (Textproto.CanonicalMIMEHeaderKey key = k)
  then extended (h !! k) values else h !! k.
Proof.
  revert h. induction values as [|v values IH]; intros h.
  - by destruct (decide _).
  - cbn [foldl]. rewrite IH, Add_lookup. destruct (decide _); [|done].
    apply (extended_assoc _ [v] values).
Qed.

Lemma AddAll_lookup entries (h : Header) k :
  AddAll entries h !! k =
  extended (h !! k) (gathered Textproto.CanonicalMIMEHeaderKey k entries).
Proof.
  revert h. induction entries as [|[key values] entries IH]; intros h.
  - done.
  - unfold AddAll in *. cbn [foldl]. rewrite IH, Add_values_lookup.
    rewrite gathered_cons. destruct (decide _).
    + apply extended_assoc.
    + done.
Qed.

(** With keys that stay distinct once normalised, a key gathers the
    values of its own entry and nothing else. *)
Lemma gathered_unique norm entries key values :
  NoDup (norm <$> entries.*1) → (key, values) ∈ entries →
  gathered norm (norm key) entries = values.
Proof.
  induction entries as [|[key' values'] entries IH]; intros Hnd Hin.
  - by apply elem_of_nil in Hin.
  - rewrite gathered_cons. simpl in Hnd. apply NoDup_cons in Hnd as [Hnotin Hnd].
    apply elem_of_cons in Hin as [[= <- <-]|Hin].
    + rewrite decide_True by done.
      assert (gathered norm (norm key) entries = []) as ->; [|by rewrite app_nil_r].
      clear IH Hnd. induction entries as [|[k2 v2] entries IH]; [done|].
      rewrite gathered_cons. simpl in Hnotin.
      apply not_elem_of_cons in Hnotin as [Hne Hnotin].
      rewrite decide_False by done. by apply IH.
    + rewrite decide_False; [by apply IH|].
      intros Heq. apply Hnotin. rewrite Heq.
      apply list_elem_of_fmap. exists key. split; [done|].
      apply list_elem_of_fmap. by exists (key, values).
Qed.

Lemma gathered_none norm entries k :
  (∀ key values, (key, values) ∈ entries → norm key ≠ k) →
  gathered norm k entries = [].
Proof.
  induction entries as [|[key values] entries IH]; intros H; [done|].
  rewrite gathered_cons, decide_False, IH; [done| |].
  - intros key' values' Hin. apply (H key' values'). by right.
  - apply (H key values). by left.
Qed.

Lemma gathered_elem norm entries k v :
  v ∈ gathered norm k entries →
  ∃ key values, (key, values) ∈ entries ∧ norm key = k ∧ v ∈ values.
Proof.
  induction entries as [|[key values] entries IH]; intros H.
  - by apply elem_of_nil in H.
  - rewrite gathered_cons in H. apply elem_of_app in H as [H|H].
    + destruct (decide _) as [Heq|]; [|by apply elem_of_nil in H].
      exists key, values. split; [by left|done].
    + destruct (IH H) as (key' & values' & Hin & Heq & Hv).
      exists key', values'. split; [by right|done].
Qed.

End HeaderLoopFacts.

(** ** Documents and structs *)

Section StructFacts.
Import Structpb.

Lemma Value_size_lookup (m : gmap string Value) k v :
  m !! k = Some v →
  (Value_size v ≤ map_fold (λ _ v n, Value_size v + n)%nat 0%nat m)%nat.
Proof.
  revert k v.
  induction m as [|k' v' m Hk' Hfold IH] using map_first_key_ind; intros k v Hl.
  - by rewrite lookup_empty in Hl.
  - rewrite map_fold_insert_first_key by done.
    destruct (decide (k = k')) as [->|Hne].
    + rewrite lookup_insert_eq in Hl. injection Hl as ->. lia.
    + rewrite lookup_insert_ne in Hl by done. specialize (IH _ _ Hl). lia.
Qed.

Lemma Value_size_elem (l : list Value) v :
  v ∈ l → (Value_size v ≤ foldr (λ v n, Value_size v + n)%nat 0%nat l)%nat.
Proof. induction 1 as [|???? IH]; simpl; lia. Qed.

(** Induction on documents, through slices and maps. *)
Lemma Value_nested_ind (P : Value → Prop) :
  P VNil → (∀ b, P (VBool b)) → (∀ f, P (VFloat64 f)) → (∀ s, P (VString s)) →
  (∀ l, Forall P l → P (VSlice l)) →
  (∀ m, map_Forall (λ _, P) m → P (VMap m)) →
  ∀ v, P v.
Proof.
  intros Hnil Hb Hf Hs Hl Hm v.
  remember (Value_size v) as n eqn:Hn. revert v Hn.
  induction (lt_wf n) as [n _ IH]. intros v ->.
  destruct v as [| | | |l|m]; try done.
  - apply Hl. apply Forall_forall. intros v Hv.
    apply (IH (Value_size v)); [|done].
    pose proof (Value_size_elem l v Hv). simpl. lia.
  - apply Hm. intros k v Hv.
    apply (IH (Value_size v)); [|done].
    pose proof (Value_size_lookup m k v Hv). simpl. lia.
Qed.

Lemma utf8_clean_map (m : gmap string Value) :
  map_fold (λ _ v acc, utf8_clean v && acc) true m = true →
  map_Forall (λ _ v, utf8_clean v = true) m.
Proof.
  induction m as [|k v m Hk Hfold IH] using map_first_key_ind; intros H.
  - apply map_Forall_empty.
  - rewrite map_fold_insert_first_key in H by done.
    apply andb_prop in H as [Hv Hm]. apply map_Forall_insert; auto.
Qed.

Lemma all_some_fmap {A B} (f : A → option B) (g : B → A) (m : gmap string A) :
  map_Forall (λ _ a, ∃ b, f a = Some b ∧ g b = a) m →
  ∃ m', all_some (f <$> m) = Some m' ∧ g <$> m' = m.
Proof.
  intros H. unfold all_some. rewrite decide_True.
  - eexists. split; [done|]. apply map_eq. intros k.
    rewrite lookup_fmap, lookup_omap, lookup_fmap.
    destruct (m !! k) as [a|] eqn:Hk; simpl; [|done].
    destruct (H k a Hk) as (b & -> & <-). done.
  - intros k o. rewrite lookup_fmap. intros Ho.
    destruct (m !! k) as [a|] eqn:Hk; simpl in Ho; [|done].
    destruct (H k a Hk) as (b & Hb & _). injection Ho as <-. by rewrite Hb.
Qed.

Lemma mapM_fmap {A B} (f : A → option B) (g : B → A) (l : list A) :
  Forall (λ a, ∃ b, f a = Some b ∧ g b = a) l →
  ∃ l', mapM f l = Some l' ∧ g <$> l' = l.
Proof.
  induction 1 as [|a l (b & Hb & Hg) _ (l' & Hl' & Hgl)].
  - by exists [].
  - exists (b :: l'). simpl. rewrite Hb, Hl'. simpl. split; [done|].
    change (list_fmap B A g l') with (g <$> l'). by rewrite Hg, Hgl.
Qed.

(** A well-formed document goes into a [structpb.Value] and comes back
    the same. *)
Lemma NewValue_AsInterface (v : Value) :
  utf8_clean v = true → ∃ x, NewValue v = Some x ∧ AsInterface x = v.
Proof.
  induction v as [| | |s|l IH|m IH] using Value_nested_ind; intros Hc.
  - by exists NullValue.
  - by eexists (BoolValue _).
  - by eexists (NumberValue _).
  - exists (StringValue s). simpl in *. by rewrite Hc.
  - simpl in Hc. destruct (mapM_fmap NewValue AsInterface l) as (l' & Hl' & Hg).
    { apply Forall_forall. intros v Hv.
      apply (proj1 (Forall_forall _ _) IH v Hv).
      apply (proj1 (forallb_forall _ _) Hc). by apply list_elem_of_In. }
    exists (ListValue l'). cbn [NewValue AsInterface]. rewrite Hl'. simpl.
    by rewrite Hg.
  - cbn [utf8_clean] in Hc. apply andb_prop in Hc as [Hkeys Hvals].
    apply bool_decide_eq_true in Hkeys. apply utf8_clean_map in Hvals.
    destruct (all_some_fmap NewValue AsInterface m) as (m' & Hm' & Hg).
    { intros k v Hk. apply (IH k v Hk). by apply (Hvals k v). }
    exists (StructValue m'). cbn [NewValue AsInterface].
    rewrite decide_True by done. rewrite Hm'. simpl. by rewrite Hg.
Qed.

Lemma NewStruct_AsMap (m : gmap string Value) :
  utf8_clean (VMap m) = true → ∃ x, NewStruct m = Ok x ∧ AsMap x = m.
Proof.
  intros Hc. cbn [utf8_clean] in Hc. apply andb_prop in Hc as [Hkeys Hvals].
  apply bool_decide_eq_true in Hkeys. apply utf8_clean_map in Hvals.
  destruct (all_some_fmap NewValue AsInterface m) as (m' & Hm' & Hg).
  { intros k v Hk. apply NewValue_AsInterface. by apply (Hvals k v). }
  exists m'. unfold NewStruct, AsMap. rewrite decide_True by done.
  by rewrite Hm'.
Qed.

Lemma NewStruct_empty : NewStruct ∅ = Ok ∅.
Proof. reflexivity. Qed.

End StructFacts.

Section InvalidPathExamples.
Import Config Router Fixture.

Lemma gRPC_route_path_is_checked_after_selection_witness :
  ServeHTTP env cfg started (post "/grpc/billing")
  = (Returned invalid_path_response,
     set_balancer started "route_0"
       {| Balancer.backends := ["b1:50051"; "b2:50051"]; Balancer.counter := 1 |}).
Proof.
  destruct (gRPC_route_path_is_checked_after_selection
              env cfg started (post "/grpc/billing") grpc_route "route_0"
              "b1:50051"
              {| Balancer.backends := ["b1:50051"; "b2:50051"];
                 Balancer.counter := 0 |}
              {| Balancer.backends := ["b1:50051"; "b2:50051"];
                 Balancer.counter := 1 |}) as [Hshort _].
  - reflexivity.
  - reflexivity.
  - reflexivity.
  - reflexivity.
  - discriminate.
  - destruct Hshort as [H _]; [vm_compute; lia|exact H].
Defined.

(** C10 as worded fails: a request with too short a path is answered 400
    only after a backend has been selected.  The balancer of the route
    has moved from 0 to 1, so the next request is served by the second
    backend where, had nothing been selected, it would have been the
    first. *)
Lemma invalid_path_consumes_a_backend :
  let st' := (ServeHTTP env cfg started (post "/grpc/billing")).2 in
  (ServeHTTP env cfg started (post "/grpc/billing")).1
    = Returned invalid_path_response
  ∧ Balancer.counter <$> balancers started !! "route_0" = Some 0
  ∧ Balancer.counter <$> balancers st' !! "route_0" = Some 1
  ∧ (fst ∘ Balancer.Next) <$> balancers started !! "route_0"
    = Some (Returned "b1:50051")
  ∧ (fst ∘ Balancer.Next) <$> balancers st' !! "route_0"
    = Some (Returned "b2:50051")
  ∧ st' ≠ started.
Proof.
  intros st'. repeat split; try (vm_compute; reflexivity).
  intros Heq.
  assert (Balancer.counter <$> balancers st' !! "route_0" = Some 1) as H1
    by (vm_compute; reflexivity).
  rewrite Heq in H1. vm_compute in H1. discriminate.
Qed.

End InvalidPathExamples.

(** ** The bridge *)

Section BridgeFacts.
Import Structpb Router Http.

Lemma gathered_only norm entries key values :
  NoDup entries.*1 → (key, values) ∈ entries →
  (∀ key' values', (key', values') ∈ entries → norm key' = norm key → key' = key) →
  gathered norm (norm key) entries = values.
Proof.
  induction entries as [|[key' values'] entries IH]; intros Hnd Hin Hone.
  - by apply elem_of_nil in Hin.
  - rewrite gathered_cons. simpl in Hnd. apply NoDup_cons in Hnd as [Hnotin Hnd].
    assert (∀ k v, (k, v) ∈ entries → k ∈ entries.*1) as Hfst.
    { intros k v Hkv. apply list_elem_of_fmap. by exists (k, v). }
    apply elem_of_cons in Hin as [[= <- <-]|Hin].
    + rewrite decide_True by done.
      rewrite gathered_none; [by rewrite app_nil_r|].
      intros k v Hkv Heq. apply Hnotin.
      rewrite <- (Hone k v); [by eapply Hfst|by right|done].
    + rewrite decide_False.
      * apply IH; [done|done|]. intros k v Hkv. apply (Hone k v). by right.
      * intros Heq. apply Hnotin.
        rewrite (Hone key' values'); [by eapply Hfst|by left|done].
Qed.

Lemma extended_None_Some (g values : list string) :
  extended None g = Some values → g = values ∧ values ≠ [].
Proof. destruct g; simpl; [done|]. intros [= <-]. done. Qed.

Lemma entries_of_map (h : Http.Header) entries :
  entries ≡ₚ map_to_list h →
  NoDup entries.*1 ∧ ∀ k v, (k, v) ∈ entries ↔ h !! k = Some v.
Proof.
  intros Hp. split.
  - rewrite Hp. apply NoDup_fst_map_to_list.
  - intros k v. rewrite Hp. apply elem_of_map_to_list.
Qed.

(** C9.  An empty body gives the empty struct without the decoder being
    consulted.  A non-empty body that the decoder rejects makes the
    translation fail with the decoder's error wrapped as "failed to
    unmarshal request", before any connection is asked for.  Whatever the
    order in which the header map is visited, each metadata key holds, in
    order, the values of the headers whose name lower-cases to it, and
    only such keys exist; so a header with values, alone in the map
    with its name up to case, becomes one entry holding its values in
    their order. *)
Theorem textual_to_structured (env : Env) (h : Http.Header)
    (entries : list (string * list string)) :
  entries ≡ₚ map_to_list h →
  request_struct env "" = Ok ∅
  ∧ (∀ bodyBytes err,
       bodyBytes ≠ "" → json_parse env bodyBytes = Err err →
       request_struct env bodyBytes
       = Err (Errorf_w "failed to unmarshal request: " err)
       ∧ ∀ p rt serviceName methodName r backendAddr,
           Http.Body r = Ok bodyBytes →
           HTTPToGRPC env p rt serviceName methodName r backendAddr
           = (Err (Errorf_w "failed to unmarshal request: " err), p, rt))
  ∧ (∀ k, outgoing_metadata entries !! k
          = Http.extended None (Http.gathered Strings.ToLower k entries))
  ∧ (∀ name values,
       h !! name = Some values → values ≠ [] →
       (∀ other, is_Some (h !! other) →
                 Strings.ToLower other = Strings.ToLower name → other = name) →
       outgoing_metadata entries !! Strings.ToLower name = Some values)
  ∧ (∀ k values,
       outgoing_metadata entries !! k = Some values →
       ∃ name, is_Some (h !! name) ∧ Strings.ToLower name = k).
Proof.
  intros Hp. destruct (entries_of_map h entries Hp) as [Hnd Hin].
  assert (∀ k, outgoing_metadata entries !! k
               = Http.extended None (Http.gathered Strings.ToLower k entries))
    as Hlookup.
  { intros k. unfold outgoing_metadata. by rewrite AppendAll_lookup, lookup_empty. }
  split; [reflexivity|]. split; [|split; [done|split]].
  - intros bodyBytes err Hne Herr.
    assert (request_struct env bodyBytes
            = Err (Errorf_w "failed to unmarshal request: " err)) as Hrs.
    { unfold request_struct, Unmarshal_map. rewrite decide_True.
      - by rewrite Herr.
      - destruct bodyBytes; [done|simpl; lia]. }
    split; [done|]. intros p rt serviceName methodName r backendAddr Hbody.
    unfold HTTPToGRPC. by rewrite Hbody, Hrs.
  - intros name values Hname Hvals Hone. rewrite Hlookup.
    rewrite (gathered_only _ entries name values); [by destruct values| | |].
    + done.
    + by apply Hin.
    + intros key' values' Hk. apply Hone. exists values'. by apply Hin.
  - intros k values Hk. rewrite Hlookup in Hk.
    apply extended_None_Some in Hk as [Hg Hne].
    destruct values as [|v values]; [done|].
    destruct (gathered_elem Strings.ToLower entries k v) as (key & vals & Hkv & Hkey & _).
    { rewrite Hg. left. }
    exists key. split; [|done]. exists vals. by apply Hin.
Qed.

Lemma textual_to_structured_witness :
  outgoing_metadata (map_to_list ({[ "Accept" := ["text/html"; "application/json"] ]}
                                    : Http.Header))
    !! "accept" = Some ["text/html"; "application/json"].
Proof.
  destruct (textual_to_structured Fixture.env
              {[ "Accept" := ["text/html"; "application/json"] ]}
              (map_to_list ({[ "Accept" := ["text/html"; "application/json"] ]}
                              : Http.Header)))
    as (_ & _ & _ & H & _); [done|].
  apply (H "Accept").
  - apply lookup_singleton_eq.
  - discriminate.
  - intros other [v Hv]. by apply lookup_singleton_Some in Hv as [<- _].
Defined.

End BridgeFacts.

Section RoundTrip.
Import Structpb Router Http.

(** The header half of the round trip: through lower-case metadata keys
    and back, a header map with canonical names and no empty entry comes
    back as it was, but for the content type set last. *)
Lemma headers_round_trip (h : Header) entries1 entries2 :
  (∀ name values, h !! name = Some values →
                  Textproto.canonical_name name ∧ values ≠ []) →
  entries1 ≡ₚ map_to_list h →
  entries2 ≡ₚ map_to_list (outgoing_metadata entries1) →
  request_headers (Some entries2)
  = <["Content-Type" := ["application/json"]]> h.
Proof.
  intros Hh Hp1 Hp2.
  destruct (entries_of_map h entries1 Hp1) as [Hnd1 Hin1].
  destruct (entries_of_map _ entries2 Hp2) as [Hnd2 Hin2].
  set (md := outgoing_metadata entries1) in *.
  assert (∀ k, md !! k = extended None (gathered Strings.ToLower k entries1))
    as Hmd.
  { intros k. unfold md, outgoing_metadata.
    by rewrite AppendAll_lookup, lookup_empty. }
  assert (NoDup (Strings.ToLower <$> entries1.*1)) as Hlow.
  { apply NoDup_fmap_2_strong; [|done].
    intros k1 k2 Hk1 Hk2.
    apply list_elem_of_fmap in Hk1 as ([? v1] & -> & Hk1).
    apply list_elem_of_fmap in Hk2 as ([? v2] & -> & Hk2).
    apply Hin1, Hh in Hk1 as [Hc1 _]. apply Hin1, Hh in Hk2 as [Hc2 _].
    by apply ToLower_inj_canonical. }
  assert (∀ name values, h !! name = Some values →
                         md !! Strings.ToLower name = Some values) as F1.
  { intros name values Hname. rewrite Hmd.
    rewrite (gathered_unique _ entries1 name values); [|done|by apply Hin1].
    destruct (Hh _ _ Hname) as [_ Hne]. by destruct values. }
  assert (∀ k values, md !! k = Some values →
                      ∃ name, h !! name = Some values ∧ k = Strings.ToLower name)
    as F2.
  { intros k values Hk. pose proof Hk as Hk'. rewrite Hmd in Hk'.
    apply extended_None_Some in Hk' as [Hg Hne].
    destruct values as [|v values]; [done|].
    destruct (gathered_elem Strings.ToLower entries1 k v)
      as (key & vals & Hkv & <- & _); [rewrite Hg; left|].
    apply Hin1 in Hkv. exists key. split; [|done].
    rewrite (F1 _ _ Hkv) in Hk. by injection Hk as ->. }
  assert (NoDup (Textproto.CanonicalMIMEHeaderKey <$> entries2.*1)) as Hcan.
  { apply NoDup_fmap_2_strong; [|done].
    intros k1 k2 Hk1 Hk2 Heq.
    apply list_elem_of_fmap in Hk1 as ([? v1] & -> & Hk1).
    apply list_elem_of_fmap in Hk2 as ([? v2] & -> & Hk2).
    apply Hin2, F2 in Hk1 as (n1 & Hn1 & ->).
    apply Hin2, F2 in Hk2 as (n2 & Hn2 & ->). simpl in *.
    rewrite !Canonical_ToLower in Heq by (by eapply Hh). by rewrite Heq. }
  assert (AddAll entries2 ∅ = h) as Hback.
  { apply map_eq. intros k. rewrite AddAll_lookup, lookup_empty.
    destruct (h !! k) as [values|] eqn:Hk.
    - destruct (Hh _ _ Hk) as [Hc Hne].
      rewrite <- (Canonical_ToLower k Hc) at 1.
      rewrite (gathered_unique _ entries2 _ values);
        [by destruct values|done|by apply Hin2, F1].
    - rewrite gathered_none; [done|].
      intros key values Hkv Heq. apply Hin2, F2 in Hkv as (name & Hname & ->).
      rewrite Canonical_ToLower in Heq by (by eapply Hh). congruence. }
  unfold request_headers. by rewrite Hback.
Qed.

(** C2 (as the code has it).  For a body that decodes to the object [m],
    well-formed as decoded documents are, and a header map with canonical
    names each holding a value: the textual-to-structured translation
    gives a struct whose map is [m]; the way back serialises exactly [m],
    so the body keeps its field set and values; and the headers come back
    as they were except [Content-Type], which is always the single value
    [application/json], in whatever order the maps are visited. *)
Theorem round_trip_up_to_content_type (env : Env) (b : string)
    (m : gmap string Value) (h : Header) entries1 entries2 :
  b ≠ "" →
  json_parse env b = Ok (VMap m) →
  utf8_clean (VMap m) = true →
  (∀ name values, h !! name = Some values →
                  Textproto.canonical_name name ∧ values ≠ []) →
  entries1 ≡ₚ map_to_list h →
  entries2 ≡ₚ map_to_list (outgoing_metadata entries1) →
  ∃ x,
    request_struct env b = Ok x
    ∧ AsMap x = m
    ∧ request_json env (StructMessage x)
      = match json_Marshal env m with
        | Ok b' => Ok b'
        | Err err => Err (Errorf_w "failed to marshal request: " err)
        end
    ∧ request_headers (Some entries2)
      = <["Content-Type" := ["application/json"]]> h.
Proof.
  intros Hb Hparse Hclean Hh Hp1 Hp2.
  destruct (NewStruct_AsMap m Hclean) as (x & Hx & Hmap).
  exists x. split; [|split; [done|split]].
  - unfold request_struct, Unmarshal_map. rewrite decide_True.
    + by rewrite Hparse, Hx.
    + destruct b; [done|simpl; lia].
  - unfold request_json. by rewrite Hmap.
  - by apply (headers_round_trip h entries1 entries2).
Qed.

Lemma round_trip_up_to_content_type_witness :
  request_headers
    (Some (map_to_list (outgoing_metadata
             (map_to_list ({[ "X-Request-Id" := ["7"; "8"] ]} : Header)))))
  = <["Content-Type" := ["application/json"]]> {[ "X-Request-Id" := ["7"; "8"] ]}.
Proof.
  destruct (round_trip_up_to_content_type Fixture.env "{}" ∅
              {[ "X-Request-Id" := ["7"; "8"] ]}
              (map_to_list ({[ "X-Request-Id" := ["7"; "8"] ]} : Header))
              (map_to_list (outgoing_metadata
                 (map_to_list ({[ "X-Request-Id" := ["7"; "8"] ]} : Header)))))
    as (x & _ & _ & _ & H).
  - discriminate.
  - vm_compute. reflexivity.
  - vm_compute. reflexivity.
  - intros name values Hl. apply lookup_singleton_Some in Hl as [<- <-].
    split; [split; vm_compute; reflexivity|discriminate].
  - reflexivity.
  - reflexivity.
  - exact H.
Defined.

(** C2 as worded fails on the headers: a request without headers comes
    back with one, and a content type other than JSON comes back as
    JSON.  The empty object, as a body, is kept; the empty array, a
    document that is no object, is refused. *)
Lemma round_trip_changes_content_type :
  let back (h : Header) :=
    request_headers (Some (map_to_list (outgoing_metadata (map_to_list h)))) in
  (∃ x, request_struct Fixture.env "{}" = Ok x
        ∧ request_json Fixture.env (StructMessage x) = Ok "{}")
  ∧ request_struct Fixture.env "[]"
    = Err (Errorf_w "failed to unmarshal request: "
             (ErrorString "json: cannot unmarshal array into Go value of type map[string]interface {}"))
  ∧ back ∅ = {[ "Content-Type" := ["application/json"] ]}
  ∧ back ∅ ≠ ∅
  ∧ back {[ "Content-Type" := ["text/plain"] ]}
    = {[ "Content-Type" := ["application/json"] ]}
  ∧ back {[ "Content-Type" := ["text/plain"] ]}
    ≠ {[ "Content-Type" := ["text/plain"] ]}.
Proof.
  intros back.
  assert (back ∅ = {[ "Content-Type" := ["application/json"] ]}) as H0
    by (vm_compute; reflexivity).
  assert (back {[ "Content-Type" := ["text/plain"] ]}
          = {[ "Content-Type" := ["application/json"] ]}) as H1
    by (vm_compute; reflexivity).
  split; [exists ∅; split; vm_compute; reflexivity|].
  split; [vm_compute; reflexivity|].
  split; [exact H0|]. split; [|split; [exact H1|]].
  - rewrite H0. intros H. apply (f_equal (lookup "Content-Type")) in H.
    by rewrite lookup_singleton_eq, lookup_empty in H.
  - rewrite H1. intros H. apply (f_equal (lookup "Content-Type")) in H.
    rewrite !lookup_singleton_eq in H. discriminate.
Qed.

End RoundTrip.

(** ** Failures reported by a backend *)

Section BackendFailureFacts.
Import Structpb Config Router.

(** C8 (as the code has it).  A failure reported by the backend of a
    translated call is not swallowed, and its status and message reach
    the caller as text; the status of the failure the caller gets is
    fixed.  From HTTP to gRPC, a status error of the backend becomes the
    answer 500 whose body quotes its code and message.  From gRPC to HTTP,
    an answer of the backend other than 200 becomes the status error
    [Internal] whose message quotes its status code and body.  On the
    gRPC-to-gRPC path the error of the backend is returned as it is. *)
Theorem backend_failure_reported_with_fixed_status (env : Env) :
  (∀ st r serviceName methodName backendAddr bodyBytes requestStruct
     conn p' rt' code msg,
     Http.Body r = Ok bodyBytes →
     request_struct env bodyBytes = Ok requestStruct →
     Pool.GetConnection (connectionPool st) (runtime st) backendAddr false false
     = (Ok conn, p', rt') →
     Invoke env conn ("/" ++ serviceName ++ "/" ++ methodName)
            (StructMessage requestStruct)
            (outgoing_metadata (map_to_list (Http.ReqHeader r)))
     = Err (StatusError code msg) →
     converted env st r serviceName methodName backendAddr
     = (Http.Error ∅ ("protocol conversion failed: gRPC invocation failed: " ++
                      "rpc error: code = " ++ Codes.String code ++
                      " desc = " ++ msg)
                   Http.StatusInternalServerError,
        set_pool st p' rt'))
  ∧ (∀ incoming serviceName methodName req backendURL requestJSON resp body,
       request_json env req = Ok requestJSON →
       NewRequest_error env "POST"
         (backendURL ++ "/" ++ serviceName ++ "/" ++ methodName) = None →
       Do env {| OutMethod := "POST";
                 OutURL := backendURL ++ "/" ++ serviceName ++ "/" ++ methodName;
                 OutHeader := request_headers (map_to_list <$> incoming);
                 OutBody := requestJSON |} = Ok resp →
       InBody resp = Ok body →
       InStatusCode resp ≠ Http.StatusOK →
       routeGRPCToHTTP env incoming serviceName methodName req backendURL
       = Err (StatusError Codes.Internal
                ("protocol conversion failed: HTTP request failed with status " ++
                 pretty (InStatusCode resp) ++ ": " ++ body)))
  ∧ (∀ st incoming serviceName methodName req backendAddr svcConfig conn p' rt' err,
       Pool.GetConnection (connectionPool st) (runtime st) backendAddr false false
       = (Ok conn, p', rt') →
       Invoke env conn ("/" ++ serviceName ++ "/" ++ methodName) req
              (default ∅ incoming) = Err err →
       routeGRPCToGRPC env st incoming serviceName methodName req backendAddr
                       svcConfig
       = (Err err, set_pool st p' rt')).
Proof.
  split; [|split].
  - intros st r serviceName methodName backendAddr bodyBytes requestStruct
      conn p' rt' code msg Hbody Hstruct Hconn Hinvoke.
    unfold converted, HTTPToGRPC.
    rewrite Hbody, Hstruct, Hconn, Hinvoke. reflexivity.
  - intros incoming serviceName methodName req backendURL requestJSON resp body
      Hjson Hnew Hdo Hbody Hstatus.
    unfold routeGRPCToHTTP, GRPCToHTTP.
    rewrite Hjson, Hnew, Hdo, Hbody. rewrite decide_True by done. reflexivity.
  - intros st incoming serviceName methodName req backendAddr svcConfig conn
      p' rt' err Hconn Hinvoke.
    unfold routeGRPCToGRPC. rewrite Hconn, Hinvoke. reflexivity.
Qed.

Lemma backend_failure_reported_with_fixed_status_witness :
  routeGRPCToHTTP Fixture.env None "billing" "Charge" (StructMessage ∅)
                  "http://legacy:8080"
  = Err (StatusError Codes.Internal
           "protocol conversion failed: HTTP request failed with status 404: missing").
Proof.
  destruct (backend_failure_reported_with_fixed_status Fixture.env)
    as (_ & H & _).
  apply (H None "billing" "Charge" (StructMessage ∅) "http://legacy:8080" "{}"
           {| InStatusCode := 404; InHeader := ∅; InBody := Ok "missing" |}
           "missing").
  - vm_compute. reflexivity.
  - reflexivity.
  - vm_compute. reflexivity.
  - reflexivity.
  - discriminate.
Defined.

(** C8 as worded fails on both translated paths: the status the caller
    gets does not depend on the status the backend reported.  Two gRPC
    backends failing with [NotFound] and with [PermissionDenied] both give
    the HTTP caller 500; two HTTP backends failing with 404 and with 503
    both give the gRPC caller [Internal]. *)
Lemma backend_status_is_remapped :
  let http_answer path := (ServeHTTP Fixture.env Fixture.cfg Fixture.started
                                     (Fixture.post path)).1 in
  let grpc_answer method :=
    routeGRPCToHTTP Fixture.env None "billing" method (StructMessage ∅)
                    "http://legacy:8080" in
  http_answer "/grpc/billing/Charge"
  = Returned (Http.Error ∅
      "protocol conversion failed: gRPC invocation failed: rpc error: code = NotFound desc = no such account"
      500)
  ∧ http_answer "/grpc/billing/Refund"
    = Returned (Http.Error ∅
        "protocol conversion failed: gRPC invocation failed: rpc error: code = PermissionDenied desc = no such account"
        500)
  ∧ grpc_answer "Charge"
    = Err (StatusError Codes.Internal
             "protocol conversion failed: HTTP request failed with status 404: missing")
  ∧ grpc_answer "Refund"
    = Err (StatusError Codes.Internal
             "protocol conversion failed: HTTP request failed with status 503: missing").
Proof.
  intros http_answer grpc_answer.
  repeat split; vm_compute; reflexivity.
Qed.

End BackendFailureFacts.


(** * Further properties of the code *)

Section BalancerSafety.
Import Balancer.

Lemma index_slice_elem (bs : list string) (i : Z) (s : string) :
  index_slice bs i = Returned s → s ∈ bs.
Proof.
  unfold index_slice. destruct (decide (i < 0)); [done|].
  destruct (bs !! Z.to_nat i) eqn:Hl; [|done].
  intros [= <-]. by eapply list_elem_of_lookup_2.
Qed.

Lemma Next_total (b : RoundRobinBalancer) :
  backends b ≠ [] →
  ∃ s, s ∈ backends b ∧
       Next b = (Returned s,
                 {| backends := backends b; counter := uint32_wrap (counter b + 1) |}).
Proof.
  intros Hne. unfold Next, AddUint32. cbn [backends counter].
  pose proof (len_pos _ Hne) as Hlen.
  rewrite !decide_False by lia.
  pose proof (uint32_wrap_range (uint32_wrap (counter b + 1) - 1)) as Hr.
  rewrite int_of_uint32_exact by done.
  rewrite Z.rem_mod_nonneg by lia.
  destruct (index_slice_mod (backends b) (uint32_wrap (uint32_wrap (counter b + 1) - 1)) Hne)
    as (s & Hs & ->); [lia|].
  exists s. split; [|done]. by eapply list_elem_of_lookup_2.
Qed.

(** X1.  [Next] always returns: no counter value and no backend list make
    the index fall outside the slice.  It never changes the backend list;
    on an empty list it returns the empty string and leaves the counter
    alone; on any other list it returns one of the listed backends and
    adds one to the counter, wrapping at 2^32. *)
Theorem Next_never_panics (b : RoundRobinBalancer) :
  ∃ s b',
    Next b = (Returned s, b')
    ∧ backends b' = backends b
    ∧ (backends b = [] → s = "" ∧ b' = b)
    ∧ (backends b ≠ [] →
         s ∈ backends b ∧ counter b' = uint32_wrap (counter b + 1)).
Proof.
  destruct (decide (backends b = [])) as [He|Hne].
  - exists "", b. rewrite Next_empty by done. done.
  - destruct (Next_total b Hne) as (s & Hs & ->).
    eexists _, _. split; [done|]. simpl. done.
Qed.

Lemma calls_app (m n : nat) (b : RoundRobinBalancer) :
  calls (m + n) b =
  let '(r1, b1) := calls m b in
  let '(r2, b2) := calls n b1 in
  ((r1 ++ r2)%list, b2).
Proof.
  revert b. induction m as [|m IH]; intros b; simpl.
  - by destruct (calls n b).
  - destruct (Next b) as [r b']. rewrite IH.
    destruct (calls m b') as [r1 b1]. by destruct (calls n b1).
Qed.

Lemma calls_empty (c : Z) (M : nat) :
  calls M {| backends := []; counter := c |}
  = (replicate M (Returned EmptyString), {| backends := []; counter := c |}).
Proof.
  induction M as [|M IH]; [reflexivity|].
  cbn [calls]. rewrite Next_empty by done. rewrite IH. reflexivity.
Qed.

(** X2.  Any number [M] of successive calls of [Next] on a balancer whose
    counter is a 32-bit value gives [M] results, leaves the backend list
    as it was and the counter a 32-bit value: the counter it started from
    when there is no backend, that counter plus [M] wrapped at 2^32
    otherwise. *)
Theorem calls_keep_counter_uint32 (b : RoundRobinBalancer) (M : nat) :
  wf b →
  wf (calls M b).2
  ∧ backends (calls M b).2 = backends b
  ∧ length (calls M b).1 = M
  ∧ counter (calls M b).2
    = (if decide (backends b = []) then counter b
       else uint32_wrap (counter b + Z.of_nat M)).
Proof.
  intros Hwf. destruct (decide (backends b = [])) as [He|Hne].
  - destruct b as [bs c]. simpl in He. subst bs.
    rewrite calls_empty. simpl. by rewrite length_replicate.
  - destruct b as [bs c]. simpl in *. rewrite calls_from by done. simpl.
    rewrite length_fmap, length_seq. split; [apply uint32_wrap_range|done].
Qed.

Lemma calls_keep_counter_uint32_witness :
  wf (calls 3 (NewRoundRobinBalancer ["b1"; "b2"])).2
  ∧ counter (calls 3 (NewRoundRobinBalancer ["b1"; "b2"])).2 = 3.
Proof.
  destruct (calls_keep_counter_uint32 (NewRoundRobinBalancer ["b1"; "b2"]) 3)
    as (Hwf & _ & _ & Hc).
  - unfold wf. simpl. rewrite uint32_modulus_eq. lia.
  - split; [exact Hwf|]. rewrite Hc. vm_compute. reflexivity.
Defined.

(** X3.  A fresh balancer over a non-empty list serves whole rounds: as
    long as the counter has not wrapped, the first [k] times [N] calls of
    [Next] return the list [k] times over, in its order. *)
Theorem whole_cycles_return_the_list (bs : list string) (k : nat) :
  bs ≠ [] →
  Z.of_nat (k * length bs) <= uint32_modulus →
  (calls (k * length bs) (NewRoundRobinBalancer bs)).1
  = concat (replicate k (Returned <$> bs)).
Proof.
  intros Hne Hk. rewrite calls_fresh by done. unfold wrapped_sequence.
  induction k as [|k IH]; [done|].
  replace (S k * length bs)%nat with (k * length bs + length bs)%nat by lia.
  rewrite seq_app, fmap_app, IH by nia.
  rewrite replicate_S_end, concat_app. f_equal. simpl. rewrite app_nil_r.
  apply list_eq. intros j. rewrite !list_lookup_fmap.
  destruct (decide (j < length bs)%nat) as [Hj|Hj].
  - rewrite lookup_seq_lt by done. simpl.
    destruct (lookup_lt_is_Some_2 bs j Hj) as [s Hs]. rewrite Hs. simpl.
    f_equal. pose proof (len_pos bs Hne) as Hlen. unfold len in *.
    rewrite (Z.mod_small _ uint32_modulus) by nia.
    replace (Z.of_nat (k * length bs + j))
      with (Z.of_nat j + Z.of_nat k * Z.of_nat (length bs)) by lia.
    rewrite Z.mod_add by lia. rewrite Z.mod_small by lia.
    unfold index_slice. rewrite decide_False by lia.
    by rewrite Nat2Z.id, Hs.
  - rewrite lookup_seq_ge by lia. by rewrite lookup_ge_None_2 by lia.
Qed.

Lemma whole_cycles_return_the_list_witness :
  (calls 4 (NewRoundRobinBalancer ["b1"; "b2"])).1
  = [Returned "b1"; Returned "b2"; Returned "b1"; Returned "b2"].
Proof.
  apply (whole_cycles_return_the_list ["b1"; "b2"] 2).
  - discriminate.
  - rewrite uint32_modulus_eq. simpl. lia.
Defined.

End BalancerSafety.

Section LockProgress.
Import Balancer Locked Progress.

Lemma count_pos (f : thread → bool) (ts : list thread) :
  (1 ≤ count f ts)%nat → ∃ i t, ts !! i = Some t ∧ f t = true.
Proof.
  induction ts as [|a ts IH]; cbn [count]; intros H; [lia|].
  destruct (f a) eqn:Hfa.
  - by exists 0%nat, a.
  - destruct IH as (i & t & Hi & Ht); [lia|]. by exists (S i), t.
Qed.

Lemma count_none (f : thread → bool) (ts : list thread) :
  Forall (λ t, f t = false) ts → count f ts = 0%nat.
Proof. induction 1 as [|t ts Ht _ IH]; cbn [count]; [done|]. by rewrite Ht. Qed.

Lemma reading_can_step t sh : reading t = true → is_Some (step t sh).
Proof.
  destruct t as [[] seen|bs []]; try done; intros _; simpl; eauto.
  destruct (decide _); eauto.
Qed.

Lemma writing_can_step t sh : writing t = true → is_Some (step t sh).
Proof. destruct t as [[] seen|bs []]; try done; intros _; simpl; eauto. Qed.

Lemma waiting_can_step t sh :
  reading t = false → writing t = false → finished t = false →
  writer (mu sh) = false → readers (mu sh) = 0%nat →
  is_Some (step t sh).
Proof.
  intros Hr Hw Hf Hwr Hrd.
  destruct t as [[] seen|bs []]; try done; simpl; rewrite Hwr, ?Hrd; eauto.
Qed.

(** X4.  Callers of [Next] and [UpdateBackends] on one balancer,
    interleaved operation by operation in any way from an unlocked mutex:
    when all of them have returned the mutex is unlocked again, with no
    reader and no writer left; and as long as one of them has not
    returned, some caller can take its next step, so the callers never
    block each other for good. *)
Theorem lock_is_released_and_never_deadlocks
    (b : RoundRobinBalancer) (ts : list thread) (schedule : list nat) :
  Forall at_entry ts →
  let final := exec schedule ts
                 {| bal := b; mu := {| writer := false; readers := 0 |} |} in
  (Forall (λ t, finished t = true) final.1 →
     mu final.2 = {| writer := false; readers := 0 |})
  ∧ (Exists (λ t, finished t = false) final.1 →
     ∃ i t t' sh', final.1 !! i = Some t ∧ step t final.2 = Some (t', sh')).
Proof.
  intros Hts final.
  pose proof (exec_inv _ schedule _ _ (inv_initial b ts Hts)) as Hinv.
  fold final in Hinv. destruct Hinv as [Hr Hw Hx _ _].
  split.
  - intros Hall.
    rewrite (count_none reading) in Hr.
    2:{ eapply Forall_impl; [exact Hall|]. by intros [[] ?|? []]. }
    rewrite (count_none writing) in Hw.
    2:{ eapply Forall_impl; [exact Hall|]. by intros [[] ?|? []]. }
    destruct (mu final.2) as [w r]. simpl in *. subst r.
    by destruct w.
  - intros Hex.
    destruct (writer (mu final.2)) eqn:Hwr.
    + destruct (count_pos writing final.1) as (i & t & Hi & Ht); [lia|].
      destruct (writing_can_step t final.2 Ht) as [[t' sh'] Hs].
      by exists i, t, t', sh'.
    + destruct (readers (mu final.2)) as [|n] eqn:Hrd.
      * apply Exists_exists in Hex as (t & Hin & Hf).
        apply list_elem_of_lookup in Hin as [i Hi].
        symmetry in Hr, Hw. apply count_zero in Hr. symmetry in Hw.
        apply count_zero in Hw.
        destruct (waiting_can_step t final.2) as [[t' sh'] Hs]; try done.
        -- by apply (proj1 (Forall_lookup _ _) Hr i t).
        -- by apply (proj1 (Forall_lookup _ _) Hw i t).
        -- by exists i, t, t', sh'.
      * destruct (count_pos reading final.1) as (i & t & Hi & Ht); [lia|].
        destruct (reading_can_step t final.2 Ht) as [[t' sh'] Hs].
        by exists i, t, t', sh'.
Qed.

Lemma lock_is_released_and_never_deadlocks_witness :
  let final := exec [0; 1; 1; 0; 0; 0]%nat
                 [UpdateCall ["x"] ULock; NextCall NRLock []] (fresh ["a"]) in
  ∃ i t t' sh', final.1 !! i = Some t ∧ step t final.2 = Some (t', sh').
Proof.
  intros final.
  destruct (lock_is_released_and_never_deadlocks
              (NewRoundRobinBalancer ["a"])
              [UpdateCall ["x"] ULock; NextCall NRLock []]
              [0; 1; 1; 0; 0; 0]%nat) as [_ H].
  - repeat constructor.
  - apply H. apply Exists_cons_tl, Exists_cons_hd. reflexivity.
Defined.

End LockProgress.

Section ConcurrentNext.
Import Balancer Locked Progress.

Lemma omap_snd_insert_same {A} (gts : list (A * option nat)) i a a' o :
  gts !! i = Some (a, o) →
  omap snd (<[i := (a', o)]> gts) = omap snd gts.
Proof.
  revert i. induction gts as [|[b ob] gts IH]; intros [|i] Hi; try done.
  - simpl in Hi. injection Hi as -> ->. done.
  - simpl in Hi. specialize (IH i Hi). simpl.
    change (list_omap (A * option nat)%type nat snd) with (omap (M := list) (@snd A (option nat))).
    by rewrite IH.
Qed.

Lemma omap_snd_insert_new {A} (gts : list (A * option nat)) i a a' n :
  gts !! i = Some (a, None) →
  omap snd (<[i := (a', Some n)]> gts) ≡ₚ n :: omap snd gts.
Proof.
  revert i. induction gts as [|[b ob] gts IH]; intros [|i] Hi; try done.
  - simpl in Hi. injection Hi as -> ->. done.
  - simpl in Hi. specialize (IH i Hi). simpl.
    change (list_omap (A * option nat)%type nat snd) with (omap (M := list) (@snd A (option nat))).
    destruct ob as [m|]; simpl.
    + rewrite IH. apply Permutation_swap.
    + done.
Qed.

Lemma omap_snd_length_le {A} (gts : list (A * option nat)) :
  (length (omap snd gts) ≤ length gts)%nat.
Proof.
  induction gts as [|[b ob] gts IH]; [done|]. simpl.
  change (list_omap (A * option nat)%type nat snd) with (omap (M := list) (@snd A (option nat))).
  destruct ob; simpl; lia.
Qed.

Lemma omap_snd_length_lt {A} (gts : list (A * option nat)) i a :
  gts !! i = Some (a, None) → (length (omap snd gts) < length gts)%nat.
Proof.
  revert i. induction gts as [|[b ob] gts IH]; intros [|i] Hi; try done.
  - simpl in Hi. injection Hi as -> ->. simpl.
    change (list_omap (A * option nat)%type nat snd) with (omap (M := list) (@snd A (option nat))).
    pose proof (omap_snd_length_le gts). simpl in *. lia.
  - simpl in Hi. specialize (IH i Hi). simpl.
    change (list_omap (A * option nat)%type nat snd) with (omap (M := list) (@snd A (option nat))).
    destruct ob; simpl; lia.
Qed.

Lemma turns_step bs K gts sh i t t' sh' :
  bs ≠ [] → Z.of_nat K < uint32_modulus →
  turns_inv bs K gts sh → gts.*1 !! i = Some t → step t sh = Some (t', sh') →
  ∃ gts', gts'.*1 = <[i := t']> gts.*1 ∧ turns_inv bs K gts' sh'.
Proof.
  intros Hne HK [Hb Hl Hok (c & Hc & Hperm)] Hi Hstep.
  rewrite list_lookup_fmap in Hi.
  destruct (gts !! i) as [[t0 o]|] eqn:Hgi; [|done].
  simpl in Hi. injection Hi as ->.
  pose proof (proj1 (Forall_lookup _ _) Hok i _ Hgi) as Hti.
  assert (∀ o', turn_ok bs (t', o') →
                Balancer.backends (bal sh') = bs →
                Balancer.counter (bal sh') = Balancer.counter (bal sh) →
                o' = o →
                ∃ gts', gts'.*1 = <[i := t']> gts.*1 ∧ turns_inv bs K gts' sh')
    as Hsame.
  { intros o' Hok' Hb' Hc' ->. exists (<[i := (t', o)]> gts).
    split; [by rewrite list_fmap_insert|].
    split; [done|by rewrite length_insert|by apply Forall_insert|].
    exists c. rewrite Hc', (omap_snd_insert_same _ _ _ _ _ Hgi). done. }
  destruct sh as [b m]. simpl in *.
  destruct t as [l seen|? ?]; [|by destruct o].
  destruct l; simpl in Hstep.
  - destruct (writer m); [done|]. injection Hstep as <- <-.
    destruct o; [done|]. by apply (Hsame None).
  - destruct o; [done|].
    destruct (decide _) as [H0|H0]; injection Hstep as <- <-.
    + rewrite Hb in H0. apply len_nil_iff in H0. done.
    + by apply (Hsame None).
  - destruct o; [done|]. injection Hstep as <- <-. simpl.
    assert (c < K)%nat as HcK.
    { pose proof (omap_snd_length_lt _ _ _ Hgi) as Hlt.
      rewrite Hperm, length_seq in Hlt. lia. }
    exists (<[i := (NextCall (NSlice (uint32_wrap (counter b + 1))) seen, Some c)]> gts).
    split; [by rewrite list_fmap_insert|].
    split; simpl; [done|by rewrite length_insert| |].
    + apply Forall_insert; [done|]. simpl. rewrite Hc.
      unfold uint32_wrap. rewrite Z.mod_small; lia.
    + exists (S c). split.
      * rewrite Hc. unfold uint32_wrap. rewrite Z.mod_small; lia.
      * rewrite (omap_snd_insert_new _ _ _ _ _ Hgi), Hperm, seq_S. simpl.
        by rewrite Permutation_cons_append.
  - destruct o as [n|]; [|done]. injection Hstep as <- <-.
    by apply (Hsame (Some n)).
  - destruct o as [n|]; [|done]. injection Hstep as <- <-.
    destruct Hti as [-> ->].
    apply (Hsame (Some n)); simpl; try done.
    rewrite Hb. rewrite decide_False by (by rewrite len_nil_iff).
    assert (n < K)%nat as HnK.
    { assert (n ∈ omap snd gts) as Hin.
      { apply list_elem_of_omap. exists (NextCall (NIndex (Z.of_nat n + 1) bs) seen, Some n).
        split; [by eapply list_elem_of_lookup_2|done]. }
      rewrite Hperm in Hin. apply elem_of_seq in Hin.
      pose proof (omap_snd_length_le gts) as Hle.
      assert (length (omap snd gts) = c) as Hlc by (by rewrite Hperm, length_seq).
      simpl in *. lia. }
    replace (Z.of_nat n + 1 - 1) with (Z.of_nat n) by lia.
    unfold uint32_wrap. rewrite (Z.mod_small (Z.of_nat n)) by lia.
    rewrite int_of_uint32_exact by lia.
    rewrite Z.rem_mod_nonneg; [done|lia|]. by apply len_pos.
  - destruct o as [n|]; [|done]. injection Hstep as <- <-.
    by apply (Hsame (Some n)).
  - done.
Qed.

Lemma turns_exec bs K schedule gts sh :
  bs ≠ [] → Z.of_nat K < uint32_modulus →
  turns_inv bs K gts sh →
  ∃ gts', gts'.*1 = (exec schedule gts.*1 sh).1
          ∧ turns_inv bs K gts' (exec schedule gts.*1 sh).2.
Proof.
  intros Hne HK. revert gts sh.
  induction schedule as [|i schedule IH]; intros gts sh Hinv; [by exists gts|].
  cbn [exec]. destruct (gts.*1 !! i) as [t|] eqn:Hi; [|by apply IH].
  destruct (step t sh) as [[t' sh']|] eqn:Hstep; [|by apply IH].
  destruct (turns_step bs K gts sh i t t' sh' Hne HK Hinv Hi Hstep)
    as (gts' & <- & Hinv').
  by apply IH.
Qed.

Lemma turns_results bs (gts : list (thread * option nat)) :
  Forall (turn_ok bs) gts → Forall (λ t, finished t = true) gts.*1 →
  omap result_of gts.*1
  = (λ n : nat, index_slice bs (Z.of_nat n mod len bs)) <$> omap snd gts
  ∧ length (omap snd gts) = length gts.
Proof.
  induction gts as [|[t o] gts IH]; [done|].
  intros [Hok Hoks]%Forall_cons [Hf Hfs]%Forall_cons.
  destruct (IH Hoks Hfs) as [IH1 IH2].
  destruct t as [[] seen|? []]; try done; destruct o as [n|]; try done.
  cbn in *. rewrite IH1, IH2, Hok. done.
Qed.

(** X5.  [K] concurrent callers of [Next] on a fresh balancer over a
    non-empty list, [K] below 2^32, interleaved in any way: once all have
    returned, what they got is, up to the order of the callers, what [K]
    calls one after the other return; no turn is handed out twice and
    none is skipped, and the counter stands at [K]. *)
Theorem concurrent_Next_hands_out_each_turn_once
    (bs : list string) (K : nat) (schedule : list nat) :
  bs ≠ [] →
  Z.of_nat K < uint32_modulus →
  let final := exec schedule (replicate K (NextCall NRLock [])) (fresh bs) in
  Forall (λ t, finished t = true) final.1 →
  omap result_of final.1 ≡ₚ round_robin_sequence bs K
  ∧ counter (bal final.2) = Z.of_nat K.
Proof.
  intros Hne HK final Hall.
  destruct (turns_exec bs K schedule
              (replicate K (NextCall NRLock [], None)) (fresh bs) Hne HK)
    as (gts & Hgts & [Hb Hl Hok (c & Hc & Hperm)]).
  { split; simpl; [done|by rewrite length_replicate| |].
    - apply Forall_replicate. done.
    - exists 0%nat. split; [done|]. clear.
      induction K as [|K IH]; [done|exact IH]. }
  rewrite fmap_replicate in Hgts, Hb, Hc. simpl in Hgts, Hb, Hc.
  fold final in Hgts, Hb, Hc.
  rewrite <- Hgts in Hall |- *.
  destruct (turns_results bs gts Hok Hall) as [-> Hlen].
  assert (c = K) as ->.
  { rewrite Hperm, length_seq in Hlen. lia. }
  split; [|done]. unfold round_robin_sequence. by rewrite Hperm.
Qed.

Lemma concurrent_Next_hands_out_each_turn_once_witness :
  let final := exec [0; 1; 1; 0; 1; 0; 0; 1; 1; 0; 0; 1]%nat
                 (replicate 2 (NextCall NRLock [])) (fresh ["b1"; "b2"]) in
  omap result_of final.1 ≡ₚ [Returned "b1"; Returned "b2"]
  ∧ counter (bal final.2) = 2.
Proof.
  intros final.
  apply (concurrent_Next_hands_out_each_turn_once ["b1"; "b2"] 2
           [0; 1; 1; 0; 1; 0; 0; 1; 1; 0; 0; 1]%nat).
  - discriminate.
  - rewrite uint32_modulus_eq. lia.
  - repeat constructor.
Defined.

End ConcurrentNext.

Section PoolSequential.
Import Pool.

Lemma held_spec (p : ConnectionPool) (c : ClientConn) :
  c ∈ held p ↔ ∃ a, connections p !! a = Some c.
Proof.
  unfold held. rewrite list_elem_of_fmap. split.
  - intros ([a c'] & -> & Hin). exists a. by apply elem_of_map_to_list.
  - intros [a Ha]. exists (a, c). split; [done|]. by apply elem_of_map_to_list.
Qed.

(** No connection is leaked exactly when every connection dialed so far
    is shut down or cached. *)
Lemma leaked_nil (p : ConnectionPool) (rt : Runtime) :
  leaked p rt = [] ↔
  ∀ c : ClientConn, (c < length (dialed rt))%nat →
       GetState rt c = Connectivity.Shutdown ∨ ∃ a, connections p !! a = Some c.
Proof.
  unfold leaked. split.
  - intros Hnil c Hc.
    destruct (decide (GetState rt c = Connectivity.Shutdown)) as [|Hs]; [by left|].
    right. apply held_spec.
    destruct (decide (c ∈ held p)) as [|Hh]; [done|].
    exfalso. eapply (filter_nil_not_elem_of _ _ c Hnil); [done|].
    apply elem_of_seq. lia.
  - intros H.
    destruct (filter _ _) as [|c l] eqn:Hf; [done|]. exfalso.
    assert (c ∈ c :: l) as Hin by left. rewrite <- Hf in Hin.
    apply list_elem_of_filter in Hin as [[Hs Hh] Hc%elem_of_seq].
    destruct (H c) as [|Ha]; [lia|done|]. by apply Hh, held_spec.
Qed.

Lemma GetState_Close_other rt c c' :
  c' ≠ c → GetState (Close rt c) c' = GetState rt c'.
Proof. intros Hne. unfold GetState, Close. simpl. by rewrite lookup_insert_ne. Qed.

Lemma GetState_Close_shut rt c c' :
  GetState rt c' = Connectivity.Shutdown →
  GetState (Close rt c) c' = Connectivity.Shutdown.
Proof.
  intros H. destruct (decide (c' = c)) as [->|Hne].
  - apply GetState_Close.
  - by rewrite GetState_Close_other.
Qed.

(** The three ways [GetConnection] can go, with the state it leaves. *)
Lemma GetConnection_shape p rt a tls sv :
  let out := GetConnection p rt a tls sv in
  (∃ c, connections p !! a = Some c ∧ reusable (GetState rt c) = true
        ∧ out = (Ok c, p, rt))
  ∨ (∃ p1 rt1,
       ((∃ c, connections p !! a = Some c ∧ reusable (GetState rt c) = false
              ∧ p1 = Delete p a ∧ rt1 = Close rt c)
        ∨ (connections p !! a = None ∧ p1 = p ∧ rt1 = rt))
       ∧ ((∃ e, dial_error rt a = Some e
                ∧ out = (Err (Errorf_w ("failed to dial " ++ a ++ ": ") e), p1, rt1))
          ∨ (∃ opts, dial_error rt a = None
                ∧ out = (Ok (length (dialed rt)),
                         Store p1 a (length (dialed rt)),
                         {| dial_error := dial_error rt1;
                            dialed := (dialed rt1 ++ [(a, opts)])%list;
                            conn_state := <[length (dialed rt) := Connectivity.Idle]>
                                            (conn_state rt1) |})
                ∧ dialed rt1 = dialed rt))).
Proof.
  intros out. subst out. unfold GetConnection, Load.
  destruct (connections p !! a) as [c|] eqn:Hl.
  - destruct (reusable (GetState rt c)) eqn:Hre.
    + left. by exists c.
    + right. exists (Delete p a), (Close rt c). split; [left; by exists c|].
      pose proof (create_and_store_cases (Delete p a) (Close rt c) a tls sv) as H.
      simpl in H. destruct (dial_error rt a) as [e|].
      * left. by exists e.
      * right. destruct H as [opts H]. by exists opts.
  - right. exists p, rt. split; [by right|].
    pose proof (create_and_store_cases p rt a tls sv) as H.
    destruct (dial_error rt a) as [e|].
    + left. by exists e.
    + right. destruct H as [opts H]. by exists opts.
Qed.

Lemma GetConnection_leak_free p rt a tls sv :
  leaked p rt = [] →
  leaked (GetConnection p rt a tls sv).1.2 (GetConnection p rt a tls sv).2 = [].
Proof.
  intros Hleak. rewrite leaked_nil in Hleak. apply leaked_nil.
  destruct (GetConnection_shape p rt a tls sv)
    as [(c & Hl & Hre & ->)|(p1 & rt1 & Hfirst & Hdial)]; [done|].
  assert (∀ c, (c < length (dialed rt))%nat →
               GetState rt1 c = Connectivity.Shutdown
               ∨ ∃ a', a' ≠ a ∧ connections p1 !! a' = Some c
                       ∧ connections p !! a' = Some c) as Hmid.
  { intros c Hc. destruct Hfirst as [(c0 & Hl & Hre & -> & ->)|(Hl & -> & ->)].
    - destruct (Hleak c Hc) as [Hs|[a' Ha']].
      + left. by apply GetState_Close_shut.
      + destruct (decide (a' = a)) as [->|Hne].
        * left. unfold ClientConn in *. assert (c = c0) as -> by congruence.
          apply GetState_Close.
        * right. exists a'. simpl. by rewrite lookup_delete_ne.
    - destruct (Hleak c Hc) as [Hs|[a' Ha']]; [by left|].
      right. exists a'. split; [congruence|done]. }
  assert (dialed rt1 = dialed rt) as Hd.
  { by destruct Hfirst as [(c0 & _ & _ & _ & ->)|(_ & _ & ->)]. }
  destruct Hdial as [(e & He & ->)|(opts & He & -> & _)]; simpl.
  - rewrite Hd. intros c Hc. destruct (Hmid c Hc) as [|(a' & _ & Ha' & _)]; eauto.
  - rewrite length_app, Hd. simpl. intros c Hc.
    destruct (decide (c = length (dialed rt))) as [->|Hne].
    + right. exists a. by rewrite lookup_insert_eq.
    + destruct (Hmid c) as [Hs|(a' & Hne' & Ha' & _)]; [lia| |].
      * left. unfold GetState in *. simpl. by rewrite lookup_insert_ne.
      * right. exists a'. by rewrite lookup_insert_ne.
Qed.

(** X6.  Calls of [GetConnection] that do not overlap leak nothing: if
    every connection dialed so far is shut down or cached in the pool,
    the same holds after the call, whether it reuses, replaces, creates
    or fails to dial. *)
Theorem sequential_GetConnection_leaks_nothing p rt a tls sv :
  leaked p rt = [] →
  leaked (GetConnection p rt a tls sv).1.2 (GetConnection p rt a tls sv).2 = [].
Proof. apply GetConnection_leak_free. Qed.

Lemma sequential_GetConnection_leaks_nothing_witness :
  let rt := {| dial_error := λ _, None; dialed := []; conn_state := ∅ |} in
  let p := NewConnectionPool 4 in
  leaked (GetConnection p rt "b:1" false false).1.2
         (GetConnection p rt "b:1" false false).2 = [].
Proof.
  intros rt p. apply sequential_GetConnection_leaks_nothing. reflexivity.
Defined.

(** X7.  After a successful [GetConnection] for an address, the
    connection is cached under that address, [HealthCheck] reports the
    address as IDLE, CONNECTING or READY, and asking again at once, with
    whatever TLS flags, returns the same connection and changes
    nothing. *)
Theorem GetConnection_again_reuses p rt a tls sv tls' sv' c p1 rt1 :
  GetConnection p rt a tls sv = (Ok c, p1, rt1) →
  GetConnection p1 rt1 a tls' sv' = (Ok c, p1, rt1)
  ∧ connections p1 !! a = Some c
  ∧ HealthCheck p1 rt1 !! a ∈ [Some "IDLE"; Some "CONNECTING"; Some "READY"].
Proof.
  intros Hfirst.
  assert (connections p1 !! a = Some c ∧ reusable (GetState rt1 c) = true) as [Hl Hre].
  { destruct (GetConnection_shape p rt a tls sv)
      as [(c0 & Hl & Hre & Hout)|(p' & rt' & _ & [(e & _ & Hout)|(opts & _ & Hout & _)])];
      rewrite Hfirst in Hout.
    - by injection Hout as -> -> ->.
    - done.
    - injection Hout as -> -> ->. simpl. rewrite lookup_insert_eq.
      unfold GetState. simpl. by rewrite lookup_insert_eq. }
  split; [|split; [done|]].
  - unfold GetConnection, Load. by rewrite Hl, Hre.
  - unfold HealthCheck. rewrite lookup_fmap, Hl. simpl.
    destruct (GetState rt1 c); try done; set_solver.
Qed.

Lemma GetConnection_again_reuses_witness :
  let rt := {| dial_error := λ _, None; dialed := []; conn_state := ∅ |} in
  let out := GetConnection (NewConnectionPool 4) rt "b:1" false false in
  GetConnection out.1.2 out.2 "b:1" true true = (Ok 0%nat, out.1.2, out.2).
Proof.
  intros rt out.
  apply (GetConnection_again_reuses (NewConnectionPool 4) rt "b:1" false false
           true true 0%nat out.1.2 out.2).
  reflexivity.
Defined.

(** X8.  [GetConnection] touches one address only: the entries of the
    pool under other addresses stay as they are, no connection dialed
    before changes state but the one cached under the address, the
    message size limit of the pool is kept, and at most one connection
    is dialed. *)
Theorem GetConnection_touches_one_address p rt a tls sv :
  let out := GetConnection p rt a tls sv in
  (∀ a', a' ≠ a → connections out.1.2 !! a' = connections p !! a')
  ∧ (∀ c, connections p !! a ≠ Some c → (c < length (dialed rt))%nat →
          GetState out.2 c = GetState rt c)
  ∧ maxMsgSize out.1.2 = maxMsgSize p
  ∧ (length (dialed rt) ≤ length (dialed out.2) ≤ S (length (dialed rt)))%nat.
Proof.
  intros out. subst out.
  destruct (GetConnection_shape p rt a tls sv)
    as [(c0 & Hl & Hre & ->)|(p1 & rt1 & Hfirst & Hdial)]; simpl.
  { repeat split; try done; lia. }
  assert ((∀ a', a' ≠ a → connections p1 !! a' = connections p !! a')
          ∧ (∀ c, connections p !! a ≠ Some c → GetState rt1 c = GetState rt c)
          ∧ maxMsgSize p1 = maxMsgSize p ∧ dialed rt1 = dialed rt)
    as (Hp & Hs & Hm & Hd).
  { destruct Hfirst as [(c0 & Hl & Hre & -> & ->)|(Hl & -> & ->)]; [|done].
    simpl. repeat split; try done.
    - intros a' Hne. by rewrite lookup_delete_ne.
    - intros c Hc. apply GetState_Close_other. congruence. }
  destruct Hdial as [(e & He & ->)|(opts & He & -> & _)]; simpl.
  - rewrite Hd. repeat split; try done; try lia. intros c Hc _. by apply Hs.
  - rewrite length_app, Hd. simpl. repeat split; try done; try lia.
    + intros a' Hne. rewrite lookup_insert_ne by done. by apply Hp.
    + intros c Hc Hlt. unfold GetState at 1. simpl.
      rewrite lookup_insert_ne by lia. by apply Hs.
Qed.

Lemma CloseAll_fold (p0 : ConnectionPool) (rt0 : Runtime)
    (m : gmap string ClientConn) :
  let out := map_fold (λ key conn '(p', rt'), (Delete p' key, Close rt' conn))
                      (p0, rt0) m in
  (∀ k, connections out.1 !! k
        = match m !! k with Some _ => None | None => connections p0 !! k end)
  ∧ maxMsgSize out.1 = maxMsgSize p0
  ∧ dialed out.2 = dialed rt0
  ∧ dial_error out.2 = dial_error rt0
  ∧ (∀ k c, m !! k = Some c → GetState out.2 c = Connectivity.Shutdown)
  ∧ (∀ c, (∀ k, m !! k ≠ Some c) → GetState out.2 c = GetState rt0 c).
Proof.
  apply (map_fold_weak_ind
           (λ (out : ConnectionPool * Runtime) (m : gmap string ClientConn),
              (∀ k, connections out.1 !! k
                    = match m !! k with Some _ => None | None => connections p0 !! k end)
              ∧ maxMsgSize out.1 = maxMsgSize p0
              ∧ dialed out.2 = dialed rt0
              ∧ dial_error out.2 = dial_error rt0
              ∧ (∀ k c, m !! k = Some c → GetState out.2 c = Connectivity.Shutdown)
              ∧ (∀ c, (∀ k, m !! k ≠ Some c) → GetState out.2 c = GetState rt0 c))).
  - repeat split; done.
  - intros key conn m' [p' rt'] Hnone (Hc & Hm & Hd & He & Hshut & Hkeep). simpl in *.
    repeat split; try done.
    + intros k. destruct (decide (key = k)) as [->|Hne].
      * by rewrite lookup_delete_eq, lookup_insert_eq.
      * rewrite lookup_delete_ne, lookup_insert_ne by done. apply Hc.
    + intros k c. destruct (decide (key = k)) as [->|Hne].
      * rewrite lookup_insert_eq. intros [= ->]. apply GetState_Close.
      * rewrite lookup_insert_ne by done. intros Hk.
        apply GetState_Close_shut. by eapply Hshut.
    + intros c Hnot. rewrite GetState_Close_other.
      * apply Hkeep. intros k Hk. apply (Hnot k).
        rewrite lookup_insert_ne; [done|]. intros ->. congruence.
      * intros ->. apply (Hnot key). by rewrite lookup_insert_eq.
Qed.

(** X9.  [CloseAll] empties the pool and shuts down every connection
    that was cached, and no other; it dials nothing and keeps the message
    size limit.  [HealthCheck] then reports nothing, and if nothing was
    leaked before nothing is leaked after. *)
Theorem CloseAll_drains_the_pool (p : ConnectionPool) (rt : Runtime) :
  let out := CloseAll p rt in
  connections out.1 = ∅
  ∧ maxMsgSize out.1 = maxMsgSize p
  ∧ dialed out.2 = dialed rt
  ∧ (∀ a c, connections p !! a = Some c → GetState out.2 c = Connectivity.Shutdown)
  ∧ (∀ c, (∀ a, connections p !! a ≠ Some c) → GetState out.2 c = GetState rt c)
  ∧ HealthCheck out.1 out.2 = ∅
  ∧ (leaked p rt = [] → leaked out.1 out.2 = []).
Proof.
  intros out. subst out. unfold CloseAll.
  destruct (CloseAll_fold p rt (connections p)) as (Hc & Hm & Hd & He & Hshut & Hkeep).
  assert (connections
            (map_fold (λ key conn '(p', rt'), (Delete p' key, Close rt' conn))
                      (p, rt) (connections p)).1 = ∅) as Hempty.
  { apply map_eq. intros k. rewrite Hc, lookup_empty.
    by destruct (connections p !! k) eqn:Hk. }
  repeat split; try done.
  - unfold HealthCheck. by rewrite Hempty, fmap_empty.
  - intros Hleak. rewrite leaked_nil in Hleak. apply leaked_nil.
    intros c Hlt. rewrite Hd in Hlt. left.
    destruct (Hleak c Hlt) as [Hs|[a Ha]].
    + destruct (decide (c ∈ held p)) as [[a Ha]%held_spec|Hn].
      * by eapply Hshut.
      * rewrite Hkeep; [done|]. intros a Ha. apply Hn, held_spec. by exists a.
    + by eapply Hshut.
Qed.

End PoolSequential.

Section PathShape.
Import Strings Config Router Shape.

Lemma split_go_nonempty sep s k : split_go sep s k ≠ [].
Proof.
  revert k. induction s as [|a s IH]; intros k; simpl; [done|].
  destruct k; [|apply IH].
  destruct (HasPrefix _ _); [done|].
  by destruct (split_go sep s 0).
Qed.

Lemma Split_length_byte (c : ascii) (s : string) :
  length (Split s (String c "")) = S (count_byte c s).
Proof.
  unfold Split. induction s as [|a s IH]; [done|].
  cbn [split_go count_byte HasPrefix strlen String.length Nat.sub].
  destruct (Ascii.eqb c a).
  - simpl. by rewrite IH.
  - destruct (split_go (String c "") s 0) eqn:Hs; simpl in *; lia.
Qed.

(** X10.  [routeHTTPToGRPC] answers 400 "invalid path format" exactly
    when the request path, with the slashes at both ends trimmed, holds
    fewer than two slashes; the state is then untouched.  With two
    slashes or more that answer is never given, whatever the segments
    are, empty ones included. *)
Theorem path_rejected_iff_fewer_than_two_slashes
    (env : Env) (st : state) (r : Http.Request) (route : HTTPRoute)
    (backendAddr : string) :
  routeHTTPToGRPC env st r route backendAddr = (Returned invalid_path_response, st)
  ↔ (count_byte "/" (Trim (Http.Path r) "/") < 2)%nat.
Proof.
  pose proof (Split_length_byte "/" (Trim (Http.Path r) "/")) as Hlen.
  split.
  - intros Hrej.
    destruct (decide (count_byte "/" (Trim (Http.Path r) "/") < 2)%nat) as [|Hge];
      [done|exfalso].
    destruct (routeHTTPToGRPC_long env st r route backendAddr)
      as (first & svc & m & further & _ & Heq); [lia|].
    rewrite Heq in Hrej. unfold converted in Hrej.
    destruct (HTTPToGRPC _ _ _ _ _ _ _) as [[[?|?] ?] ?]; by injection Hrej.
  - intros Hlt. apply routeHTTPToGRPC_short. lia.
Qed.

End PathShape.

Section RoutingMore.
Import Strings Config Router Shape.

Lemma append_cons (c : ascii) (a b : string) :
  String c a ++ b = String c (a ++ b).
Proof. reflexivity. Qed.

Lemma append_assoc (a b c : string) : (a ++ b) ++ c = a ++ (b ++ c).
Proof.
  induction a as [|x a IH]; [done|]. rewrite !append_cons. by rewrite IH.
Qed.

Lemma append_nil_r (a : string) : a ++ "" = a.
Proof. induction a as [|x a IH]; [done|]. rewrite append_cons. by rewrite IH. Qed.

Lemma HasPrefix_extend (path more p : string) :
  HasPrefix path p = true → HasPrefix (path ++ more) p = true.
Proof.
  intros [rest ->]%HasPrefix_spec. apply HasPrefix_spec.
  exists (rest ++ more). apply append_assoc.
Qed.

Lemma HasPrefix_empty (path : string) : HasPrefix path "" = true.
Proof. reflexivity. Qed.

(** X11.  [pathMatches] is prefix matching: a path that matches a
    pattern still matches when it is extended; one trailing star changes
    nothing on a pattern that has none; the empty pattern and the pattern
    "*" match every path; and every path matches itself as a pattern. *)
Theorem pathMatches_is_prefix_matching (path pattern : string) :
  (∀ more, pathMatches path pattern = true →
           pathMatches (path ++ more) pattern = true)
  ∧ ((∀ q, pattern ≠ q ++ "*") →
     pathMatches path (pattern ++ "*") = pathMatches path pattern)
  ∧ pathMatches path "" = true
  ∧ pathMatches path "*" = true
  ∧ pathMatches path path = true.
Proof.
  split; [|split; [|split; [|split]]].
  - intros more. unfold pathMatches.
    destruct (HasSuffix pattern "*"); apply HasPrefix_extend.
  - intros Hstar. unfold pathMatches at 1.
    rewrite HasSuffix_app, TrimSuffix_app. unfold pathMatches.
    destruct (HasSuffix pattern "*") eqn:Hs; [|done].
    apply HasSuffix_inv in Hs as [q ->]. by destruct (Hstar q).
  - reflexivity.
  - reflexivity.
  - unfold pathMatches. destruct (HasSuffix path "*") eqn:Hs.
    + apply HasSuffix_inv in Hs as [q ->].
      rewrite TrimSuffix_app. apply HasPrefix_app.
    + apply HasPrefix_spec. exists "". by rewrite append_nil_r.
Qed.

Lemma findRoute_from_app i routes more path method :
  findRoute_from i (routes ++ more) path method =
  match findRoute_from i routes path method with
  | Some found => Some found
  | None => findRoute_from (i + length routes) more path method
  end.
Proof.
  revert i. induction routes as [|route routes IH]; intros i; simpl.
  - by rewrite Nat.add_0_r.
  - destruct (route_matches path method route); [done|].
    rewrite IH. by replace (S i + length routes)%nat with (i + S (length routes))%nat by lia.
Qed.

(** X12.  Routes added at the end of the configuration never take a
    request from the routes before them: what [findRoute] found it still
    finds, under the same key; only a request that matched nothing is
    looked up in the added routes, their keys counted from the number of
    routes before.  The key found is always "route_i" for the index [i]
    of the route found. *)
Theorem appended_routes_never_steal_a_match
    (services : list GRPCService) (routes more : list HTTPRoute)
    (path method : string) :
  let before := {| GRPCServices := services; HTTPRoutes := routes |} in
  let after := {| GRPCServices := services; HTTPRoutes := (routes ++ more)%list |} in
  (∀ found, findRoute before path method = Some found →
            findRoute after path method = Some found)
  ∧ (findRoute before path method = None →
     findRoute after path method
     = findRoute_from (length routes) more path method)
  ∧ (∀ route key, findRoute after path method = Some (route, key) →
       ∃ i, (i < length (routes ++ more))%nat ∧ key = routeKey i
            ∧ (routes ++ more)%list !! i = Some route).
Proof.
  intros before after. unfold findRoute. simpl.
  rewrite findRoute_from_app. split; [|split].
  - by intros found ->.
  - by intros ->.
  - rewrite <- findRoute_from_app. intros route key Hf.
    pose proof (findRoute_from_spec 0 (routes ++ more) path method) as H.
    rewrite Hf in H. destruct H as (k & Hk & -> & _).
    exists k. split; [by eapply lookup_lt_Some|done].
Qed.

End RoutingMore.

Section HandlerSafety.
Import Strings Config Router Shape.

Lemma routeKey_inj i j : routeKey i = routeKey j → i = j.
Proof.
  unfold routeKey. intros H. apply (inj (String.app "route_")) in H.
  by apply (inj pretty) in H.
Qed.

Lemma balancers_fold_lookup (routes : list HTTPRoute) (k : nat)
    (m0 : gmap string Balancer.RoundRobinBalancer) (i : nat) :
  foldl (λ m '(i, route),
           <[routeKey i := Balancer.NewRoundRobinBalancer (Address <$> Backends route)]> m)
        m0 (imap (λ j, pair (k + j)%nat) routes) !! routeKey i
  = match (if decide (k ≤ i)%nat then routes !! (i - k)%nat else None) with
    | Some route => Some (Balancer.NewRoundRobinBalancer (Address <$> Backends route))
    | None => m0 !! routeKey i
    end.
Proof.
  revert k m0. induction routes as [|route routes IH]; intros k m0.
  - simpl. by destruct (decide _).
  - rewrite imap_cons. cbn [foldl].
    rewrite (imap_ext _ (λ j, pair (S k + j)%nat)).
    2:{ intros j x _. simpl. f_equal. lia. }
    rewrite IH. rewrite Nat.add_0_r.
    destruct (decide (S k ≤ i)%nat) as [Hle|Hgt].
    + rewrite decide_True by lia.
      replace (i - k)%nat with (S (i - S k)) by lia. simpl.
      destruct (routes !! (i - S k)%nat); [done|].
      rewrite lookup_insert_ne; [done|]. intros ?%routeKey_inj. lia.
    + destruct (decide (k ≤ i)%nat) as [Hle|Hlt].
      * assert (i = k) as -> by lia. rewrite Nat.sub_diag. simpl.
        by rewrite lookup_insert_eq.
      * rewrite lookup_insert_ne; [done|]. intros ?%routeKey_inj. lia.
Qed.

Lemma NewHTTPHandler_balancers_lookup (cfg : Config) (i : nat) :
  NewHTTPHandler_balancers cfg !! routeKey i
  = (λ route, Balancer.NewRoundRobinBalancer (Address <$> Backends route))
      <$> HTTPRoutes cfg !! i.
Proof.
  unfold NewHTTPHandler_balancers.
  rewrite (imap_ext _ (λ j, pair (0 + j)%nat)) by done.
  rewrite balancers_fold_lookup. rewrite decide_True by lia.
  rewrite Nat.sub_0_r. by destruct (HTTPRoutes cfg !! i).
Qed.

Lemma serves_initial (cfg : Config) p rt :
  serves cfg {| balancers := NewHTTPHandler_balancers cfg;
                connectionPool := p; runtime := rt |}.
Proof.
  intros i route Hi. simpl. rewrite NewHTTPHandler_balancers_lookup, Hi.
  by eexists.
Qed.

(** X13.  The keys "route_i" are distinct for distinct indices, so the
    balancers [NewHTTPHandler] builds do not overwrite each other: under
    "route_i" stands a fresh balancer over the addresses of the backends
    of route [i], in their order, and there is no balancer under the key
    of an index past the last route. *)
Theorem NewHTTPHandler_gives_each_route_its_balancer (cfg : Config) :
  (∀ i j, routeKey i = routeKey j → i = j)
  ∧ (∀ i, NewHTTPHandler_balancers cfg !! routeKey i
          = (λ route, Balancer.NewRoundRobinBalancer (Address <$> Backends route))
              <$> HTTPRoutes cfg !! i)
  ∧ (∀ i, (length (HTTPRoutes cfg) ≤ i)%nat →
          NewHTTPHandler_balancers cfg !! routeKey i = None)
  ∧ (∀ p rt, serves cfg {| balancers := NewHTTPHandler_balancers cfg;
                           connectionPool := p; runtime := rt |}).
Proof.
  split; [apply routeKey_inj|]. split; [apply NewHTTPHandler_balancers_lookup|].
  split; [|apply serves_initial].
  intros i Hi. rewrite NewHTTPHandler_balancers_lookup.
  by rewrite lookup_ge_None_2.
Qed.

Lemma Next_returns (b : Balancer.RoundRobinBalancer) :
  ∃ s b', Balancer.Next b = (Returned s, b')
          ∧ Balancer.backends b' = Balancer.backends b
          ∧ (s = "" ∨ s ∈ Balancer.backends b).
Proof.
  destruct (decide (Balancer.backends b = [])) as [He|Hne].
  - exists "", b. rewrite Next_empty by done. auto.
  - destruct (Next_total b Hne) as (s & Hs & ->). eexists _, _.
    split; [done|]. simpl. auto.
Qed.


(** X14.  When the balancers hold the addresses of the configuration,
    a request that matches a route always finds the balancer of that
    route, so "no balancer configured" is never the answer; the address
    drawn is the empty string or an address of the route.  On the empty
    string the answer is 503 "no backends available"; otherwise the
    request goes to the translation when the target protocol is "grpc"
    and is relayed in every other case; the balancer is advanced in all
    three. *)
Theorem matched_request_reaches_its_own_backends
    (env : Env) (cfg : Config) (st : state) (r : Http.Request)
    (route : HTTPRoute) (key : string) :
  serves cfg st →
  findRoute cfg (Http.Path r) (Http.Method r) = Some (route, key) →
  ∃ b backendAddr b',
    balancers st !! key = Some b
    ∧ Balancer.backends b = Address <$> Backends route
    ∧ Balancer.Next b = (Returned backendAddr, b')
    ∧ (backendAddr = "" ∨ backendAddr ∈ Address <$> Backends route)
    ∧ ServeHTTP env cfg st r
      = (if String.eqb backendAddr ""
         then (Returned (Http.Error ∅ "no backends available"
                                    Http.StatusServiceUnavailable),
               set_balancer st key b')
         else if String.eqb (TargetProtocol route) "grpc"
         then routeHTTPToGRPC env (set_balancer st key b') r route backendAddr
         else (Returned (routeHTTPToHTTP env r route backendAddr),
               set_balancer st key b')).
Proof.
  intros Hserves Hroute.
  pose proof (findRoute_from_spec 0 (HTTPRoutes cfg) (Http.Path r) (Http.Method r)) as H.
  unfold findRoute in Hroute. rewrite Hroute in H.
  destruct H as (i & Hi & -> & _). simpl in *.
  destruct (Hserves i route Hi) as (b & Hb & Hbs).
  destruct (Next_returns b) as (s & b' & Hnext & _ & Hs).
  exists b, s, b'. rewrite <- Hbs. repeat split; try done.
  unfold ServeHTTP, findRoute. by rewrite Hroute, Hb, Hnext.
Qed.

Lemma matched_request_reaches_its_own_backends_witness :
  ∃ b', ServeHTTP Fixture.env relay_cfg relay_started (get "/api/users")
        = (Returned (routeHTTPToHTTP Fixture.env (get "/api/users") http_route
                                     "http://b1:8081"),
           set_balancer relay_started "route_0" b').
Proof.
  destruct (matched_request_reaches_its_own_backends
              Fixture.env relay_cfg relay_started (get "/api/users")
              http_route "route_0")
    as (b & addr & b' & Hb & _ & Hnext & _ & Hserve).
  - apply serves_initial.
  - reflexivity.
  - exists b'.
    assert (balancers relay_started !! "route_0"
            = Some (Balancer.NewRoundRobinBalancer ["http://b1:8081"; "http://b2:8081"]))
      as Hb0 by (vm_compute; reflexivity).
    rewrite Hb0 in Hb. injection Hb as <-.
    vm_compute in Hnext. injection Hnext as <- <-. exact Hserve.
Defined.


End HandlerSafety.

Section Relay.
Import Strings Config Router Shape Http.







End Relay.

Section ValidateFacts.
Import Config Validation.

Lemma validate_backends_None name j bs :
  validate_backends name j bs = None ↔ Forall (λ b, Address b ≠ "") bs.
Proof.
  revert j. induction bs as [|b bs IH]; intros j; simpl.
  - split; [constructor|done].
  - destruct (String.eqb_spec (Address b) "") as [He|Hne].
    + split; [done|]. intros [? _]%Forall_cons. done.
    + rewrite IH. split; [by constructor|by intros [_ ?]%Forall_cons].
Qed.

Lemma validate_services_None i svcs :
  validate_services i svcs = None ↔
  Forall (λ svc, ServiceName svc ≠ "" ∧ SvcBackends svc ≠ []
                 ∧ Forall (λ b, Address b ≠ "") (SvcBackends svc)) svcs.
Proof.
  revert i. induction svcs as [|svc svcs IH]; intros i; simpl.
  - split; [constructor|done].
  - destruct (String.eqb_spec (ServiceName svc) "") as [He|Hne].
    { split; [done|]. by intros [[? _] _]%Forall_cons. }
    destruct (decide (length (SvcBackends svc) = 0)%nat) as [H0|H0].
    { split; [done|]. intros [(_ & Hb & _) _]%Forall_cons.
      by destruct (SvcBackends svc). }
    destruct (validate_backends (ServiceName svc) 0 (SvcBackends svc)) eqn:Hvb.
    { split; [done|]. intros [(_ & _ & Hb) _]%Forall_cons.
      apply (validate_backends_None (ServiceName svc) 0) in Hb. congruence. }
    apply validate_backends_None in Hvb. rewrite IH. split.
    + intros Hrest. constructor; [|done]. repeat split; try done.
      by destruct (SvcBackends svc).
    + by intros [_ ?]%Forall_cons.
Qed.

Lemma validate_routes_None i routes :
  validate_routes i routes = None ↔
  Forall (λ route, Path route ≠ "" ∧ Backends route ≠ []) routes.
Proof.
  revert i. induction routes as [|route routes IH]; intros i; simpl.
  - split; [constructor|done].
  - destruct (String.eqb_spec (Path route) "") as [He|Hne].
    { split; [done|]. by intros [[? _] _]%Forall_cons. }
    destruct (decide (length (Backends route) = 0)%nat) as [H0|H0].
    { split; [done|]. intros [[_ Hb] _]%Forall_cons.
      by destruct (Backends route). }
    rewrite IH. split.
    + intros Hrest. constructor; [|done]. split; [done|].
      by destruct (Backends route).
    + by intros [_ ?]%Forall_cons.
Qed.

Lemma Validate_None s c :
  Validate s c = None ↔
  (HTTPPort s ≠ 0 ∨ TLSPort s ≠ 0)
  ∧ (RunHTTPServer s = true ∨ RunTLSServer s = true)
  ∧ Forall (λ svc, ServiceName svc ≠ "" ∧ SvcBackends svc ≠ []
                   ∧ Forall (λ b, Address b ≠ "") (SvcBackends svc))
           (GRPCServices c)
  ∧ Forall (λ route, Path route ≠ "" ∧ Backends route ≠ []) (HTTPRoutes c).
Proof.
  unfold Validate.
  destruct (Z.eqb (HTTPPort s) 0 && Z.eqb (TLSPort s) 0) eqn:Hports.
  { apply andb_prop in Hports as [Hh%Z.eqb_eq Ht%Z.eqb_eq].
    split; [done|]. by intros [[?|?] _]. }
  assert (HTTPPort s ≠ 0 ∨ TLSPort s ≠ 0) as Hp.
  { apply andb_false_iff in Hports as [H%Z.eqb_neq|H%Z.eqb_neq]; auto. }
  destruct (negb (RunHTTPServer s) && negb (RunTLSServer s)) eqn:Hrun.
  { apply andb_prop in Hrun as [Hh%negb_true_iff Ht%negb_true_iff].
    split; [done|]. intros (_ & [?|?] & _); congruence. }
  assert (RunHTTPServer s = true ∨ RunTLSServer s = true) as Hr.
  { apply andb_false_iff in Hrun as [H%negb_false_iff|H%negb_false_iff]; auto. }
  destruct (validate_services 0 (GRPCServices c)) eqn:Hs.
  { split; [done|]. intros (_ & _ & Hsv & _).
    apply (validate_services_None 0) in Hsv. congruence. }
  apply validate_services_None in Hs. rewrite validate_routes_None.
  split; [by auto|by intros (_ & _ & _ & ?)].
Qed.

(** X18.  [Validate] returns no error exactly when a port is set, a
    server is enabled, every gRPC service has a name and at least one
    backend, all with an address, and every HTTP route has a path and at
    least one backend; the addresses of the backends of a route are not
    looked at.  Adding a route to a valid configuration keeps it valid
    exactly when the route has a path and a backend. *)
Theorem Validate_accepts_exactly_the_complete_configurations
    (s : Servers) (c : Config) :
  (Validate s c = None ↔
   (HTTPPort s ≠ 0 ∨ TLSPort s ≠ 0)
   ∧ (RunHTTPServer s = true ∨ RunTLSServer s = true)
   ∧ Forall (λ svc, ServiceName svc ≠ "" ∧ SvcBackends svc ≠ []
                    ∧ Forall (λ b, Address b ≠ "") (SvcBackends svc))
            (GRPCServices c)
   ∧ Forall (λ route, Path route ≠ "" ∧ Backends route ≠ []) (HTTPRoutes c))
  ∧ (∀ route, Validate s c = None →
       Validate s {| GRPCServices := GRPCServices c;
                     HTTPRoutes := (HTTPRoutes c ++ [route])%list |} = None
       ↔ Path route ≠ "" ∧ Backends route ≠ []).
Proof.
  split; [apply Validate_None|].
  intros route Hok. rewrite Validate_None in Hok. rewrite Validate_None. simpl.
  destruct Hok as (Hp & Hr & Hs & Hroutes). split.
  - intros (_ & _ & _ & H). apply Forall_app in H as [_ H].
    by apply Forall_cons in H as [H _].
  - intros H. repeat split; try done. apply Forall_app. split; [done|].
    by constructor.
Qed.

End ValidateFacts.

Section GRPCHandlerFacts.
Import Strings Config Router Shape Validation.

Lemma find_service_head (services : list GRPCService) (name : string) :
  find_service services name
  = head (filter (λ svc, ServiceName svc = name) services).
Proof.
  induction services as [|svc services IH]; [done|]. simpl.
  rewrite filter_cons.
  destruct (String.eqb_spec (ServiceName svc) name) as [He|Hne].
  - by rewrite decide_True.
  - by rewrite decide_False.
Qed.

Lemma grpc_balancers_fold_lookup (services : list GRPCService)
    (m0 : gmap string Balancer.RoundRobinBalancer) (name : string) :
  foldl (λ m svc,
           <[ServiceName svc :=
               Balancer.NewRoundRobinBalancer (Address <$> SvcBackends svc)]> m)
        m0 services !! name
  = match last (filter (λ svc, ServiceName svc = name) services) with
    | Some svc => Some (Balancer.NewRoundRobinBalancer (Address <$> SvcBackends svc))
    | None => m0 !! name
    end.
Proof.
  revert m0. induction services as [|svc services IH]; intros m0; [done|].
  cbn [foldl]. rewrite IH, filter_cons.
  destruct (decide (ServiceName svc = name)) as [He|Hne].
  - rewrite last_cons.
    destruct (last (filter _ services)); [done|].
    by rewrite He, lookup_insert_eq.
  - destruct (last (filter _ services)); [done|].
    by rewrite lookup_insert_ne.
Qed.

Lemma NewGRPCHandler_balancers_lookup (cfg : Config) (name : string) :
  NewGRPCHandler_balancers cfg !! name
  = (λ svc, Balancer.NewRoundRobinBalancer (Address <$> SvcBackends svc))
      <$> last (filter (λ svc, ServiceName svc = name) (GRPCServices cfg)).
Proof.
  unfold NewGRPCHandler_balancers. rewrite grpc_balancers_fold_lookup.
  by destruct (last _).
Qed.

(** X19.  Of the services sharing a name, [HandleGRPCRequest] takes the
    configuration of the first while [NewGRPCHandler] keeps the balancer
    of the last.  A name has a service exactly when it has a balancer,
    and when the names are distinct the balancer of a name holds the
    addresses of the service found. *)
Theorem service_is_the_first_of_its_name_balancer_the_last
    (cfg : Config) (name : string) :
  let named := filter (λ svc, ServiceName svc = name) (GRPCServices cfg) in
  find_service (GRPCServices cfg) name = head named
  ∧ NewGRPCHandler_balancers cfg !! name
    = (λ svc, Balancer.NewRoundRobinBalancer (Address <$> SvcBackends svc))
        <$> last named
  ∧ (is_Some (find_service (GRPCServices cfg) name)
     ↔ is_Some (NewGRPCHandler_balancers cfg !! name))
  ∧ (NoDup (ServiceName <$> GRPCServices cfg) →
     ∀ svc, find_service (GRPCServices cfg) name = Some svc →
       NewGRPCHandler_balancers cfg !! name
       = Some (Balancer.NewRoundRobinBalancer (Address <$> SvcBackends svc))).
Proof.
  intros named. subst named.
  rewrite find_service_head, NewGRPCHandler_balancers_lookup.
  split; [done|]. split; [done|]. split.
  - destruct (filter _ _) as [|svc l]; simpl.
    + split; by intros [? ?].
    + rewrite last_cons. destruct (last l); simpl; split; eauto.
  - intros Hnd svc Hhead.
    assert (∀ l : list GRPCService,
              NoDup (ServiceName <$> l) →
              length (filter (λ svc, ServiceName svc = name) l) ≤ 1)%nat as Hone.
    { clear. induction l as [|a l IH]; [simpl; lia|].
      rewrite fmap_cons, NoDup_cons, filter_cons. intros [Hnotin Hnd].
      specialize (IH Hnd).
      destruct (decide (ServiceName a = name)) as [He|Hne]; [|done].
      destruct (filter _ l) as [|b l'] eqn:Hf; [simpl; lia|]. exfalso.
      assert (b ∈ filter (λ svc, ServiceName svc = name) l) as Hb
        by (rewrite Hf; left).
      apply list_elem_of_filter in Hb as [Hbn Hb]. apply Hnotin.
      rewrite He, <- Hbn. apply list_elem_of_fmap. by exists b. }
    specialize (Hone _ Hnd).
    destruct (filter _ _) as [|a [|b l]]; simpl in *; [done| |lia].
    by injection Hhead as ->.
Qed.

Lemma serves_grpc_initial (cfg : Config) p rt :
  serves_grpc cfg {| balancers := NewGRPCHandler_balancers cfg;
                     connectionPool := p; runtime := rt |}.
Proof. by intros name. Qed.

Lemma routeGRPCToGRPC_balancers env st incoming serviceName methodName req
    backendAddr svcConfig :
  balancers (routeGRPCToGRPC env st incoming serviceName methodName req
                             backendAddr svcConfig).2 = balancers st.
Proof.
  unfold routeGRPCToGRPC.
  destruct (Pool.GetConnection _ _ _ _ _) as [[[conn|err] p'] rt']; [|done].
  by destruct (Invoke env _ _ _ _).
Qed.

(** X20.  [HandleGRPCRequest] always returns, whatever the
    configuration, the state and the call.  It never changes the backend
    list of any balancer, so balancers built from the configuration stay
    so; and a call for a service that is not configured gets the status
    error [NotFound] "service ... not found" with the state untouched. *)
Theorem HandleGRPCRequest_never_panics
    (env : Env) (cfg : Config) (st : state) (incoming : option Metadata.MD)
    (serviceName methodName : string) (req : Structpb.Message) :
  ∃ r st',
    HandleGRPCRequest env cfg st incoming serviceName methodName req
    = (Returned r, st')
    ∧ (∀ key, Balancer.backends <$> balancers st' !! key
              = Balancer.backends <$> balancers st !! key)
    ∧ (serves_grpc cfg st → serves_grpc cfg st')
    ∧ (find_service (GRPCServices cfg) serviceName = None →
       r = Err (StatusError Codes.NotFound
                  ("service " ++ serviceName ++ " not found"))
       ∧ st' = st).
Proof.
  assert (∀ r st',
            HandleGRPCRequest env cfg st incoming serviceName methodName req
            = (Returned r, st') →
            (∀ key, Balancer.backends <$> balancers st' !! key
                    = Balancer.backends <$> balancers st !! key) →
            (find_service (GRPCServices cfg) serviceName = None →
             r = Err (StatusError Codes.NotFound
                        ("service " ++ serviceName ++ " not found"))
             ∧ st' = st) →
            ∃ r st',
              HandleGRPCRequest env cfg st incoming serviceName methodName req
              = (Returned r, st')
              ∧ (∀ key, Balancer.backends <$> balancers st' !! key
                        = Balancer.backends <$> balancers st !! key)
              ∧ (serves_grpc cfg st → serves_grpc cfg st')
              ∧ (find_service (GRPCServices cfg) serviceName = None →
                 r = Err (StatusError Codes.NotFound
                            ("service " ++ serviceName ++ " not found"))
                 ∧ st' = st)) as Hpack.
  { intros r st' Heq Hkeep Hnone. exists r, st'.
    repeat split; try done; try (by apply Hnone).
    intros Hs name. rewrite Hkeep. apply Hs. }
  unfold HandleGRPCRequest in *.
  destruct (find_service (GRPCServices cfg) serviceName) as [svc|] eqn:Hsvc.
  2:{ by eapply Hpack. }
  destruct (balancers st !! serviceName) as [b|] eqn:Hb.
  2:{ by eapply Hpack. }
  destruct (Next_returns b) as (s & b' & Hnext & Hbs & _). rewrite Hnext in *.
  assert (∀ key', Balancer.backends <$> balancers (set_balancer st serviceName b') !! key'
                  = Balancer.backends <$> balancers st !! key') as Hset.
  { intros key'. simpl. destruct (decide (serviceName = key')) as [<-|Hne].
    - rewrite lookup_insert_eq, Hb. simpl. by rewrite Hbs.
    - by rewrite lookup_insert_ne. }
  destruct (String.eqb s ""); [by eapply Hpack|].
  destruct (IsGRPC svc); [|by eapply Hpack].
  pose proof (routeGRPCToGRPC_balancers env (set_balancer st serviceName b') incoming
                serviceName methodName req s svc) as Hbal.
  destruct (routeGRPCToGRPC _ _ _ _ _ _ _ _) as [r st''] eqn:Hr.
  simpl in Hbal. eapply Hpack; [done| |done].
  intros key'. rewrite Hbal. apply Hset.
Qed.

(** X21.  With a configuration that [Validate] accepts and balancers
    built from it, a call for a configured service never ends in "no
    balancer" or "no backends available": a non-empty address is drawn,
    one of the last service of that name, and the call is routed to it,
    over gRPC or over HTTP as the first service of that name says. *)
Theorem validated_service_always_reaches_a_backend
    (env : Env) (s : Servers) (cfg : Config) (st : state)
    (incoming : option Metadata.MD) (serviceName methodName : string)
    (req : Structpb.Message) (svc : GRPCService) :
  Validate s cfg = None →
  serves_grpc cfg st →
  find_service (GRPCServices cfg) serviceName = Some svc →
  ∃ b backendAddr b' target,
    balancers st !! serviceName = Some b
    ∧ Balancer.Next b = (Returned backendAddr, b')
    ∧ last (filter (λ svc, ServiceName svc = serviceName) (GRPCServices cfg))
      = Some target
    ∧ backendAddr ∈ Address <$> SvcBackends target
    ∧ backendAddr ≠ ""
    ∧ HandleGRPCRequest env cfg st incoming serviceName methodName req
      = (if IsGRPC svc
         then (Returned
                 (routeGRPCToGRPC env (set_balancer st serviceName b') incoming
                    serviceName methodName req backendAddr svc).1,
               (routeGRPCToGRPC env (set_balancer st serviceName b') incoming
                  serviceName methodName req backendAddr svc).2)
         else (Returned (routeGRPCToHTTP env incoming serviceName methodName
                                         req backendAddr),
               set_balancer st serviceName b')).
Proof.
  intros Hvalid Hserves Hsvc.
  apply Validate_None in Hvalid as (_ & _ & Hservices & _).
  pose proof (Hserves serviceName) as Hb.
  rewrite NewGRPCHandler_balancers_lookup in Hb.
  pose proof Hsvc as Hhead. rewrite find_service_head in Hhead.
  destruct (last (filter (λ svc, ServiceName svc = serviceName) (GRPCServices cfg)))
    as [target|] eqn:Hlast.
  2:{ apply last_None in Hlast. by rewrite Hlast in Hhead. }
  simpl in Hb.
  destruct (balancers st !! serviceName) as [b|] eqn:Hbal; [|done].
  simpl in Hb. injection Hb as Hbs.
  assert (target ∈ GRPCServices cfg) as Htarget.
  { apply last_Some_elem_of in Hlast. by apply list_elem_of_filter in Hlast as [_ ?]. }
  pose proof (proj1 (Forall_forall _ _) Hservices target Htarget)
    as (_ & Hne & Haddr).
  assert (Balancer.backends b ≠ []) as Hbne.
  { rewrite Hbs. by destruct (SvcBackends target). }
  destruct (Next_total b Hbne) as (a & Ha & Hnext).
  rewrite Hbs in Ha.
  assert (a ≠ "") as Hane.
  { apply list_elem_of_fmap in Ha as (bk & -> & Hbk).
    by apply (proj1 (Forall_forall _ _) Haddr). }
  eexists b, a, _, target. split; [done|]. split; [exact Hnext|].
  split; [done|]. split; [done|]. split; [done|].
  unfold HandleGRPCRequest. rewrite Hsvc, Hbal, Hnext.
  apply String.eqb_neq in Hane. rewrite Hane.
  destruct (IsGRPC svc); [|done].
  by destruct (routeGRPCToGRPC _ _ _ _ _ _ _ _).
Qed.

Lemma validated_service_always_reaches_a_backend_witness :
  HandleGRPCRequest Fixture.env relay_cfg grpc_started None "billing" "Charge"
                    (Structpb.StructMessage ∅)
  = (Returned (routeGRPCToHTTP Fixture.env None "billing" "Charge"
                               (Structpb.StructMessage ∅) "http://legacy:8080"),
     set_balancer grpc_started "billing"
       {| Balancer.backends := ["http://legacy:8080"]; Balancer.counter := 1 |}).
Proof.
  destruct (validated_service_always_reaches_a_backend
              Fixture.env
              {| HTTPPort := 8080; TLSPort := 0;
                 RunTLSServer := false; RunHTTPServer := true |}
              relay_cfg grpc_started None "billing" "Charge"
              (Structpb.StructMessage ∅)
              {| ServiceName := "billing"; IsGRPC := false;
                 SvcMaxCallRecvMsgSize := 0; SvcMaxCallSendMsgSize := 0;
                 SvcBackends := [Fixture.backend "http://legacy:8080"];
                 SvcTimeout := ""; RetryAttempts := 0 |})
    as (b & addr & b' & target & Hb & Hnext & _ & _ & _ & H).
  - reflexivity.
  - apply serves_grpc_initial.
  - reflexivity.
  - assert (balancers grpc_started !! "billing"
            = Some (Balancer.NewRoundRobinBalancer ["http://legacy:8080"]))
      as Hb0 by (vm_compute; reflexivity).
    rewrite Hb0 in Hb. injection Hb as <-.
    vm_compute in Hnext. injection Hnext as <- <-. exact H.
Defined.

End GRPCHandlerFacts.

Section HandlersAndThePool.
Import Strings Config Router Shape Pool.

Lemma HTTPToGRPC_leak_free env p rt serviceName methodName r backendAddr :
  leaked p rt = [] →
  leaked (HTTPToGRPC env p rt serviceName methodName r backendAddr).1.2
         (HTTPToGRPC env p rt serviceName methodName r backendAddr).2 = [].
Proof.
  intros Hleak. unfold HTTPToGRPC.
  destruct (Http.Body r) as [bodyBytes|err]; [|done].
  destruct (request_struct env bodyBytes) as [requestStruct|err]; [|done].
  pose proof (GetConnection_leak_free p rt backendAddr false false Hleak) as H.
  destruct (GetConnection p rt backendAddr false false) as [[[conn|err] p'] rt'];
    [|done].
  destruct (Invoke env _ _ _ _) as [resp|err]; [|done].
  by destruct (json_Marshal env _).
Qed.

Lemma routeHTTPToGRPC_leak_free env st r route backendAddr :
  leaked (connectionPool st) (runtime st) = [] →
  leaked (connectionPool (routeHTTPToGRPC env st r route backendAddr).2)
         (runtime (routeHTTPToGRPC env st r route backendAddr).2) = [].
Proof.
  intros Hleak. unfold routeHTTPToGRPC.
  destruct (decide _); [done|].
  destruct (index_slice _ 1) as [serviceName|]; [|done].
  destruct (index_slice _ 2) as [methodName|]; [|done].
  unfold converted.
  pose proof (HTTPToGRPC_leak_free env (connectionPool st) (runtime st)
                serviceName methodName r backendAddr Hleak) as H.
  by destruct (HTTPToGRPC _ _ _ _ _ _ _) as [[[?|?] ?] ?].
Qed.

Lemma routeGRPCToGRPC_leak_free env st incoming serviceName methodName req
    backendAddr svcConfig :
  leaked (connectionPool st) (runtime st) = [] →
  leaked (connectionPool (routeGRPCToGRPC env st incoming serviceName methodName
                                          req backendAddr svcConfig).2)
         (runtime (routeGRPCToGRPC env st incoming serviceName methodName
                                   req backendAddr svcConfig).2) = [].
Proof.
  intros Hleak. unfold routeGRPCToGRPC.
  pose proof (GetConnection_leak_free (connectionPool st) (runtime st)
                backendAddr false false Hleak) as H.
  destruct (GetConnection _ _ _ _ _) as [[[conn|err] p'] rt']; [|done].
  by destruct (Invoke env _ _ _ _).
Qed.

Lemma GetConnection_plain_dial p rt a :
  let plain := {| MaxCallRecvMsgSize := maxMsgSize p;
                  MaxCallSendMsgSize := maxMsgSize p;
                  KeepaliveTime := 10; KeepaliveTimeout := 3;
                  PermitWithoutStream := true;
                  TransportCredentials := InsecureCredentials |} in
  dialed (GetConnection p rt a false false).2 = dialed rt
  ∨ dialed (GetConnection p rt a false false).2 = (dialed rt ++ [(a, plain)])%list.
Proof.
  intros plain. subst plain.
  unfold GetConnection, create_and_store, createConnection, DialContext, Load.
  destruct (connections p !! a) as [c|].
  - destruct (reusable (GetState rt c)); [by left|]. simpl.
    destruct (dial_error rt a); simpl; [by left|by right].
  - destruct (dial_error rt a); simpl; [by left|by right].
Qed.

Lemma HTTPToGRPC_plain_dial env p rt serviceName methodName r backendAddr :
  let plain := {| MaxCallRecvMsgSize := maxMsgSize p;
                  MaxCallSendMsgSize := maxMsgSize p;
                  KeepaliveTime := 10; KeepaliveTimeout := 3;
                  PermitWithoutStream := true;
                  TransportCredentials := InsecureCredentials |} in
  dialed (HTTPToGRPC env p rt serviceName methodName r backendAddr).2 = dialed rt
  ∨ dialed (HTTPToGRPC env p rt serviceName methodName r backendAddr).2
    = (dialed rt ++ [(backendAddr, plain)])%list.
Proof.
  intros plain. unfold HTTPToGRPC.
  destruct (Http.Body r) as [bodyBytes|err]; [|by left].
  destruct (request_struct env bodyBytes) as [requestStruct|err]; [|by left].
  pose proof (GetConnection_plain_dial p rt backendAddr) as H.
  destruct (GetConnection p rt backendAddr false false) as [[[conn|err] p'] rt'];
    [|done].
  destruct (Invoke env _ _ _ _) as [resp|err]; [|done].
  by destruct (json_Marshal env _).
Qed.

(** X22.  Requests handled one after the other leak no connection: if
    every connection dialed so far is shut down or cached in the pool,
    the same holds after [ServeHTTP] and after [HandleGRPCRequest],
    whatever the request and whatever the backend answers. *)
Theorem handlers_leak_no_connection (env : Env) (cfg : Config) (st : state) :
  leaked (connectionPool st) (runtime st) = [] →
  (∀ r, leaked (connectionPool (ServeHTTP env cfg st r).2)
               (runtime (ServeHTTP env cfg st r).2) = [])
  ∧ (∀ incoming serviceName methodName req,
       leaked (connectionPool (HandleGRPCRequest env cfg st incoming serviceName
                                                 methodName req).2)
              (runtime (HandleGRPCRequest env cfg st incoming serviceName
                                          methodName req).2) = []).
Proof.
  intros Hleak. split.
  - intros r. unfold ServeHTTP.
    destruct (findRoute _ _ _) as [[route key]|]; [|done].
    destruct (balancers st !! key) as [b|]; [|done].
    destruct (Balancer.Next b) as [[backendAddr|] b']; [|done].
    destruct (String.eqb backendAddr ""); [done|].
    destruct (String.eqb (TargetProtocol route) "grpc"); [|done].
    by apply routeHTTPToGRPC_leak_free.
  - intros incoming serviceName methodName req. unfold HandleGRPCRequest.
    destruct (find_service _ _) as [svc|]; [|done].
    destruct (balancers st !! serviceName) as [b|]; [|done].
    destruct (Balancer.Next b) as [[backendAddr|] b']; [|done].
    destruct (String.eqb backendAddr ""); [done|].
    destruct (IsGRPC svc); [|done].
    pose proof (routeGRPCToGRPC_leak_free env (set_balancer st serviceName b')
                  incoming serviceName methodName req backendAddr svc Hleak) as H.
    by destruct (routeGRPCToGRPC _ _ _ _ _ _ _ _).
Qed.

Lemma handlers_leak_no_connection_witness :
  leaked (connectionPool (ServeHTTP Fixture.env Fixture.cfg Fixture.started
                                    (Fixture.post "/grpc/billing/Pay")).2)
         (runtime (ServeHTTP Fixture.env Fixture.cfg Fixture.started
                             (Fixture.post "/grpc/billing/Pay")).2) = [].
Proof.
  destruct (handlers_leak_no_connection Fixture.env Fixture.cfg Fixture.started)
    as [H _].
  - reflexivity.
  - apply H.
Defined.

(** X23.  One request makes the handlers dial at most one connection,
    and always with insecure transport credentials, the message size
    limits of the pool and the keepalive parameters of
    [createConnection]: the TLS settings of the backend in the
    configuration are not used. *)
Theorem handlers_dial_at_most_once_and_without_TLS
    (env : Env) (cfg : Config) (st : state) :
  let plain := {| MaxCallRecvMsgSize := maxMsgSize (connectionPool st);
                  MaxCallSendMsgSize := maxMsgSize (connectionPool st);
                  KeepaliveTime := 10; KeepaliveTimeout := 3;
                  PermitWithoutStream := true;
                  TransportCredentials := InsecureCredentials |} in
  (∀ r, dialed (runtime (ServeHTTP env cfg st r).2) = dialed (runtime st)
        ∨ ∃ a, dialed (runtime (ServeHTTP env cfg st r).2)
               = (dialed (runtime st) ++ [(a, plain)])%list)
  ∧ (∀ incoming serviceName methodName req,
       dialed (runtime (HandleGRPCRequest env cfg st incoming serviceName
                                          methodName req).2)
       = dialed (runtime st)
       ∨ ∃ a, dialed (runtime (HandleGRPCRequest env cfg st incoming serviceName
                                                 methodName req).2)
              = (dialed (runtime st) ++ [(a, plain)])%list).
Proof.
  intros plain. split.
  - intros r. unfold ServeHTTP.
    destruct (findRoute _ _ _) as [[route key]|]; [|by left].
    destruct (balancers st !! key) as [b|]; [|by left].
    destruct (Balancer.Next b) as [[backendAddr|] b']; [|by left].
    destruct (String.eqb backendAddr ""); [by left|].
    destruct (String.eqb (TargetProtocol route) "grpc"); [|by left].
    unfold routeHTTPToGRPC.
    destruct (decide _); [by left|].
    destruct (index_slice _ 1) as [serviceName|]; [|by left].
    destruct (index_slice _ 2) as [methodName|]; [|by left].
    unfold converted. simpl.
    pose proof (HTTPToGRPC_plain_dial env (connectionPool st) (runtime st)
                  serviceName methodName r backendAddr) as H.
    destruct (HTTPToGRPC _ _ _ _ _ _ _) as [[[?|?] ?] ?]; simpl in *;
      (destruct H as [H|H]; [by left|right; by exists backendAddr]).
  - intros incoming serviceName methodName req. unfold HandleGRPCRequest.
    destruct (find_service _ _) as [svc|]; [|by left].
    destruct (balancers st !! serviceName) as [b|]; [|by left].
    destruct (Balancer.Next b) as [[backendAddr|] b']; [|by left].
    destruct (String.eqb backendAddr ""); [by left|].
    destruct (IsGRPC svc); [|by left].
    unfold routeGRPCToGRPC. simpl.
    pose proof (GetConnection_plain_dial (connectionPool st) (runtime st)
                  backendAddr) as H.
    destruct (GetConnection _ _ _ _ _) as [[[conn|err] p'] rt']; simpl in *.
    + destruct (Invoke env _ _ _ _); simpl;
        (destruct H as [H|H]; [by left|right; by exists backendAddr]).
    + destruct H as [H|H]; [by left|right; by exists backendAddr].
Qed.

End HandlersAndThePool.

Section GRPCToHTTPFacts.
Import Strings Structpb Config Router Shape.





End GRPCToHTTPFacts.

Section CORSFacts.
Import Strings Http Middleware.

Lemma Set_lookup (h : Header) (key value k : string) :
  Textproto.CanonicalMIMEHeaderKey key = key →
  Set_ h key value !! k = if decide (k = key) then Some [value] else h !! k.
Proof.
  intros Hc. unfold Set_. rewrite Hc.
  destruct (decide (k = key)) as [->|Hne].
  - by rewrite lookup_insert_eq.
  - by rewrite lookup_insert_ne.
Qed.

Lemma allow_listed_lookup (h : Header) (origin : string) (allowed : list string)
    (k : string) :
  allow_listed h origin allowed !! k
  = if decide (k = "Access-Control-Allow-Origin" ∧ origin ∈ allowed)
    then Some [origin] else h !! k.
Proof.
  induction allowed as [|a allowed IH]; simpl.
  - rewrite decide_False; [done|]. intros [_ H]. by apply elem_of_nil in H.
  - destruct (String.eqb_spec origin a) as [->|Hne].
    + rewrite Set_lookup by (vm_compute; reflexivity).
      destruct (decide (k = "Access-Control-Allow-Origin")) as [->|Hk].
      * rewrite decide_True; [done|]. split; [done|left].
      * rewrite decide_False; [done|]. by intros [? _].
    + rewrite IH.
      destruct (decide (k = "Access-Control-Allow-Origin" ∧ origin ∈ allowed))
        as [[-> Hin]|Hno].
      * rewrite decide_True; [done|]. split; [done|by right].
      * rewrite decide_False; [done|]. intros [-> Hin].
        apply elem_of_cons in Hin as [?|?]; [done|]. by apply Hno.
Qed.

(** X25.  [CORS] answers an OPTIONS request itself, 204 with an empty
    body, and passes any other request on with the headers it has set.
    "Access-Control-Allow-Origin" is "*" when every origin is allowed,
    the origin of the request when it is in the allow list, and
    otherwise stays as it was on the writer: an origin that is not
    listed is never echoed.  The three other headers always hold one
    value, the allowed headers being the list of the configuration
    joined by ", " or the default; no other header is touched. *)
Theorem CORS_answers_preflight_and_names_only_listed_origins
    {S : Type} (cfg : Origins) (next : Handler S)
    (h : Header) (r : Request) (st : S) :
  let origin := Get (ReqHeader r) "Origin" in
  let h' := cors_headers cfg h r in
  CORS cfg next h r st
  = (if String.eqb (Method r) "OPTIONS"
     then (Returned {| StatusCode := 204; RespHeader := h'; RespBody := "" |}, st)
     else next h' r st)
  ∧ h' !! "Access-Control-Allow-Origin"
    = (if AllowAllOrigin cfg then Some ["*"]
       else if decide (origin ∈ AllowedOrigins cfg) then Some [origin]
       else h !! "Access-Control-Allow-Origin")
  ∧ h' !! "Access-Control-Allow-Methods" = Some ["GET, POST, PUT, DELETE, OPTIONS"]
  ∧ h' !! "Access-Control-Allow-Headers"
    = Some [match AllowedHeaders cfg with
            | [] => "Content-Type, Authorization"
            | _ => Join (AllowedHeaders cfg) ", "
            end]
  ∧ h' !! "Access-Control-Max-Age" = Some ["3600"]
  ∧ (∀ k, k ∉ ["Access-Control-Allow-Origin"; "Access-Control-Allow-Methods";
               "Access-Control-Allow-Headers"; "Access-Control-Max-Age"] →
          h' !! k = h !! k).
Proof.
  intros origin h'. split; [reflexivity|].
  assert (∀ k, h' !! k
    = if decide (k = "Access-Control-Max-Age") then Some ["3600"]
      else if decide (k = "Access-Control-Allow-Headers")
      then Some [match AllowedHeaders cfg with
                 | [] => "Content-Type, Authorization"
                 | _ => Join (AllowedHeaders cfg) ", "
                 end]
      else if decide (k = "Access-Control-Allow-Methods")
      then Some ["GET, POST, PUT, DELETE, OPTIONS"]
      else if AllowAllOrigin cfg
      then (if decide (k = "Access-Control-Allow-Origin") then Some ["*"]
            else h !! k)
      else if decide (k = "Access-Control-Allow-Origin"
                      ∧ origin ∈ AllowedOrigins cfg)
      then Some [origin] else h !! k) as Hlookup.
  { intros k. subst h'. unfold cors_headers. fold origin.
    rewrite Set_lookup by (vm_compute; reflexivity).
    destruct (decide (k = "Access-Control-Max-Age")); [done|].
    assert (∀ h2,
              (if decide (0 < length (AllowedHeaders cfg))%nat
               then Set_ h2 "Access-Control-Allow-Headers"
                         (Join (AllowedHeaders cfg) ", ")
               else Set_ h2 "Access-Control-Allow-Headers"
                         "Content-Type, Authorization")
              = Set_ h2 "Access-Control-Allow-Headers"
                     match AllowedHeaders cfg with
                     | [] => "Content-Type, Authorization"
                     | _ => Join (AllowedHeaders cfg) ", "
                     end) as ->.
    { intros h2. destruct (AllowedHeaders cfg); [done|].
      rewrite decide_True; [done|simpl; lia]. }
    rewrite Set_lookup by (vm_compute; reflexivity).
    destruct (decide (k = "Access-Control-Allow-Headers")); [done|].
    rewrite Set_lookup by (vm_compute; reflexivity).
    destruct (decide (k = "Access-Control-Allow-Methods")); [done|].
    destruct (AllowAllOrigin cfg).
    - by rewrite Set_lookup by (vm_compute; reflexivity).
    - destruct (decide (0 < length (AllowedOrigins cfg))%nat) as [|Hnone].
      + apply allow_listed_lookup.
      + rewrite decide_False; [done|]. intros [_ Hin].
        destruct (AllowedOrigins cfg); [by apply elem_of_nil in Hin|].
        simpl in Hnone. lia. }
  repeat split.
  - rewrite Hlookup. rewrite !decide_False by done.
    destruct (AllowAllOrigin cfg); [by rewrite decide_True|].
    destruct (decide (origin ∈ AllowedOrigins cfg)) as [Hin|Hout].
    + by rewrite decide_True.
    + rewrite decide_False; [done|]. by intros [_ ?].
  - rewrite Hlookup. rewrite !decide_False by done. by rewrite decide_True.
  - rewrite Hlookup. rewrite decide_False by done. by rewrite decide_True.
  - rewrite Hlookup. by rewrite decide_True.
  - intros k Hk. rewrite Hlookup.
    rewrite !not_elem_of_cons in Hk. destruct Hk as (H1 & H2 & H3 & H4 & _).
    rewrite !decide_False by done.
    destruct (AllowAllOrigin cfg); [done|].
    rewrite decide_False; [done|]. by intros [? _].
Qed.

End CORSFacts.

Section HTTPToGRPCOutcomes.
Import Strings Structpb Config Router Pool.




End HTTPToGRPCOutcomes.
